(** * Procedural voxel world: PRNG, value noise, terrain generator,
      chunk store and streaming controller

    A shallow embedding of [WorldGenerator.ts], [World.ts] (class
    [HousingWorld]) and [structures/OakTree.ts], followed by the properties
    of the specification that were checked against it.

    Conventions of the embedding.
    - JavaScript integers are [Z]; the 32-bit conversions of the bitwise
      operators ([| 0], [>>> 0], [Math.imul]) are written out.  Integer
      arithmetic is exact: the doubles of the source agree with it as long
      as the integers stay below 2^53 in magnitude.
    - The store, the terrain and the streaming are stated over the noise
      field in exact arithmetic: the PRNG output and the noise are
      rationals [Q], and a result that is not a finite number ([NaN],
      [Infinity], or a read outside a typed array) is [None].
    - [Module Binary64] gives the noise and [getSurfaceY] on IEEE-754
      doubles, operation by operation as the source computes them.  The two
      readings share the permutation table, whose construction is exact in
      doubles; their values differ by rounding.
    - The mutable store is threaded through a state monad; a chunk object is
      referred to by the key under which the store holds it.
    - A structure is a program over the three things the [IStructure]
      contract hands it: reading a block, writing a block, drawing from the
      PRNG.
    - The scene graph and the meshes are the renderer's and are left out. *)

From Stdlib Require Import ZArith QArith Qround Lia Lqa.
From Stdlib Require Import PrimFloat FloatOps SpecFloat.
From stdpp Require Import gmap list.

#[local] Set Warnings "-clear-no-such-hyp".

Open Scope Z_scope.

(** ** 32-bit integer conversions of the JavaScript operators *)

(** [x >>> 0] *)
Definition to_uint32 (n : Z) : Z := n mod 2 ^ 32.

(** [x | 0] *)
Definition to_int32 (n : Z) : Z := (n + 2 ^ 31) mod 2 ^ 32 - 2 ^ 31.

(** [Math.imul(a, b)] *)
Definition imul (a b : Z) : Z := to_int32 (to_int32 a * to_int32 b).

(** [a >>> n] *)
Definition ushr (a n : Z) : Z := Z.shiftr (to_uint32 a) n.

(** [a ^ b] *)
Definition bxor (a b : Z) : Z := Z.lxor (to_int32 a) (to_int32 b).

(** [a | b] *)
Definition bor (a b : Z) : Z := Z.lor (to_int32 a) (to_int32 b).

(** [Math.round]: the nearest integer, a tie going up. *)
Definition js_round (q : Q) : Z := Qfloor (q + (1 # 2))%Q.

(** ** Seeded PRNG (mulberry32)

    The closure returned by [mulberry32(seed)] owns the mutable [seed]; one
    call is a step from the captured seed to the drawn number and the new
    seed. *)

Definition mulberry32 (seed : Z) : Q * Z :=
  let seed := to_int32 (seed + 0x6d2b79f5) in
  let t := imul (bxor seed (ushr seed 15)) (bor 1 seed) in
  let t := bxor (t + imul (bxor t (ushr t 7)) (bor 61 t)) t in
  (inject_Z (to_uint32 (bxor t (ushr t 14))) / 4294967296, seed)%Q.

(** ** Two-dimensional value noise

    In exact arithmetic; [Module Binary64] has [fade], [lerp], [sample] and
    [octave] on doubles. *)

Definition fade (t : Q) : Q := (t * t * t * (t * (t * 6 - 15) + 10))%Q.

Definition lerp (a b t : Q) : Q := (a + t * (b - a))%Q.

Module ValueNoise.

Record t := { perm : list Z }.

(** One iteration of the Fisher-Yates loop, [i] going down from 255 to 1:
    the state is the table [p] and the seed captured by [rand]. *)
Definition shuffle_step (st : list Z * Z) (i : nat) : list Z * Z :=
  let '(p, s) := st in
  let '(r, s) := mulberry32 s in
  let j := Z.to_nat (Qfloor (r * inject_Z (Z.of_nat i + 1))) in
  let tmp := p !!! i in
  let p := <[i := p !!! j]> p in
  let p := <[j := tmp]> p in
  (p, s).

Definition shuffle (seed : Z) : list Z :=
  fst (foldl shuffle_step (seqZ 0 256, seed) (reverse (seq 1 255))).

(** [new ValueNoise(seed)] *)
Definition new (seed : Z) : t :=
  let p := shuffle seed in
  {| perm := (fun i => p !!! Z.to_nat (Z.land i 255)) <$> seqZ 0 512 |}.

(** [this.perm[i]]; outside the table the read is [undefined]. *)
Definition at_ (n : t) (i : Z) : option Z :=
  if 0 <=? i then perm n !! Z.to_nat i else None.

(** Smooth value noise. *)
Definition sample (n : t) (x z : Q) : option Q :=
  let xi := Z.land (Qfloor x) 255 in
  let zi := Z.land (Qfloor z) 255 in
  let xf := (x - inject_Z (Qfloor x))%Q in
  let zf := (z - inject_Z (Qfloor z))%Q in
  let u := fade xf in
  let v := fade zf in
  pa ← at_ n xi;
  pb ← at_ n (xi + 1);
  aa ← at_ n (pa + zi);
  ba ← at_ n (pb + zi);
  ab ← at_ n (pa + zi + 1);
  bb ← at_ n (pb + zi + 1);
  let aa := (inject_Z aa / 255)%Q in
  let ba := (inject_Z ba / 255)%Q in
  let ab := (inject_Z ab / 255)%Q in
  let bb := (inject_Z bb / 255)%Q in
  Some (lerp (lerp aa ba u) (lerp ab bb u) v).

(** The loop variables of [octave]. *)
Record acc := { value : Q; amplitude : Q; frequency : Q; maxValue : Q }.

Definition octave_step (n : t) (x z persistence : Q) (a : option acc)
  : option acc :=
  a ← a;
  s ← sample n (x * frequency a) (z * frequency a);
  Some {| value := value a + s * amplitude a;
          maxValue := maxValue a + amplitude a;
          amplitude := amplitude a * persistence;
          frequency := frequency a * 2 |}%Q.

Definition octave_loop (n : t) (x z : Q) (octaves : Z)
    (persistence scale : Q) : option acc :=
  Nat.iter (Z.to_nat octaves) (octave_step n x z persistence)
    (Some {| value := 0; amplitude := 1; frequency := scale;
             maxValue := 0 |}%Q).

(** Fractal octave noise: [value / maxValue], which is not a finite number
    when [maxValue] is zero. *)
Definition octave (n : t) (x z : Q) (octaves : Z) (persistence scale : Q)
  : option Q :=
  a ← octave_loop n x z octaves persistence scale;
  if Qeq_bool (maxValue a) 0 then None else Some (value a / maxValue a)%Q.

End ValueNoise.

(** Deterministic integer hash of (seed, chunkX, chunkZ).  The products
    [x * 1664525 + 1013904223] are exact here; the source rounds them to a
    double once they pass 2^53, for chunk coordinates beyond 5.4e9. *)
Definition hashCoords (seed x z : Z) : Z :=
  let h := to_int32 (bxor seed 0x45d9f3b) in
  let h := to_int32 (imul (bxor h (x * 1664525 + 1013904223)) 0x27d4eb2d) in
  let h := to_int32 (imul (bxor h (z * 1664525 + 1013904223)) 0x27d4eb2d) in
  let h := bxor h (ushr h 16) in
  to_uint32 h.

(** ** Block IDs *)

Module BLK.
Definition AIR : Z := 0.
Definition STONE : Z := 1.
Definition GRASS : Z := 8.
Definition DIRT : Z := 9.
Definition BEDROCK : Z := 19.
Definition SAND : Z := 20.
End BLK.

(** ** Chunks *)

(** Modelled from the spec: [chunk/Chunk.ts] is not part of the sources at
    hand.  The spec gives a chunk its coordinates, a dense voxel buffer of
    [SIZE]³ block IDs and a dirty flag; [SIZE = 32] and the buffer layout
    [(lx * SIZE + ly) * SIZE + lz] are the ones [WorldGenerator.generateChunk]
    relies on (``same layout as chunk.setBlock(lx, ly, lz)'').  A write
    outside a typed array is dropped and a read outside it is [undefined]. *)
Module Chunk.

Definition SIZE : Z := 32.

Definition VOLUME : nat := Z.to_nat (SIZE * SIZE * SIZE).
#[global] Arguments VOLUME : simpl never.

Record t := {
  x : Z; y : Z; z : Z;
  blocks : list Z;
  isDirty : bool
}.

Definition new (cx cy cz : Z) : t :=
  {| x := cx; y := cy; z := cz;
     blocks := replicate VOLUME 0; isDirty := false |}.

Definition index (lx ly lz : Z) : Z := (lx * SIZE + ly) * SIZE + lz.

(** [chunk.blocks[i] = b] *)
Definition write (i b : Z) (c : t) : t :=
  {| x := x c; y := y c; z := z c;
     blocks := if 0 <=? i then <[Z.to_nat i := b]> (blocks c) else blocks c;
     isDirty := isDirty c |}.

(** [chunk.blocks[i]] *)
Definition read (i : Z) (c : t) : option Z :=
  if 0 <=? i then blocks c !! Z.to_nat i else None.

Definition setBlock (lx ly lz b : Z) (c : t) : t := write (index lx ly lz) b c.

Definition getBlock (lx ly lz : Z) (c : t) : Z :=
  default 0 (read (index lx ly lz) c).

Definition setDirty (d : bool) (c : t) : t :=
  {| x := x c; y := y c; z := z c; blocks := blocks c; isDirty := d |}.

End Chunk.

(** ** The world store and its state monad *)

(** The key strings ["cx,cy,cz"] and ["cx,cz"] of the source are injective
    on integers; the keys are the tuples themselves.  [dirtyChunks] is a
    JavaScript [Set], iterated in insertion order: a duplicate-free list of
    the keys of the dirty chunks. *)
Record World := {
  chunks : gmap (Z * Z * Z) Chunk.t;
  dirtyChunks : list (Z * Z * Z);
  generatedColumns : gset (Z * Z)
}.

Definition M (A : Type) : Type := World → A * World.

#[export] Instance M_ret : MRet M := λ A a w, (a, w).
#[export] Instance M_bind : MBind M :=
  λ A B k m w, let '(a, w') := m w in k a w'.

Definition exec {A} (m : M A) (w : World) : World := snd (m w).
Definition eval {A} (m : M A) (w : World) : A := fst (m w).

(** [for (const x of xs) body(x)] *)
Fixpoint forM {T} `{MBind T, MRet T} {X} (xs : list X) (body : X → T unit)
  : T unit :=
  match xs with
  | [] => mret tt
  | x :: xs => body x ≫= λ _, forM xs body
  end.

(** A loop that carries local variables [a]. *)
Fixpoint foldM {X A} (xs : list X) (body : X → A → M A) (a : A) : M A :=
  match xs with
  | [] => mret a
  | x :: xs => body x a ≫= foldM xs body
  end.

(** A loop that can be left by [break]: the body returns [true] to break.
    An inner loop that returns [true] has executed [break outer]. *)
Fixpoint forBreak {X A} (xs : list X) (body : X → A → M (bool * A)) (a : A)
  : M (bool * A) :=
  match xs with
  | [] => mret (false, a)
  | x :: xs =>
      body x a ≫= λ '(brk, a), if brk : bool then mret (true, a)
                               else forBreak xs body a
  end.

(** [for (i = lo; i < hi; i++)] and [for (i = lo; i <= hi; i++)] *)
Definition range (lo hi : Z) : list Z := seqZ lo (hi - lo).
Definition range_incl (lo hi : Z) : list Z := seqZ lo (hi - lo + 1).

(** [Math.floor(a / b)] on integers *)
Definition floor_div (a b : Z) : Z := Qfloor (inject_Z a / inject_Z b).

Module HousingWorld.

Definition HEIGHT : Z := 256.
Definition CHUNK_HEIGHT_COUNT : Z := HEIGHT / Chunk.SIZE.

Definition empty : World :=
  {| chunks := ∅; dirtyChunks := []; generatedColumns := ∅ |}.

Definition chunkKey (cx cy cz : Z) : Z * Z * Z := (cx, cy, cz).
Definition columnKey (cx cz : Z) : Z * Z := (cx, cz).

Definition isColumnGenerated (cx cz : Z) : M bool := λ w,
  (bool_decide (columnKey cx cz ∈ generatedColumns w), w).

Definition markColumnGenerated (cx cz : Z) : M unit := λ w,
  (tt, {| chunks := chunks w; dirtyChunks := dirtyChunks w;
          generatedColumns := {[columnKey cx cz]} ∪ generatedColumns w |}).

Definition getChunk (cx cy cz : Z) : M (option Chunk.t) := λ w,
  (chunks w !! chunkKey cx cy cz, w).

(** The chunk object is returned as its key. *)
Definition getOrCreateChunk (cx cy cz : Z) : M (Z * Z * Z) := λ w,
  let key := chunkKey cx cy cz in
  match chunks w !! key with
  | Some _ => (key, w)
  | None =>
      (key, {| chunks := <[key := Chunk.new cx cy cz]> (chunks w);
               dirtyChunks := dirtyChunks w;
               generatedColumns := generatedColumns w |})
  end.

(** A mutation [f] of the chunk object held under [key]. *)
Definition onChunk (key : Z * Z * Z) (f : Chunk.t → Chunk.t) : M unit := λ w,
  (tt, {| chunks := alter f key (chunks w);
          dirtyChunks := dirtyChunks w;
          generatedColumns := generatedColumns w |}).

(** [this.dirtyChunks.add(chunk)] *)
Definition dirtyAdd (key : Z * Z * Z) : M unit := λ w,
  (tt, {| chunks := chunks w;
          dirtyChunks := if bool_decide (key ∈ dirtyChunks w)
                         then dirtyChunks w else dirtyChunks w ++ [key];
          generatedColumns := generatedColumns w |}).

(** [this.dirtyChunks.delete(chunk)] *)
Definition dirtyDelete (key : Z * Z * Z) : M unit := λ w,
  (tt, {| chunks := chunks w;
          dirtyChunks := filter (λ k, k ≠ key) (dirtyChunks w);
          generatedColumns := generatedColumns w |}).

(** [this.chunks.delete(key)] *)
Definition chunksDelete (key : Z * Z * Z) : M unit := λ w,
  (tt, {| chunks := delete key (chunks w);
          dirtyChunks := dirtyChunks w;
          generatedColumns := generatedColumns w |}).

Definition markDirty (chunk : Z * Z * Z) : M unit :=
  onChunk chunk (Chunk.setDirty true) ≫= λ _, dirtyAdd chunk.

Definition set (x y z block : Z) : M unit :=
  if (y <? 0) || (y >=? HEIGHT) then mret tt else
  let cx := floor_div x Chunk.SIZE in
  let cy := floor_div y Chunk.SIZE in
  let cz := floor_div z Chunk.SIZE in
  let lx := x - cx * Chunk.SIZE in
  let ly := y - cy * Chunk.SIZE in
  let lz := z - cz * Chunk.SIZE in
  chunk ← getOrCreateChunk cx cy cz;
  onChunk chunk (Chunk.setBlock lx ly lz block);;
  markDirty chunk.

Definition get (x y z : Z) : M Z :=
  if (y <? 0) || (y >=? HEIGHT) then mret 0 else
  let cx := floor_div x Chunk.SIZE in
  let cy := floor_div y Chunk.SIZE in
  let cz := floor_div z Chunk.SIZE in
  chunk ← getChunk cx cy cz;
  match chunk with
  | None => mret 0
  | Some chunk =>
      let lx := x - cx * Chunk.SIZE in
      let ly := y - cy * Chunk.SIZE in
      let lz := z - cz * Chunk.SIZE in
      mret (Chunk.getBlock lx ly lz chunk)
  end.

(** Build meshes for dirty chunks; [maxChunks = None] is [Infinity].  The
    geometry and the mesh are the renderer's. *)
Definition buildChunks (maxChunks : option Z) : M unit :=
  dirty ← (λ w, (dirtyChunks w, w));
  forBreak dirty (λ chunk built,
    onChunk chunk (Chunk.setDirty false);;
    dirtyDelete chunk;;
    let built := built + 1 in
    mret (match maxChunks with
          | Some m => built >=? m
          | None => false
          end, built)) 0;;
  mret tt.

(** Stream chunks around the player.  [generateChunk] is the method of the
    [generator] argument. *)
Definition update (playerX playerZ : Q) (generateChunk : Z → Z → M unit)
    (renderDistance maxGenPerFrame maxBuildPerFrame : Z) : M unit :=
  let pcx := Qfloor (playerX / inject_Z Chunk.SIZE) in
  let pcz := Qfloor (playerZ / inject_Z Chunk.SIZE) in
  (* Generate columns from closest ring outward *)
  forBreak (range_incl 0 renderDistance) (λ r generated,
    forBreak (range_incl (- r) r) (λ dx generated,
      forBreak (range_incl (- r) r) (λ dz generated,
        if negb (Z.abs dx =? r) && negb (Z.abs dz =? r)
        then mret (false, generated)
        else
          let cx := pcx + dx in
          let cz := pcz + dz in
          g ← isColumnGenerated cx cz;
          if negb g then
            generateChunk cx cz;;
            let generated := generated + 1 in
            mret (generated >=? maxGenPerFrame, generated)
          else mret (false, generated))
      generated) generated) 0;;
  (* Unload columns too far from the player *)
  let unloadLimit := renderDistance + 3 in
  loaded ← (λ w, (map_to_list (chunks w), w));
  forM loaded (λ '(key, chunk),
    if (Z.abs (Chunk.x chunk - pcx) >? unloadLimit)
       || (Z.abs (Chunk.z chunk - pcz) >? unloadLimit)
    then dirtyDelete key;; chunksDelete key
    else mret tt);;
  (* Build pending meshes *)
  buildChunks (Some maxBuildPerFrame).

Definition clear : M unit := λ _, (tt, empty).

End HousingWorld.

(** ** Structures *)

(** What an [IStructure] can do with its arguments: read and write blocks of
    the [world] (``set/get blocks here'') and draw from [rand]. *)
Inductive StructM (A : Type) : Type :=
| SRet (a : A)
| SGet (x y z : Z) (k : Z → StructM A)
| SSet (x y z block : Z) (k : StructM A)
| SRand (k : Q → StructM A).
Arguments SRet {A} a.
Arguments SGet {A} x y z k.
Arguments SSet {A} x y z block k.
Arguments SRand {A} k.

Fixpoint StructM_bind {A B} (k : A → StructM B) (m : StructM A) : StructM B :=
  match m with
  | SRet a => k a
  | SGet x y z k' => SGet x y z (λ b, StructM_bind k (k' b))
  | SSet x y z b k' => SSet x y z b (StructM_bind k k')
  | SRand k' => SRand (λ r, StructM_bind k (k' r))
  end.

#[export] Instance StructM_ret : MRet StructM := @SRet.
#[export] Instance StructM_mbind : MBind StructM := @StructM_bind.

Definition world_get (x y z : Z) : StructM Z := SGet x y z SRet.
Definition world_set (x y z block : Z) : StructM unit := SSet x y z block (SRet tt).
Definition rand : StructM Q := SRand SRet.

(** [structure.generate(world, x, y, z, rand)] on the store, with [rand] a
    [mulberry32] closure whose captured seed is [seed]; the seed left in the
    closure is returned. *)
Fixpoint run {A} (p : StructM A) (seed : Z) : M (A * Z) :=
  match p with
  | SRet a => mret (a, seed)
  | SGet x y z k => b ← HousingWorld.get x y z; run (k b) seed
  | SSet x y z b k => HousingWorld.set x y z b;; run k seed
  | SRand k => let '(r, seed) := mulberry32 seed in run (k r) seed
  end.

(** [generate(world, x, y, z, rand)] *)
Definition IStructure : Type := Z → Z → Z → StructM unit.

Module OakTree.

Definition OAK_LOG : Z := 26.
Definition OAK_LEAVES : Z := 30.
Definition AIR : Z := 0.

(** Two wide leaf layers (radius 2) then a narrow top layer (radius 1). *)
Definition leafLayers (x z leafBase : Z) : StructM unit :=
  forM (range_incl (-1) 1) (λ dy,
    let radius := if dy =? 1 then 1 else 2 in
    forM (range_incl (- radius) radius) (λ dx,
      forM (range_incl (- radius) radius) (λ dz,
        (* Clip corners for a rounder look *)
        if (Z.abs dx =? radius) && (Z.abs dz =? radius) then mret tt else
        let lx := x + dx in
        let ly := leafBase + dy in
        let lz := z + dz in
        b ← world_get lx ly lz;
        if b =? AIR then world_set lx ly lz OAK_LEAVES else mret tt))).

Definition generate : IStructure := λ x y z,
  r ← rand;
  let height := 4 + Qfloor (r * 3) in
  (* Trunk *)
  forM (range 0 height) (λ i, world_set x (y + i) z OAK_LOG);;
  let leafBase := y + height in
  leafLayers x z leafBase;;
  (* Single cap leaf *)
  world_set x (leafBase + 2) z OAK_LEAVES.

End OakTree.

(** ** The world generator *)

Record StructureEntry := {
  structure : IStructure;
  attemptsPerChunk : Z
}.

Record WorldGenOptions := {
  opt_seed : option Z;
  opt_seaLevel : option Z;
  opt_minHeight : option Z;
  opt_maxHeight : option Z;
  opt_structures : option (list StructureEntry)
}.

Module WorldGenerator.

Record t := {
  seed : Z;
  noise : ValueNoise.t;
  seaLevel : Z;
  minHeight : Z;
  maxHeight : Z;
  structures : list StructureEntry
}.

(** [new WorldGenerator(options)] *)
Definition new (options : WorldGenOptions) : t :=
  let seed := default 12345 (opt_seed options) in
  {| seed := seed;
     noise := ValueNoise.new seed;
     seaLevel := default 62 (opt_seaLevel options);
     minHeight := default 48 (opt_minHeight options);
     maxHeight := default 96 (opt_maxHeight options);
     structures := default
       [ {| structure := OakTree.generate; attemptsPerChunk := 3 |} ]
       (opt_structures options) |}.

Definition addStructure (entry : StructureEntry) (g : t) : t :=
  {| seed := seed g; noise := noise g; seaLevel := seaLevel g;
     minHeight := minHeight g; maxHeight := maxHeight g;
     structures := structures g ++ [entry] |}.

(** The rounding of [getSurfaceY], given the noise value [n]. *)
Definition surfaceOf (g : t) (n : Q) : Z :=
  js_round (inject_Z (minHeight g)
            + n * (inject_Z (maxHeight g) - inject_Z (minHeight g)))%Q.

(** Sample the terrain height (Y) at a world XZ coordinate; [None] when
    the noise is not a number. *)
Definition getSurfaceY (g : t) (wx wz : Z) : option Z :=
  n ← ValueNoise.octave (noise g) (inject_Z wx) (inject_Z wz) 6 0.5 0.004;
  Some (surfaceOf g n).

Definition cs : Z := 32.
Definition numCY : Z := 8.

(** [heights[i] = h] on an [Int32Array]: the value is wrapped to 32 bits,
    and what is not a number is stored as 0. *)
Definition int32_store (h : option Z) : Z :=
  match h with Some h => to_int32 h | None => 0 end.

(** The body of the heightmap loops: the state is the [Int32Array] of
    heights and the running maximum. *)
Definition heightmap_step (g : t) (wx0 wz0 lx : Z) (st : list Z * Z) (lz : Z)
  : list Z * Z :=
  let '(heights, maxHeight) := st in
  let h := getSurfaceY g (wx0 + lx) (wz0 + lz) in
  let i := lx * cs + lz in
  let heights :=
    if 0 <=? i then <[Z.to_nat i := int32_store h]> heights else heights in
  let maxHeight :=
    match h with
    | Some h => if h >? maxHeight then h else maxHeight
    | None => maxHeight
    end in
  (heights, maxHeight).

Definition heightmap (g : t) (wx0 wz0 : Z) : list Z * Z :=
  foldl (λ st lx, foldl (heightmap_step g wx0 wz0 lx) st (range 0 cs))
    (replicate (Z.to_nat (cs * cs)) 0, 0) (range 0 cs).

(** [heights[i]]; an [undefined] read compares false with everything and
    is never produced here. *)
Definition heightAt (heights : list Z) (lx lz : Z) : Z :=
  let i := lx * cs + lz in
  default 0 (if 0 <=? i then heights !! Z.to_nat i else None).

(** The block of the terrain fill at height [wy] of a column. *)
Definition terrainBlock (g : t) (surfaceY wy : Z) : Z :=
  let isBeach := surfaceY <=? seaLevel g + 2 in
  if wy =? 0 then BLK.BEDROCK
  else if wy <? surfaceY - 4 then BLK.STONE
  else if wy <? surfaceY then (if isBeach then BLK.SAND else BLK.DIRT)
  else (if isBeach then BLK.SAND else BLK.GRASS).

(** The terrain loop: chunk layers of the column, written directly into
    the chunk buffers. *)
Definition generateTerrain (g : t) (chunkX chunkZ : Z)
    (heights : list Z) (maxHeight : Z) : M unit :=
  forM (range 0 numCY) (λ cy,
    let cyMin := cy * cs in
    let cyMax := cyMin + cs in
    if cyMin >? maxHeight then mret tt else
    chunk ← HousingWorld.getOrCreateChunk chunkX cy chunkZ;
    forM (range 0 cs) (λ lx,
      forM (range 0 cs) (λ lz,
        let surfaceY := heightAt heights lx lz in
        if surfaceY <? cyMin then mret tt else
        let fillTop := Z.min surfaceY (cyMax - 1) in
        forM (range_incl cyMin fillTop) (λ wy,
          let ly := wy - cyMin in
          let block := terrainBlock g surfaceY wy in
          HousingWorld.onChunk chunk
            (Chunk.write ((lx * cs + ly) * cs + lz) block))));;
    HousingWorld.markDirty chunk).

(** The structure loop; the local variable is the seed captured by
    [chunkRand]. *)
Definition generateStructures (g : t) (chunkX chunkZ : Z)
    (heights : list Z) : M Z :=
  let wx0 := chunkX * cs in
  let wz0 := chunkZ * cs in
  foldM (structures g) (λ entry chunkRand,
    foldM (range 0 (attemptsPerChunk entry)) (λ attempt chunkRand,
      let '(r, chunkRand) := mulberry32 chunkRand in
      let lx := Qfloor (r * inject_Z cs) in
      let '(r, chunkRand) := mulberry32 chunkRand in
      let lz := Qfloor (r * inject_Z cs) in
      let wx := wx0 + lx in
      let wz := wz0 + lz in
      let surfaceY := heightAt heights lx lz in
      let isBeach := surfaceY <=? seaLevel g + 2 in
      if negb isBeach then
        '(_, chunkRand) ← run (structure entry wx (surfaceY + 1) wz) chunkRand;
        mret chunkRand
      else mret chunkRand) chunkRand)
    (hashCoords (seed g) chunkX chunkZ).

(** Generate terrain + structures for one chunk column. *)
Definition generateChunk (g : t) (chunkX chunkZ : Z) : M unit :=
  generated ← HousingWorld.isColumnGenerated chunkX chunkZ;
  if generated : bool then mret tt else
  HousingWorld.markColumnGenerated chunkX chunkZ;;
  let wx0 := chunkX * cs in
  let wz0 := chunkZ * cs in
  let '(heights, maxHeight) := heightmap g wx0 wz0 in
  generateTerrain g chunkX chunkZ heights maxHeight;;
  generateStructures g chunkX chunkZ heights;;
  mret tt.

End WorldGenerator.

(** ** The noise and the surface height on IEEE-754 doubles

    The functions of the noise field as JavaScript evaluates them: every
    arithmetic operation is the binary64 operation, rounded to nearest.
    The permutation table is the one of [ValueNoise.new]: its construction
    only meets numbers that doubles represent exactly. *)

Module Binary64.

(** The value of a double that is a finite number; [None] for [NaN] and
    the infinities. *)
Definition exact (x : float) : option Q :=
  match Prim2SF x with
  | S754_zero _ => Some 0%Q
  | S754_finite s m e =>
      let q := (inject_Z (Zpos m) * 2 ^ e)%Q in
      Some (if s then - q else q)%Q
  | _ => None
  end.

(** The double of an integer literal or integer-valued field: the nearest
    double, the integer itself up to 2^53. *)
Definition of_Z (z : Z) : float :=
  SF2Prim (binary_normalize prec emax z 0 false).

(** [Math.floor(x)] *)
Definition floor (x : float) : float :=
  match exact x with
  | Some q => if Qeq_bool q 0 then x else of_Z (Qfloor q)
  | None => x
  end.

(** [Math.round(x)], as an integer: the nearest integer, a tie going up;
    [None] when [x] is [NaN] or infinite, and the result is [x] itself. *)
Definition round (x : float) : option Z := js_round <$> exact x.

(** The conversion [ToInt32] of the bitwise operators: truncate, then wrap
    to 32 bits; what is not a finite number converts to 0. *)
Definition toInt32 (x : float) : Z :=
  match exact x with
  | Some q => to_int32 (Z.quot (Qnum q) (Zpos (Qden q)))
  | None => 0
  end.

(** [a & b] *)
Definition band (a : float) (b : Z) : Z := Z.land (toInt32 a) (to_int32 b).

(** A table entry as a number; [undefined] is [NaN] in arithmetic. *)
Definition num (v : option Z) : float :=
  match v with Some v => of_Z v | None => nan end.

Definition fade (t : float) : float :=
  (t * t * t * (t * (t * 6 - 15) + 10))%float.

Definition lerp (a b t : float) : float := (a + t * (b - a))%float.

(** Smooth value noise. *)
Definition sample (n : ValueNoise.t) (x z : float) : float :=
  let xi := band (floor x) 255 in
  let zi := band (floor z) 255 in
  let xf := (x - floor x)%float in
  let zf := (z - floor z)%float in
  let u := fade xf in
  let v := fade zf in
  let pa := ValueNoise.at_ n xi in
  let pb := ValueNoise.at_ n (xi + 1) in
  let aa := (num (p ← pa; ValueNoise.at_ n (p + zi)) / 255)%float in
  let ba := (num (p ← pb; ValueNoise.at_ n (p + zi)) / 255)%float in
  let ab := (num (p ← pa; ValueNoise.at_ n (p + zi + 1)) / 255)%float in
  let bb := (num (p ← pb; ValueNoise.at_ n (p + zi + 1)) / 255)%float in
  lerp (lerp aa ba u) (lerp ab bb u) v.

(** The loop variables of [octave]. *)
Record acc := { value : float; amplitude : float; frequency : float;
                maxValue : float }.

Definition octave_step (n : ValueNoise.t) (x z persistence : float) (a : acc)
  : acc :=
  {| value := value a + sample n (x * frequency a) (z * frequency a)
                        * amplitude a;
     maxValue := maxValue a + amplitude a;
     amplitude := amplitude a * persistence;
     frequency := frequency a * 2 |}%float.

(** Fractal octave noise: [value / maxValue]. *)
Definition octave (n : ValueNoise.t) (x z : float) (octaves : Z)
    (persistence scale : float) : float :=
  let a := Nat.iter (Z.to_nat octaves) (octave_step n x z persistence)
             {| value := 0; amplitude := 1; frequency := scale;
                maxValue := 0 |}%float in
  (value a / maxValue a)%float.

(** The scale [0.004] of [getSurfaceY]: the double nearest to it. *)
Definition scale : float := 0x1.0624dd2f1a9fcp-8%float.

(** Sample the terrain height (Y) at a world XZ coordinate. *)
Definition getSurfaceY (g : WorldGenerator.t) (wx wz : float) : option Z :=
  let n := octave (WorldGenerator.noise g) wx wz 6 0.5 scale in
  round (of_Z (WorldGenerator.minHeight g)
         + n * (of_Z (WorldGenerator.maxHeight g)
                - of_Z (WorldGenerator.minHeight g)))%float.

End Binary64.

(** ** Stores that the operations can produce *)

(** A chunk is held under the key of its coordinates and owns a full
    buffer. *)
Definition chunk_ok (key : Z * Z * Z) (c : Chunk.t) : Prop :=
  (Chunk.x c, Chunk.y c, Chunk.z c) = key
  ∧ length (Chunk.blocks c) = Chunk.VOLUME.

(** The invariant of the store: chunks are well formed, and the dirty set
    holds loaded chunks only, each once. *)
Definition wf (w : World) : Prop :=
  map_Forall chunk_ok (chunks w)
  ∧ (∀ k, k ∈ dirtyChunks w → k ∈ dom (chunks w))
  ∧ NoDup (dirtyChunks w).

(** ** A Hoare logic for the store monad *)

Definition hoare {A} (P : World → Prop) (m : M A) (Q : A → World → Prop)
  : Prop :=
  ∀ w, P w → Q (m w).1 (m w).2.

(** The block that [get] reads in the chunk under [key] at buffer index
    [i]. *)
Definition blockAt (w : World) (key : Z * Z * Z) (i : Z) : Z :=
  match chunks w !! key with
  | Some c => default 0 (Chunk.read i c)
  | None => 0
  end.

(** The generator holds the noise field of its seed, as every generator
    made by [new] does and [addStructure] keeps. *)
Definition constructed (g : WorldGenerator.t) : Prop :=
  WorldGenerator.noise g = ValueNoise.new (WorldGenerator.seed g).

(** The entry of the heightmap of chunk column [(chunkX, chunkZ)] for the
    local position [(lx, lz)]. *)
Definition columnSurface (g : WorldGenerator.t) (chunkX chunkZ lx lz : Z) : Z :=
  WorldGenerator.heightAt
    (WorldGenerator.heightmap g (chunkX * WorldGenerator.cs)
       (chunkZ * WorldGenerator.cs)).1 lx lz.

(** The store after the heightmap and terrain loops of [generateChunk]. *)
Definition afterTerrain (g : WorldGenerator.t) (chunkX chunkZ : Z) (w : World)
  : World :=
  let hm := WorldGenerator.heightmap g (chunkX * WorldGenerator.cs)
              (chunkZ * WorldGenerator.cs) in
  exec (WorldGenerator.generateTerrain g chunkX chunkZ hm.1 hm.2) w.

(** The layering rule of the specification with each clause read on its
    own, whatever the other clauses say, for every surface height. *)
Definition layering_literal : Prop :=
  ∀ (g : WorldGenerator.t) (w : World) (chunkX chunkZ lx lz Y surface : Z),
    wf w → 0 ≤ lx < 32 → 0 ≤ lz < 32 → 0 ≤ Y < 256 →
    let x := chunkX * 32 + lx in
    let z := chunkZ * 32 + lz in
    WorldGenerator.getSurfaceY g x z = Some surface →
    let isBeach := surface <=? WorldGenerator.seaLevel g + 2 in
    let after := eval (HousingWorld.get x Y z) (afterTerrain g chunkX chunkZ w) in
    (Y ≤ surface →
       (Y = 0 → after = BLK.BEDROCK)
       ∧ (0 < Y < surface - 4 → after = BLK.STONE)
       ∧ (surface - 4 ≤ Y < surface →
            after = if isBeach then BLK.SAND else BLK.DIRT)
       ∧ (Y = surface → after = if isBeach then BLK.SAND else BLK.GRASS))
    ∧ (surface < Y → after = eval (HousingWorld.get x Y z) w).

(** A generator of flat terrain at height 3. *)
Definition flat3 : WorldGenerator.t :=
  WorldGenerator.new {| opt_seed := None; opt_seaLevel := None;
                        opt_minHeight := Some 3; opt_maxHeight := Some 3;
                        opt_structures := None |}.

(** A generator of flat terrain at height 2^31 + 5, which an [Int32Array]
    does not hold. *)
Definition towering : WorldGenerator.t :=
  WorldGenerator.new {| opt_seed := None; opt_seaLevel := None;
                        opt_minHeight := Some (2 ^ 31 + 5);
                        opt_maxHeight := Some (2 ^ 31 + 5);
                        opt_structures := None |}.

(** ** Streaming *)

(** The chunk column of the player. *)
Definition playerColumn (playerX playerZ : Q) : Z * Z :=
  (Qfloor (playerX / inject_Z Chunk.SIZE), Qfloor (playerZ / inject_Z Chunk.SIZE)).

(** The ring radius of a column around the player's column. *)
Definition chebyshev (p c : Z * Z) : Z :=
  Z.max (Z.abs (c.1 - p.1)) (Z.abs (c.2 - p.2)).

(** The column of a chunk key. *)
Definition columnOf (k : Z * Z * Z) : Z * Z := (k.1.1, k.2).

(** The first result of [f] along a list. *)
Fixpoint first_some {X Y} (f : X → option Y) (xs : list X) : option Y :=
  match xs with
  | [] => None
  | x :: xs => match f x with Some y => Some y | None => first_some f xs end
  end.

(** The column that one pass of the ring loop of [update] generates when
    its budget is one: the first ring-edge cell, rings outward, that is not
    generated. *)
Definition ringCell (w : World) (p : Z * Z) (r dx dz : Z) : option (Z * Z) :=
  if negb (Z.abs dx =? r) && negb (Z.abs dz =? r) then None
  else if bool_decide ((p.1 + dx, p.2 + dz) ∈ generatedColumns w) then None
  else Some (p.1 + dx, p.2 + dz).

Definition firstMissing (w : World) (p : Z * Z) (renderDistance : Z)
  : option (Z * Z) :=
  first_some (λ r,
    first_some (λ dx,
      first_some (ringCell w p r dx) (range_incl (- r) r))
      (range_incl (- r) r))
    (range_incl 0 renderDistance).

(** The generator of the default options. *)
Definition defaultOptions : WorldGenOptions :=
  {| opt_seed := None; opt_seaLevel := None; opt_minHeight := None;
     opt_maxHeight := None; opt_structures := None |}.

(** A store with one stone block, where the cap leaf of a tree planted at
    [(0, 4, 0)] from the seed 12345 will go. *)
Definition stoneAtCap : World :=
  exec (HousingWorld.set 0 12 0 BLK.STONE) HousingWorld.empty.

(** A store with two loaded chunks, at columns (2, 0) and (6, 0). *)
Definition twoChunks : World :=
  exec (HousingWorld.set 200 0 0 BLK.STONE)
    (exec (HousingWorld.set 64 0 0 BLK.STONE) HousingWorld.empty).

(** ** Invariants and auxiliary notions of the proofs *)

(** The entries of the permutation table are bytes. *)
Definition byte_table (l : list Z) : Prop := Forall (λ v, 0 ≤ v ≤ 255) l.

(** The loop invariant of [octave] for a non-negative persistence. *)
Definition octave_inv (i : nat) (a : ValueNoise.acc) : Prop :=
  (0 <= ValueNoise.amplitude a
   ∧ 0 <= ValueNoise.value a <= ValueNoise.maxValue a)%Q
  ∧ ((0 < i)%nat → (1 <= ValueNoise.maxValue a)%Q).

(** A mutation of a chunk object that keeps its coordinates and the size of
    its buffer. *)
Definition chunk_fn_ok (f : Chunk.t → Chunk.t) : Prop :=
  ∀ c, Chunk.x (f c) = Chunk.x c ∧ Chunk.y (f c) = Chunk.y c
       ∧ Chunk.z (f c) = Chunk.z c
       ∧ length (Chunk.blocks (f c)) = length (Chunk.blocks c).

(** The set of generated columns is [G]. *)
Definition gen_is (G : gset (Z * Z)) (_ : gset (Z * Z * Z)) (w : World) : Prop :=
  generatedColumns w = G.

(** The store is well formed and the chunks of [D] are loaded. *)
Definition loaded_inv (D : gset (Z * Z * Z)) (w : World) : Prop :=
  wf w ∧ D ⊆ dom (chunks w).

(** The store is well formed, the chunks of [D] are loaded, and the cell at
    index [i0] of the chunk under [k0] holds [v]. *)
Definition cell (k0 : Z * Z * Z) (i0 : Z) (v : Z) (D : gset (Z * Z * Z))
    (w : World) : Prop :=
  loaded_inv D w ∧ blockAt w k0 i0 = v.

(** The two halves of [update], named: the ring loop, for a budget of
    [maxGenPerFrame], and what follows it. *)
Definition ringLoop (generateChunk : Z → Z → M unit) (p : Z * Z)
  (renderDistance maxGenPerFrame : Z) : M (bool * Z) :=
  forBreak (range_incl 0 renderDistance) (λ r generated,
    forBreak (range_incl (- r) r) (λ dx generated,
      forBreak (range_incl (- r) r) (λ dz generated,
        if negb (Z.abs dx =? r) && negb (Z.abs dz =? r)
        then mret (false, generated)
        else
          let cx := p.1 + dx in
          let cz := p.2 + dz in
          g ← HousingWorld.isColumnGenerated cx cz;
          if negb g then
            generateChunk cx cz;;
            let generated := generated + 1 in
            mret (generated >=? maxGenPerFrame, generated)
          else mret (false, generated))
      generated) generated) 0.

(** The test of the unload loop. *)
Definition tooFar (p : Z * Z) (unloadLimit : Z) (chunk : Chunk.t) : bool :=
  (Z.abs (Chunk.x chunk - p.1) >? unloadLimit)
  || (Z.abs (Chunk.z chunk - p.2) >? unloadLimit).

(** The unload loop over the entries [loaded] of the chunk map. *)
Definition unloadLoop (p : Z * Z) (unloadLimit : Z)
    (loaded : list (Z * Z * Z * Chunk.t)) : M unit :=
  forM loaded (λ '(key, chunk),
    if tooFar p unloadLimit chunk
    then HousingWorld.dirtyDelete key;; HousingWorld.chunksDelete key
    else mret tt).

(** What [update] does after the ring loop. *)
Definition unloadAndBuild (p : Z * Z) (renderDistance maxBuildPerFrame : Z)
  : M unit :=
  loaded ← (λ w, (map_to_list (chunks w), w));
  unloadLoop p (renderDistance + 3) loaded;;
  HousingWorld.buildChunks (Some maxBuildPerFrame).

(** Invariants of the unload and build loops, which only lose chunks and
    dirty marks: the loaded chunks stay within [D], and the dirty chunks
    are loaded. *)
Definition shrinking (D : gset (Z * Z * Z)) (w : World) : Prop :=
  dom (chunks w) ⊆ D ∧ ∀ k, k ∈ dirtyChunks w → k ∈ dom (chunks w).

(** ** Notions of the further properties *)

(** The store is well formed and the cell at world position [(x, y, z)]
    holds [v]. *)
Definition cellAt (x y z v : Z) (w : World) : Prop :=
  cell (x / 32, y / 32, z / 32)
    (Chunk.index (x mod 32) (y mod 32) (z mod 32)) v ∅ w.

(** The trunk height of an oak tree whose generator draws from [seed]. *)
Definition trunkHeight (seed : Z) : Z := 4 + Qfloor ((mulberry32 seed).1 * 3).

(** A generator of flat terrain at height 70, above the beach level, with
    the default catalog of structures. *)
Definition plateau : WorldGenerator.t :=
  WorldGenerator.new {| opt_seed := None; opt_seaLevel := None;
                        opt_minHeight := Some 70; opt_maxHeight := Some 70;
                        opt_structures := None |}.

(** The columns within [renderDistance] of the column [p]. *)
Definition inRange (p : Z * Z) (renderDistance : Z) : gset (Z * Z) :=
  list_to_set
    (list_prod (range_incl (p.1 - renderDistance) (p.1 + renderDistance))
       (range_incl (p.2 - renderDistance) (p.2 + renderDistance))).

Section hoare_rules.
Implicit Types (P : World → Prop).

Lemma hoare_ret {A} P (a : A) (Q : A → World → Prop) :
  (∀ w, P w → Q a w) → hoare P (mret a) Q.
Proof. intros H w Hw. by apply H. Qed.

Lemma hoare_bind {A B} P (m : M A) (k : A → M B) R (Q : B → World → Prop) :
  hoare P m R → (∀ a, hoare (R a) (k a) Q) → hoare P (m ≫= k) Q.
Proof.
  intros Hm Hk w Hw. unfold mbind, M_bind.
  specialize (Hm w Hw). destruct (m w) as [a w']. by apply Hk.
Qed.

Lemma hoare_conseq {A} P P' (m : M A) (Q Q' : A → World → Prop) :
  hoare P' m Q' → (∀ w, P w → P' w) → (∀ a w, Q' a w → Q a w) →
  hoare P m Q.
Proof. intros H HP HQ w Hw. by apply HQ, H, HP. Qed.

Lemma hoare_forM_frame {X} P (xs : list X) (body : X → M unit) :
  (∀ x, x ∈ xs → hoare P (body x) (λ _, P)) →
  hoare P (forM xs body) (λ _, P).
Proof.
  induction xs as [|x xs IH]; intros H; simpl.
  - by apply hoare_ret.
  - eapply hoare_bind; [apply H; left|]. intros ?. apply IH.
    intros y Hy. apply H. by right.
Qed.

Lemma hoare_forM_one {X} P Q (xs : list X) (x0 : X) (body : X → M unit) :
  NoDup xs → x0 ∈ xs →
  (∀ x, x ∈ xs → x ≠ x0 → hoare P (body x) (λ _, P)) →
  (∀ x, x ∈ xs → x ≠ x0 → hoare Q (body x) (λ _, Q)) →
  hoare P (body x0) (λ _, Q) →
  hoare P (forM xs body) (λ _, Q).
Proof.
  intros Hnd Hin HP HQ H0.
  induction xs as [|x xs IH]; [by apply elem_of_nil in Hin|].
  apply NoDup_cons in Hnd as [Hx Hnd]. simpl.
  destruct (elem_of_cons xs x0 x) as [[->|Hin'] _]; [done| |].
  - eapply hoare_bind; [apply H0|]. intros ?.
    apply hoare_forM_frame. intros y Hy. apply HQ; [by right|].
    intros ->. done.
  - eapply hoare_bind; [apply HP; [left|]|].
    + intros ->. done.
    + intros ?. apply IH; auto.
      * intros y Hy. apply HP. by right.
      * intros y Hy. apply HQ. by right.
Qed.

Lemma hoare_foldM_frame {X A} P (xs : list X) (body : X → A → M A) (a : A) :
  (∀ x a, x ∈ xs → hoare P (body x a) (λ _, P)) →
  hoare P (foldM xs body a) (λ _, P).
Proof.
  revert a. induction xs as [|x xs IH]; intros a H; simpl.
  - by apply hoare_ret.
  - eapply hoare_bind; [apply H; left|]. intros a'. apply IH.
    intros y b Hy. apply H. by right.
Qed.

Lemma hoare_forBreak_frame {X A} P (xs : list X) (body : X → A → M (bool * A)) (a : A) :
  (∀ x a, x ∈ xs → hoare P (body x a) (λ _, P)) →
  hoare P (forBreak xs body a) (λ _, P).
Proof.
  revert a. induction xs as [|x xs IH]; intros a H; simpl.
  - by apply hoare_ret.
  - eapply hoare_bind; [apply H; left|]. intros [[] a'].
    + by apply hoare_ret.
    + apply IH. intros y b Hy. apply H. by right.
Qed.
End hoare_rules.

Lemma chunk_fn_ok_write (i b : Z) : chunk_fn_ok (Chunk.write i b).
Proof.
  intros c. unfold Chunk.write. simpl. repeat split.
  destruct (0 <=? i); [apply length_insert | done].
Qed.

Lemma chunk_fn_ok_setBlock (lx ly lz b : Z) : chunk_fn_ok (Chunk.setBlock lx ly lz b).
Proof. apply chunk_fn_ok_write. Qed.

Lemma chunk_fn_ok_setDirty (d : bool) : chunk_fn_ok (Chunk.setDirty d).
Proof. intros c. by unfold Chunk.setDirty. Qed.

Lemma get_state (x y z : Z) (w : World) : (HousingWorld.get x y z w).2 = w.
Proof.
  unfold HousingWorld.get. destruct ((y <? 0) || (y >=? HousingWorld.HEIGHT)); [done|].
  unfold mbind, M_bind, HousingWorld.getChunk.
  by destruct (chunks w !! _).
Qed.

Lemma hoare_get (P : World → Prop) (x y z : Z) :
  hoare P (HousingWorld.get x y z) (λ _, P).
Proof. intros w Hw. by rewrite get_state. Qed.

(** Invariants [I D] of the store, [D] a set of keys known to be loaded,
    that the primitive mutations of generation keep. *)
Section frame.
Variable I : gset (Z * Z * Z) → World → Prop.
Hypothesis I_mono : ∀ D D' w, D ⊆ D' → I D' w → I D w.
Hypothesis I_create : ∀ D cx cy cz,
  hoare (I D) (HousingWorld.getOrCreateChunk cx cy cz)
    (λ k w, k = (cx, cy, cz) ∧ I ({[k]} ∪ D) w).
Hypothesis I_onChunk : ∀ D k f,
  chunk_fn_ok f → hoare (I D) (HousingWorld.onChunk k f) (λ _, I D).
Hypothesis I_dirtyAdd : ∀ D k,
  k ∈ D → hoare (I D) (HousingWorld.dirtyAdd k) (λ _, I D).

Lemma frame_markDirty D k :
  k ∈ D → hoare (I D) (HousingWorld.markDirty k) (λ _, I D).
Proof.
  intros Hk. eapply hoare_bind.
  - apply I_onChunk, chunk_fn_ok_setDirty.
  - intros ?. by apply I_dirtyAdd.
Qed.

Lemma frame_set D x y z b : hoare (I D) (HousingWorld.set x y z b) (λ _, I D).
Proof.
  unfold HousingWorld.set.
  destruct ((y <? 0) || (y >=? HousingWorld.HEIGHT)); [by apply hoare_ret|].
  eapply hoare_bind; [apply I_create|]. intros k. cbv beta.
  eapply hoare_conseq with (P' := I ({[k]} ∪ D)) (Q' := λ _, I ({[k]} ∪ D)).
  - eapply hoare_bind; [apply I_onChunk, chunk_fn_ok_setBlock|].
    intros ?. apply frame_markDirty. set_solver.
  - by intros w [_ Hw].
  - intros _ w. apply I_mono. set_solver.
Qed.

Lemma frame_run {A} D (p : StructM A) seed :
  hoare (I D) (run p seed) (λ _, I D).
Proof.
  revert seed. induction p as [a|x y z k IH|x y z b k IH|k IH]; intros seed; simpl.
  - by apply hoare_ret.
  - eapply hoare_bind; [apply hoare_get|]. intros b. apply IH.
  - eapply hoare_bind; [apply frame_set|]. intros ?. apply IH.
  - destruct (mulberry32 seed) as [r s]. apply IH.
Qed.

Lemma frame_generateTerrain D g chunkX chunkZ heights maxHeight :
  hoare (I D) (WorldGenerator.generateTerrain g chunkX chunkZ heights maxHeight)
    (λ _, I D).
Proof.
  apply hoare_forM_frame. intros cy _. cbv zeta.
  destruct (cy * WorldGenerator.cs >? maxHeight); [by apply hoare_ret|].
  eapply hoare_bind; [apply I_create|]. intros k. cbv beta.
  eapply hoare_conseq with (P' := I ({[k]} ∪ D)) (Q' := λ _, I ({[k]} ∪ D)).
  - eapply hoare_bind; [|intros ?; apply frame_markDirty; set_solver].
    apply hoare_forM_frame. intros lx _. apply hoare_forM_frame. intros lz _.
    cbv zeta. destruct (_ <? _); [by apply hoare_ret|].
    apply hoare_forM_frame. intros wy _. apply I_onChunk, chunk_fn_ok_write.
  - by intros w [_ Hw].
  - intros _ w. apply I_mono. set_solver.
Qed.

Lemma frame_generateStructures D g chunkX chunkZ heights :
  hoare (I D) (WorldGenerator.generateStructures g chunkX chunkZ heights)
    (λ _, I D).
Proof.
  apply hoare_foldM_frame. intros entry s _.
  apply hoare_foldM_frame. intros attempt s' _.
  destruct (mulberry32 s') as [r1 s1]. destruct (mulberry32 s1) as [r2 s2].
  cbv zeta.
  destruct (negb _); [|by apply hoare_ret].
  eapply hoare_bind; [apply frame_run|]. intros [[] s3]. by apply hoare_ret.
Qed.

(** What [generateChunk] does once the column is marked. *)
Lemma frame_generate_marked D g chunkX chunkZ :
  hoare (I D)
    (let '(heights, maxHeight) :=
       WorldGenerator.heightmap g (chunkX * WorldGenerator.cs)
         (chunkZ * WorldGenerator.cs) in
     WorldGenerator.generateTerrain g chunkX chunkZ heights maxHeight;;
     WorldGenerator.generateStructures g chunkX chunkZ heights;;
     mret tt)
    (λ _, I D).
Proof.
  destruct (WorldGenerator.heightmap _ _ _) as [heights maxHeight].
  eapply hoare_bind; [apply frame_generateTerrain|]. intros ?.
  eapply hoare_bind; [apply frame_generateStructures|]. intros ?.
  by apply hoare_ret.
Qed.
End frame.

(** *** The set of generated columns *)

Lemma gen_is_generate_marked G g chunkX chunkZ :
  hoare (gen_is G ∅)
    (let '(heights, maxHeight) :=
       WorldGenerator.heightmap g (chunkX * WorldGenerator.cs)
         (chunkZ * WorldGenerator.cs) in
     WorldGenerator.generateTerrain g chunkX chunkZ heights maxHeight;;
     WorldGenerator.generateStructures g chunkX chunkZ heights;;
     mret tt)
    (λ _, gen_is G ∅).
Proof.
  apply (frame_generate_marked (gen_is G)); unfold gen_is.
  - done.
  - intros D cx cy cz w Hw. unfold HousingWorld.getOrCreateChunk.
    by destruct (chunks w !! _).
  - by intros D k f ? w Hw.
  - by intros D k ? w Hw.
Qed.

Lemma generateChunk_generated G g chunkX chunkZ :
  hoare (λ w, generatedColumns w = G) (WorldGenerator.generateChunk g chunkX chunkZ)
    (λ _ w, generatedColumns w = {[(chunkX, chunkZ)]} ∪ G).
Proof.
  unfold WorldGenerator.generateChunk.
  eapply hoare_bind with
    (R := λ b w, generatedColumns w = G ∧ b = bool_decide ((chunkX, chunkZ) ∈ G)).
  { intros w Hw. simpl. by rewrite Hw. }
  intros [|].
  - apply hoare_ret. intros w [Hw Hb]. symmetry in Hb.
    apply bool_decide_eq_true in Hb. set_solver.
  - eapply hoare_bind with (R := λ _, gen_is ({[(chunkX, chunkZ)]} ∪ G) ∅).
    + intros w [Hw _]. unfold gen_is. simpl. by rewrite Hw.
    + intros ?. apply gen_is_generate_marked.
Qed.

(** *** Well-formedness and the loaded chunks *)

Lemma chunk_ok_new cx cy cz : chunk_ok (cx, cy, cz) (Chunk.new cx cy cz).
Proof. split; [done|]. apply length_replicate. Qed.

Lemma loaded_inv_create D cx cy cz :
  hoare (loaded_inv D) (HousingWorld.getOrCreateChunk cx cy cz)
    (λ k w, k = (cx, cy, cz) ∧ loaded_inv ({[k]} ∪ D) w).
Proof.
  intros w [(Hc & Hd & Hn) HD]. unfold HousingWorld.getOrCreateChunk.
  change (HousingWorld.chunkKey cx cy cz) with (cx, cy, cz).
  destruct (chunks w !! (cx, cy, cz)) as [c|] eqn:E; simpl.
  - split; [done|]. split; [done|].
    apply union_subseteq. split; [|done].
    apply singleton_subseteq_l, elem_of_dom. eauto.
  - split; [done|]. split; [split; [|split]|]; simpl.
    + apply map_Forall_insert_2; [apply chunk_ok_new | done].
    + intros k Hk. rewrite dom_insert_L. set_solver.
    + done.
    + rewrite dom_insert_L. set_solver.
Qed.

Lemma loaded_inv_onChunk D k f :
  chunk_fn_ok f → hoare (loaded_inv D) (HousingWorld.onChunk k f) (λ _, loaded_inv D).
Proof.
  intros Hf w [(Hc & Hd & Hn) HD]. unfold HousingWorld.onChunk, loaded_inv, wf. simpl.
  assert (dom (alter f k (chunks w)) = dom (chunks w)) as Hdom
    by (apply set_eq; intros j; rewrite !elem_of_dom, lookup_alter_is_Some; done).
  rewrite Hdom. split; [split|]; [|done..].
  intros j c Hj. rewrite lookup_alter in Hj. case_decide as Hjk.
  - subst. destruct (chunks w !! j) as [c0|] eqn:E; simplify_eq/=.
    destruct (Hc _ _ E) as [Hco Hlen]. destruct (Hf c0) as (Hx & Hy & Hz & Hl).
    split; [rewrite Hx, Hy, Hz | rewrite Hl]; done.
  - by apply Hc.
Qed.

Lemma loaded_inv_dirtyAdd D k :
  k ∈ D → hoare (loaded_inv D) (HousingWorld.dirtyAdd k) (λ _, loaded_inv D).
Proof.
  intros Hk w [(Hc & Hd & Hn) HD]. unfold HousingWorld.dirtyAdd, loaded_inv, wf. simpl.
  split; [split; [done|split]|done]; case_bool_decide as Hin; try done.
  - intros j Hj. apply elem_of_app in Hj as [Hj|Hj]; [by apply Hd|].
    apply list_elem_of_singleton in Hj as ->. by apply HD.
  - apply NoDup_app. repeat split; [done| |apply NoDup_singleton].
    intros j Hj Hj'. apply list_elem_of_singleton in Hj' as ->. done.
Qed.

Lemma loaded_inv_mono D D' w : D ⊆ D' → loaded_inv D' w → loaded_inv D w.
Proof. intros HD [Hw HD']. split; [done | set_solver]. Qed.

Ltac loaded_inv_prims :=
  first [ exact loaded_inv_mono | exact loaded_inv_create
        | exact loaded_inv_onChunk | exact loaded_inv_dirtyAdd ].

Lemma set_loaded_inv D x y z b :
  hoare (loaded_inv D) (HousingWorld.set x y z b) (λ _, loaded_inv D).
Proof.
  apply (frame_set loaded_inv); loaded_inv_prims.
Qed.

Lemma run_loaded_inv {A} D (p : StructM A) seed :
  hoare (loaded_inv D) (run p seed) (λ _, loaded_inv D).
Proof.
  apply (frame_run loaded_inv); loaded_inv_prims.
Qed.

Lemma generateChunk_loaded_inv D g chunkX chunkZ :
  hoare (loaded_inv D) (WorldGenerator.generateChunk g chunkX chunkZ)
    (λ _, loaded_inv D).
Proof.
  unfold WorldGenerator.generateChunk.
  eapply hoare_bind with (R := λ _, loaded_inv D); [by intros w Hw|].
  intros [|]; [by apply hoare_ret|].
  eapply hoare_bind with (R := λ _, loaded_inv D); [by intros w Hw|].
  intros ?. apply (frame_generate_marked loaded_inv); loaded_inv_prims.
Qed.

Lemma wf_empty : wf HousingWorld.empty.
Proof.
  split; [apply map_Forall_empty|]. split; [|apply NoDup_nil_2].
  intros k Hk. by apply elem_of_nil in Hk.
Qed.

Lemma fade_bounds (t : Q) : (0 <= t <= 1 → 0 <= fade t <= 1)%Q.
Proof.
  intros [H0 H1]. unfold fade. split.
  - assert (0 <= t * t * t)%Q by (repeat apply Qmult_le_0_compat; auto).
    assert (t * (t * 6 - 15) + 10 == 1 + 3 * ((3 - 2 * t) * (1 - t)))%Q as -> by ring.
    assert (0 <= (3 - 2 * t) * (1 - t))%Q by (apply Qmult_le_0_compat; lra).
    apply Qmult_le_0_compat; [auto | lra].
  - assert (t * t * t * (t * (t * 6 - 15) + 10)
            == 1 - (1 - t) * (1 - t) * (1 - t) * (6 * (t * t) + 3 * t + 1))%Q as -> by ring.
    assert (0 <= (1 - t) * (1 - t) * (1 - t))%Q by (repeat apply Qmult_le_0_compat; lra).
    assert (0 <= t * t)%Q by (apply Qmult_le_0_compat; lra).
    assert (0 <= (1 - t) * (1 - t) * (1 - t) * (6 * (t * t) + 3 * t + 1))%Q
      by (apply Qmult_le_0_compat; lra).
    lra.
Qed.

Lemma lerp_bounds (a b t : Q) : (0 <= a <= 1 → 0 <= b <= 1 → 0 <= t <= 1 → 0 <= lerp a b t <= 1)%Q.
Proof.
  unfold lerp. intros [Ha0 Ha1] [Hb0 Hb1] [Ht0 Ht1].
  assert (a + t * (b - a) == (1 - t) * a + t * b)%Q as -> by ring.
  assert (0 <= (1 - t) * a)%Q by (apply Qmult_le_0_compat; lra).
  assert (0 <= t * b)%Q by (apply Qmult_le_0_compat; lra).
  assert (0 <= (1 - t) * (1 - a))%Q by (apply Qmult_le_0_compat; lra).
  assert (0 <= t * (1 - b))%Q by (apply Qmult_le_0_compat; lra).
  split; [lra|].
  assert ((1 - t) * a + t * b == 1 - ((1 - t) * (1 - a) + t * (1 - b)))%Q as -> by ring.
  lra.
Qed.

Lemma frac_bounds (x : Q) : (0 <= x - inject_Z (Qfloor x) <= 1)%Q.
Proof.
  pose proof (Qfloor_le x). pose proof (Qlt_floor x).
  rewrite inject_Z_plus in H0. change (inject_Z 1) with 1%Q in H0. split; lra.
Qed.
Lemma land255_bounds (a : Z) : 0 ≤ Z.land a 255 ≤ 255.
Proof.
  change 255 with (Z.ones 8) at 1 2. rewrite Z.land_ones by lia.
  pose proof (Z.mod_pos_bound a (2 ^ 8)). lia.
Qed.

Lemma byte_table_total (l : list Z) (i : nat) : byte_table l → 0 ≤ l !!! i ≤ 255.
Proof.
  intros Hl. rewrite list_lookup_total_alt.
  destruct (l !! i) as [v|] eqn:E; simpl.
  - eapply (Forall_lookup_1 _ _ _ _ Hl E).
  - unfold inhabitant; simpl. lia.
Qed.

Lemma shuffle_step_inv (st : list Z * Z) (i : nat) :
  byte_table st.1 → byte_table (ValueNoise.shuffle_step st i).1
  ∧ length (ValueNoise.shuffle_step st i).1 = length st.1.
Proof.
  destruct st as [p s]. unfold ValueNoise.shuffle_step. cbn [fst].
  destruct (mulberry32 s) as [r s']. cbn [fst]. intros Hp. split.
  - apply Forall_insert; [apply Forall_insert|]; auto; apply byte_table_total; auto.
  - by rewrite !length_insert.
Qed.

Lemma shuffle_inv (seed : Z) :
  byte_table (ValueNoise.shuffle seed) ∧ length (ValueNoise.shuffle seed) = 256%nat.
Proof.
  unfold ValueNoise.shuffle.
  assert (∀ l st, byte_table st.1 →
    byte_table (foldl ValueNoise.shuffle_step st l).1
    ∧ length (foldl ValueNoise.shuffle_step st l).1 = length st.1) as H.
  { induction l as [|i l IH]; intros st Hst; simpl; [done|].
    destruct (shuffle_step_inv st i Hst) as [H1 H2].
    destruct (IH _ H1) as [H3 H4]. split; [done | congruence]. }
  destruct (H (reverse (seq 1 255)) (seqZ 0 256, seed)) as [H1 H2].
  - cbn [fst]. apply Forall_forall. intros v Hv. apply elem_of_seqZ in Hv. lia.
  - split; [done|]. rewrite H2. cbn [fst]. by rewrite length_seqZ.
Qed.

Lemma perm_new (seed : Z) :
  byte_table (ValueNoise.perm (ValueNoise.new seed))
  ∧ length (ValueNoise.perm (ValueNoise.new seed)) = 512%nat.
Proof.
  unfold ValueNoise.new. cbn [ValueNoise.perm]. split.
  - apply Forall_fmap, Forall_forall. intros i _. cbv beta.
    apply byte_table_total, shuffle_inv.
  - by rewrite length_fmap, length_seqZ.
Qed.

Lemma at_new (seed i : Z) :
  0 ≤ i < 512 → ∃ v, ValueNoise.at_ (ValueNoise.new seed) i = Some v ∧ 0 ≤ v ≤ 255.
Proof.
  intros Hi. destruct (perm_new seed) as [Hb Hl]. unfold ValueNoise.at_.
  destruct (Z.leb_spec 0 i); [|lia].
  destruct (lookup_lt_is_Some_2 (ValueNoise.perm (ValueNoise.new seed)) (Z.to_nat i)) as [v Hv]; [lia|].
  exists v. split; [done|]. eapply (Forall_lookup_1 _ _ _ _ Hb Hv).
Qed.
Lemma byte_unit (v : Z) : 0 ≤ v ≤ 255 → (0 <= inject_Z v / 255 <= 1)%Q.
Proof.
  intros Hv. split.
  - apply Qle_shift_div_l; [reflexivity|]. rewrite Qmult_0_l.
    change 0%Q with (inject_Z 0). rewrite <- Zle_Qle. lia.
  - apply Qle_shift_div_r; [reflexivity|]. rewrite Qmult_1_l.
    change 255%Q with (inject_Z 255). rewrite <- Zle_Qle. lia.
Qed.

Lemma sample_new (seed : Z) (x z : Q) :
  ∃ v, ValueNoise.sample (ValueNoise.new seed) x z = Some v ∧ (0 <= v <= 1)%Q.
Proof.
  unfold ValueNoise.sample.
  pose proof (land255_bounds (Qfloor x)) as Hx.
  pose proof (land255_bounds (Qfloor z)) as Hz.
  set (xi := Z.land (Qfloor x) 255) in *. set (zi := Z.land (Qfloor z) 255) in *.
  destruct (at_new seed xi) as (pa & -> & Hpa); [lia|].
  destruct (at_new seed (xi + 1)) as (pb & -> & Hpb); [lia|].
  cbn [mbind option_bind].
  destruct (at_new seed (pa + zi)) as (aa & -> & Haa); [lia|].
  destruct (at_new seed (pb + zi)) as (ba & -> & Hba); [lia|].
  destruct (at_new seed (pa + zi + 1)) as (ab & -> & Hab); [lia|].
  destruct (at_new seed (pb + zi + 1)) as (bb & -> & Hbb); [lia|].
  cbn [mbind option_bind]. eexists. split; [reflexivity|].
  pose proof (fade_bounds _ (frac_bounds x)). pose proof (fade_bounds _ (frac_bounds z)).
  repeat apply lerp_bounds; auto using byte_unit.
Qed.

Lemma octave_loop_inv (seed : Z) (x z persistence scale : Q) (i : nat) :
  (0 <= persistence)%Q →
  ∃ a, Nat.iter i (ValueNoise.octave_step (ValueNoise.new seed) x z persistence)
         (Some {| ValueNoise.value := 0; ValueNoise.amplitude := 1;
                  ValueNoise.frequency := scale; ValueNoise.maxValue := 0 |})
       = Some a ∧ octave_inv i a.
Proof.
  intros Hp. induction i as [|i (a & Ea & (Ha & Hv) & Hm)].
  - eexists. split; [reflexivity|]. repeat split; simpl; try lra. lia.
  - simpl. rewrite Ea. unfold ValueNoise.octave_step at 1. cbn [mbind option_bind].
    destruct (sample_new seed (x * ValueNoise.frequency a) (z * ValueNoise.frequency a))
      as (s & -> & Hs).
    cbn [mbind option_bind]. eexists. split; [reflexivity|].
    assert (0 <= s * ValueNoise.amplitude a)%Q by (apply Qmult_le_0_compat; lra).
    assert (0 <= (1 - s) * ValueNoise.amplitude a)%Q by (apply Qmult_le_0_compat; lra).
    repeat split; simpl.
    + apply Qmult_le_0_compat; lra.
    + lra.
    + assert (s * ValueNoise.amplitude a
              == ValueNoise.amplitude a - (1 - s) * ValueNoise.amplitude a)%Q as -> by ring.
      lra.
    + intros _. destruct i as [|i].
      * simpl in Ea. injection Ea as <-. simpl. lra.
      * assert (1 <= ValueNoise.maxValue a)%Q by (apply Hm; lia). lra.
Qed.

Lemma octave_new (seed : Z) (x z : Q) (octaves : Z) (persistence scale : Q) :
  1 ≤ octaves → (0 <= persistence)%Q →
  ∃ v, ValueNoise.octave (ValueNoise.new seed) x z octaves persistence scale = Some v
       ∧ (0 <= v <= 1)%Q.
Proof.
  intros Ho Hp. unfold ValueNoise.octave, ValueNoise.octave_loop.
  destruct (octave_loop_inv seed x z persistence scale (Z.to_nat octaves) Hp)
    as (a & -> & (Ha & Hv) & Hm).
  cbn [mbind option_bind].
  assert (1 <= ValueNoise.maxValue a)%Q as H1 by (apply Hm; lia).
  destruct (Qeq_bool (ValueNoise.maxValue a) 0) eqn:E.
  - apply Qeq_bool_eq in E. lra.
  - eexists. split; [reflexivity|]. split.
    + apply Qle_shift_div_l; lra.
    + apply Qle_shift_div_r; lra.
Qed.

(** *** Reading and writing chunk buffers *)

Lemma read_write_same (i b : Z) (c : Chunk.t) :
  0 ≤ i → (Z.to_nat i < length (Chunk.blocks c))%nat →
  Chunk.read i (Chunk.write i b c) = Some b.
Proof.
  intros Hi Hl. unfold Chunk.read, Chunk.write. simpl.
  destruct (Z.leb_spec 0 i); [|lia]. by apply list_lookup_insert_eq.
Qed.

Lemma read_write_other (i j b : Z) (c : Chunk.t) :
  i ≠ j → Chunk.read j (Chunk.write i b c) = Chunk.read j c.
Proof.
  intros Hij. unfold Chunk.read, Chunk.write. simpl.
  destruct (Z.leb_spec 0 j); [|done]. destruct (Z.leb_spec 0 i); [|done].
  apply list_lookup_insert_ne. lia.
Qed.

Lemma read_new (i cx cy cz : Z) : default 0 (Chunk.read i (Chunk.new cx cy cz)) = 0.
Proof.
  unfold Chunk.read, Chunk.new. cbn [Chunk.blocks]. destruct (0 <=? i); [|done].
  destruct (replicate Chunk.VOLUME 0 !! Z.to_nat i) as [v|] eqn:E; [|done].
  apply lookup_replicate in E as [-> _]. done.
Qed.

Lemma floor_div_div (a b : Z) : 0 < b → floor_div a b = a / b.
Proof.
  intros Hb. unfold floor_div. destruct b as [|b|b]; try lia.
  unfold Qdiv, Qinv, Qmult, Qfloor, inject_Z. simpl.
  rewrite Z.mul_1_r. reflexivity.
Qed.

Lemma floor_div_chunk (a : Z) :
  floor_div a Chunk.SIZE = a / 32.
Proof. by apply floor_div_div. Qed.

Lemma get_blockAt (x y z : Z) (w : World) :
  0 ≤ y < 256 →
  (HousingWorld.get x y z w).1
  = blockAt w (x / 32, y / 32, z / 32)
      (Chunk.index (x mod 32) (y mod 32) (z mod 32)).
Proof.
  intros Hy. unfold HousingWorld.get, HousingWorld.HEIGHT.
  destruct (Z.ltb_spec y 0); [lia|]. destruct (Z.geb_spec y 256); [lia|]. simpl.
  rewrite !floor_div_chunk. unfold mbind, M_bind, HousingWorld.getChunk, blockAt,
    HousingWorld.chunkKey, Chunk.getBlock, Chunk.SIZE.
  rewrite !Z.mod_eq by lia. rewrite !(Z.mul_comm 32).
  by destruct (chunks w !! _).
Qed.

(** *** The effect of the terrain loop on one cell *)

Section cell.
Variables (k0 : Z * Z * Z) (i0 : Z).

Lemma cell_mono v D D' w : D ⊆ D' → cell k0 i0 v D' w → cell k0 i0 v D w.
Proof. intros HD [Hw Hv]. split; [by eapply loaded_inv_mono | done]. Qed.

Lemma cell_create v D cx cy cz :
  hoare (cell k0 i0 v D) (HousingWorld.getOrCreateChunk cx cy cz)
    (λ k w, k = (cx, cy, cz) ∧ cell k0 i0 v ({[k]} ∪ D) w).
Proof.
  intros w [Hw Hv]. destruct (loaded_inv_create D cx cy cz w Hw) as [Hk Hw'].
  split; [done|]. split; [done|].
  revert Hv. unfold HousingWorld.getOrCreateChunk, blockAt.
  change (HousingWorld.chunkKey cx cy cz) with (cx, cy, cz).
  destruct (chunks w !! (cx, cy, cz)) as [c|] eqn:E; simpl; [done|].
  destruct (decide (k0 = (cx, cy, cz))) as [->|Hne].
  - rewrite E, lookup_insert_eq, read_new. done.
  - by rewrite lookup_insert_ne.
Qed.

Lemma cell_onChunk v D k f :
  chunk_fn_ok f → (k = k0 → ∀ c, Chunk.read i0 (f c) = Chunk.read i0 c) →
  hoare (cell k0 i0 v D) (HousingWorld.onChunk k f) (λ _, cell k0 i0 v D).
Proof.
  intros Hf Hr w [Hw Hv]. split; [by apply loaded_inv_onChunk|].
  revert Hv. unfold HousingWorld.onChunk, blockAt. simpl.
  rewrite lookup_alter. case_decide as Hk; [|done].
  subst. destruct (chunks w !! k0) as [c|]; simpl; [|done]. by rewrite Hr.
Qed.

Lemma cell_write_other v D k i b :
  k ≠ k0 ∨ i ≠ i0 →
  hoare (cell k0 i0 v D) (HousingWorld.onChunk k (Chunk.write i b))
    (λ _, cell k0 i0 v D).
Proof.
  intros Hne. apply cell_onChunk; [apply chunk_fn_ok_write|].
  intros -> c. apply read_write_other. by destruct Hne.
Qed.

Lemma cell_write_same v D b :
  k0 ∈ D → 0 ≤ i0 → (Z.to_nat i0 < Chunk.VOLUME)%nat →
  hoare (cell k0 i0 v D) (HousingWorld.onChunk k0 (Chunk.write i0 b))
    (λ _, cell k0 i0 b D).
Proof.
  intros Hk Hi Hv w [Hw _].
  split; [by apply loaded_inv_onChunk, Hw; apply chunk_fn_ok_write|].
  destruct Hw as [(Hc & _) HD]. apply HD, elem_of_dom in Hk as [c Hc0].
  unfold HousingWorld.onChunk, blockAt. simpl.
  rewrite lookup_alter_eq, Hc0. simpl.
  rewrite read_write_same; [done..|]. destruct (Hc _ _ Hc0) as [_ ->]. done.
Qed.

Lemma cell_markDirty v D k :
  k ∈ D → hoare (cell k0 i0 v D) (HousingWorld.markDirty k) (λ _, cell k0 i0 v D).
Proof.
  intros Hk. eapply hoare_bind.
  - apply cell_onChunk; [apply chunk_fn_ok_setDirty | done].
  - intros ? w [Hw Hv]. split; [by apply loaded_inv_dirtyAdd | done].
Qed.
End cell.

(** *** The heightmap *)

Lemma foldl_frame {S X} (P : S → Prop) (f : S → X → S) (xs : list X) (s0 : S) :
  (∀ s x, x ∈ xs → P s → P (f s x)) → P s0 → P (foldl f s0 xs).
Proof.
  revert s0. induction xs as [|x xs IH]; intros s0 H H0; simpl; [done|].
  apply IH; [|apply H; [left | done]]. intros s y Hy. apply H. by right.
Qed.

Lemma foldl_one {S X} (P Q : S → Prop) (f : S → X → S) (xs : list X) (x0 : X) (s0 : S) :
  NoDup xs → x0 ∈ xs →
  (∀ s x, x ∈ xs → x ≠ x0 → P s → P (f s x)) →
  (∀ s x, x ∈ xs → x ≠ x0 → Q s → Q (f s x)) →
  (∀ s, P s → Q (f s x0)) →
  P s0 → Q (foldl f s0 xs).
Proof.
  intros Hnd Hin HP HQ H0. revert s0.
  induction xs as [|x xs IH]; intros s0 Hs0; [by apply elem_of_nil in Hin|].
  apply NoDup_cons in Hnd as [Hx Hnd]. simpl.
  destruct (elem_of_cons xs x0 x) as [[->|Hin'] _]; [done| |].
  - apply foldl_frame; [|by apply H0].
    intros s y Hy. apply HQ; [by right|]. by intros ->.
  - apply IH; auto.
    + intros s y Hy. apply HP. by right.
    + intros s y Hy. apply HQ. by right.
    + apply HP; [left| |done]. by intros ->.
Qed.

Lemma range_elem (lo hi k : Z) : k ∈ range lo hi ↔ lo ≤ k < hi.
Proof. unfold range. rewrite elem_of_seqZ. lia. Qed.

Lemma range_incl_elem (lo hi k : Z) : k ∈ range_incl lo hi ↔ lo ≤ k ≤ hi.
Proof. unfold range_incl. rewrite elem_of_seqZ. lia. Qed.

Lemma range_NoDup (lo hi : Z) : NoDup (range lo hi).
Proof. apply NoDup_seqZ. Qed.

Lemma range_incl_NoDup (lo hi : Z) : NoDup (range_incl lo hi).
Proof. apply NoDup_seqZ. Qed.

Lemma to_int32_le (h : Z) : - 2 ^ 31 ≤ h → to_int32 h ≤ h.
Proof.
  intros Hh. unfold to_int32.
  pose proof (Z.mod_le (h + 2 ^ 31) (2 ^ 32)). lia.
Qed.

Lemma heightmap_at (g : WorldGenerator.t) (wx0 wz0 lx0 lz0 : Z) :
  0 ≤ lx0 < 32 → 0 ≤ lz0 < 32 →
  let hm := WorldGenerator.heightmap g wx0 wz0 in
  let h := WorldGenerator.getSurfaceY g (wx0 + lx0) (wz0 + lz0) in
  WorldGenerator.heightAt hm.1 lx0 lz0 = WorldGenerator.int32_store h
  ∧ 0 ≤ hm.2 ∧ (∀ v, h = Some v → v ≤ hm.2).
Proof.
  intros Hx Hz hm h.
  set (i0 := Z.to_nat (lx0 * 32 + lz0)).
  set (P := λ s : list Z * Z, length s.1 = Z.to_nat (32 * 32) ∧ 0 ≤ s.2).
  set (Q := λ s : list Z * Z,
         P s ∧ s.1 !! i0 = Some (WorldGenerator.int32_store h)
         ∧ (∀ v, h = Some v → v ≤ s.2)).
  assert (∀ lx lz (s : list Z * Z), P s →
    P (WorldGenerator.heightmap_step g wx0 wz0 lx s lz)) as stepP.
  { intros lx lz [hs mh] [Hl Hm]. unfold P, WorldGenerator.heightmap_step. cbn [fst snd] in *. split.
    - destruct (0 <=? _); [rewrite length_insert|]; exact Hl.
    - destruct (WorldGenerator.getSurfaceY g (wx0 + lx) (wz0 + lz)) as [v|]; [|exact Hm].
      destruct (Z.gtb_spec v mh); lia. }
  assert (Q hm) as (_ & Hi & Hm).
  { unfold hm, WorldGenerator.heightmap.
    apply (foldl_one P Q) with (x0 := lx0);
      [apply range_NoDup | apply range_elem; unfold WorldGenerator.cs; lia | | | |].
    - intros s lx Hlx Hne Hs. apply foldl_frame; [|done].
      intros s' lz Hlz Hs'. exact (stepP lx lz s' Hs').
    - intros s lx Hlx%range_elem Hne Hs.
      apply (foldl_frame Q); [|done].
      intros [hs mh] lz Hlz%range_elem (HP & Hi & Hm).
      split; [exact (stepP lx lz (hs, mh) HP)|]. unfold WorldGenerator.heightmap_step. simpl in *. split.
      + unfold WorldGenerator.cs in *. destruct (Z.leb_spec 0 (lx * 32 + lz)); [|lia].
        rewrite list_lookup_insert_ne; [done | unfold i0; lia].
      + intros v Hv. specialize (Hm v Hv).
        destruct (WorldGenerator.getSurfaceY g (wx0 + lx) (wz0 + lz)) as [v'|]; [|done].
        destruct (Z.gtb_spec v' mh); lia.
    - intros s Hs.
      apply (foldl_one P Q) with (x0 := lz0);
        [apply range_NoDup | apply range_elem; unfold WorldGenerator.cs; lia | | | |done].
      + intros s' lz Hlz Hne Hs'. exact (stepP lx0 lz s' Hs').
      + intros [hs mh] lz Hlz%range_elem Hne (HP & Hi & Hm).
        split; [exact (stepP lx0 lz (hs, mh) HP)|]. unfold WorldGenerator.heightmap_step. simpl in *. split.
        * unfold WorldGenerator.cs in *. destruct (Z.leb_spec 0 (lx0 * 32 + lz)); [|lia].
          rewrite list_lookup_insert_ne; [done | unfold i0; lia].
        * intros v Hv. specialize (Hm v Hv).
          destruct (WorldGenerator.getSurfaceY g (wx0 + lx0) (wz0 + lz)) as [v'|]; [|done].
          destruct (Z.gtb_spec v' mh); lia.
      + intros [hs mh] HP.
        split; [exact (stepP lx0 lz0 (hs, mh) HP)|]. destruct HP as [Hl Hmh].
        unfold WorldGenerator.heightmap_step. simpl in *. fold h. split.
        * unfold WorldGenerator.cs in *. destruct (Z.leb_spec 0 (lx0 * 32 + lz0)); [|lia].
          apply list_lookup_insert_eq. rewrite Hl. unfold i0. lia.
        * intros v ->. destruct (Z.gtb_spec v mh); lia.
    - unfold P; cbn [fst snd]; split; [apply length_replicate | done]. }
  assert (P hm) as [_ H0].
  { unfold hm, WorldGenerator.heightmap. apply foldl_frame.
    - intros s lx _ Hs. apply foldl_frame; [|done]. intros s' lz _ Hs'.
      exact (stepP lx lz s' Hs').
    - unfold P; cbn [fst snd]; split; [apply length_replicate | done]. }
  split; [|split; [exact H0 | exact Hm]].
  unfold WorldGenerator.heightAt, WorldGenerator.cs.
  destruct (Z.leb_spec 0 (lx0 * 32 + lz0)); [|lia]. fold i0. rewrite Hi. reflexivity.
Qed.

(** *** The terrain loop, seen from one cell of the column *)

Section terrain_cell.
Variables (g : WorldGenerator.t) (chunkX chunkZ : Z).
Variables (heights : list Z) (maxHeight : Z).
Variables (lx0 lz0 Y0 : Z).
Hypothesis Hlx0 : 0 ≤ lx0 < 32.
Hypothesis Hlz0 : 0 ≤ lz0 < 32.
Hypothesis HY0 : 0 ≤ Y0 < 256.

Let surface := WorldGenerator.heightAt heights lx0 lz0.
Hypothesis Hmax : surface ≤ maxHeight.

Let k0 : Z * Z * Z := (chunkX, Y0 / 32, chunkZ).
Let i0 : Z := Chunk.index lx0 (Y0 mod 32) lz0.
Let written (v : Z) : Z :=
  if bool_decide (Y0 ≤ surface) then WorldGenerator.terrainBlock g surface Y0
  else v.

Local Lemma i0_range : 0 ≤ i0 ∧ (Z.to_nat i0 < Chunk.VOLUME)%nat.
Proof.
  unfold i0, Chunk.index, Chunk.VOLUME, Chunk.SIZE.
  pose proof (Z.mod_pos_bound Y0 32). lia.
Qed.

(** The writes of one column of one layer. *)
Local Lemma column_cell D cy lx lz v :
  0 ≤ lx < 32 → 0 ≤ lz < 32 → (chunkX, cy, chunkZ) ∈ D →
  hoare (cell k0 i0 v D)
    (let surfaceY := WorldGenerator.heightAt heights lx lz in
     if surfaceY <? cy * WorldGenerator.cs then mret tt else
     let fillTop := Z.min surfaceY (cy * WorldGenerator.cs + WorldGenerator.cs - 1) in
     forM (range_incl (cy * WorldGenerator.cs) fillTop) (λ wy,
       HousingWorld.onChunk (chunkX, cy, chunkZ)
         (Chunk.write ((lx * WorldGenerator.cs + (wy - cy * WorldGenerator.cs))
                       * WorldGenerator.cs + lz)
            (WorldGenerator.terrainBlock g
               (WorldGenerator.heightAt heights lx lz) wy))))
    (λ _, cell k0 i0
            (if bool_decide (cy = Y0 / 32 ∧ lx = lx0 ∧ lz = lz0) then written v
             else v) D).
Proof.
  intros Hlx Hlz HD. cbv zeta. unfold WorldGenerator.cs.
  pose proof (Z.mod_pos_bound Y0 32) as Hm.
  pose proof (Z.div_mod Y0 32) as Hdm.
  destruct (Z.ltb_spec (WorldGenerator.heightAt heights lx lz) (cy * 32)) as [Hlt|Hge].
  { apply hoare_ret. intros w Hw. case_bool_decide as Hc; [|done].
    destruct Hc as (-> & -> & ->). unfold written.
    rewrite bool_decide_false; [done|]. fold surface in Hlt. lia. }
  case_bool_decide as Hc.
  - destruct Hc as (-> & -> & ->). fold surface. unfold written.
    case_bool_decide as HW.
    + apply hoare_forM_one with (x0 := Y0) (Q := cell k0 i0 (WorldGenerator.terrainBlock g surface Y0) D).
      * apply range_incl_NoDup.
      * apply range_incl_elem. lia.
      * intros wy Hwy%range_incl_elem Hne. apply cell_write_other. right.
        unfold i0, Chunk.index, Chunk.SIZE. lia.
      * intros wy Hwy%range_incl_elem Hne. apply cell_write_other. right.
        unfold i0, Chunk.index, Chunk.SIZE. lia.
      * assert ((lx0 * 32 + (Y0 - Y0 / 32 * 32)) * 32 + lz0 = i0) as ->
          by (unfold i0, Chunk.index, Chunk.SIZE; lia).
        apply cell_write_same; [done | apply i0_range..].
    + apply hoare_forM_frame. intros wy Hwy%range_incl_elem.
      apply cell_write_other. right. unfold i0, Chunk.index, Chunk.SIZE. lia.
  - apply hoare_forM_frame. intros wy Hwy%range_incl_elem.
    apply cell_write_other.
    destruct (decide (cy = Y0 / 32)) as [->|Hcy]; [right | left; unfold k0; congruence].
    unfold i0, Chunk.index, Chunk.SIZE. lia.
Qed.

(** One layer of the column. *)
Local Lemma layer_cell D cy v :
  0 ≤ cy < 8 →
  hoare (cell k0 i0 v D)
    (let cyMin := cy * WorldGenerator.cs in
     let cyMax := cyMin + WorldGenerator.cs in
     if cyMin >? maxHeight then mret tt else
     chunk ← HousingWorld.getOrCreateChunk chunkX cy chunkZ;
     forM (range 0 WorldGenerator.cs) (λ lx,
       forM (range 0 WorldGenerator.cs) (λ lz,
         let surfaceY := WorldGenerator.heightAt heights lx lz in
         if surfaceY <? cyMin then mret tt else
         let fillTop := Z.min surfaceY (cyMax - 1) in
         forM (range_incl cyMin fillTop) (λ wy,
           let ly := wy - cyMin in
           let block := WorldGenerator.terrainBlock g surfaceY wy in
           HousingWorld.onChunk chunk
             (Chunk.write ((lx * WorldGenerator.cs + ly) * WorldGenerator.cs + lz)
                block))));;
     HousingWorld.markDirty chunk)
    (λ _, cell k0 i0 (if bool_decide (cy = Y0 / 32) then written v else v) D).
Proof.
  intros Hcy. cbv zeta.
  pose proof (Z.mod_pos_bound Y0 32) as Hm.
  pose proof (Z.div_mod Y0 32) as Hdm.
  destruct (Z.gtb_spec (cy * WorldGenerator.cs) maxHeight) as [Hskip|Hrun].
  { apply hoare_ret. intros w Hw. case_bool_decide as Hc; [|done]. subst cy.
    unfold written. rewrite bool_decide_false; [done|].
    unfold WorldGenerator.cs in Hskip. lia. }
  eapply hoare_bind; [apply cell_create|]. intros k. cbv beta.
  set (D' := {[k]} ∪ D).
  set (v' := if bool_decide (cy = Y0 / 32) then written v else v).
  apply hoare_conseq with (P' := λ w, k = (chunkX, cy, chunkZ) ∧ cell k0 i0 v D' w)
    (Q' := λ _, cell k0 i0 v' D'); [|done|].
  2:{ intros _ w. apply cell_mono. set_solver. }
  intros w [-> Hw]. revert w Hw.
  assert ((chunkX, cy, chunkZ) ∈ D') as HD by set_solver.
  change (hoare (cell k0 i0 v D')
    (forM (range 0 WorldGenerator.cs) (λ lx,
       forM (range 0 WorldGenerator.cs) (λ lz,
         if WorldGenerator.heightAt heights lx lz <? cy * WorldGenerator.cs
         then mret tt else
         forM (range_incl (cy * WorldGenerator.cs)
                 (Z.min (WorldGenerator.heightAt heights lx lz)
                    (cy * WorldGenerator.cs + WorldGenerator.cs - 1))) (λ wy,
           HousingWorld.onChunk (chunkX, cy, chunkZ)
             (Chunk.write ((lx * WorldGenerator.cs + (wy - cy * WorldGenerator.cs))
                           * WorldGenerator.cs + lz)
                (WorldGenerator.terrainBlock g
                   (WorldGenerator.heightAt heights lx lz) wy)))));;
     HousingWorld.markDirty (chunkX, cy, chunkZ))
    (λ _, cell k0 i0 v' D')).
  eapply hoare_bind; [|intros ?; by apply cell_markDirty].
  assert (∀ u lx lz, lx ∈ range 0 WorldGenerator.cs → lz ∈ range 0 WorldGenerator.cs →
    ¬ (cy = Y0 / 32 ∧ lx = lx0 ∧ lz = lz0) →
    hoare (cell k0 i0 u D')
      (if WorldGenerator.heightAt heights lx lz <? cy * WorldGenerator.cs
       then mret tt else
       forM (range_incl (cy * WorldGenerator.cs)
               (Z.min (WorldGenerator.heightAt heights lx lz)
                  (cy * WorldGenerator.cs + WorldGenerator.cs - 1))) (λ wy,
         HousingWorld.onChunk (chunkX, cy, chunkZ)
           (Chunk.write ((lx * WorldGenerator.cs + (wy - cy * WorldGenerator.cs))
                         * WorldGenerator.cs + lz)
              (WorldGenerator.terrainBlock g
                 (WorldGenerator.heightAt heights lx lz) wy))))
      (λ _, cell k0 i0 u D')) as Hother.
  { intros u lx lz Hlx%range_elem Hlz%range_elem Hne.
    pose proof (column_cell D' cy lx lz u) as H. cbv zeta in H.
    rewrite bool_decide_false in H by done. apply H; [done..].  }
  unfold v'. case_bool_decide as Hc.
  - subst cy.
    apply hoare_forM_one with (x0 := lx0) (Q := cell k0 i0 (written v) D');
      [apply range_NoDup | by apply range_elem | | |].
    + intros lx Hlx Hne. apply hoare_forM_frame. intros lz Hlz.
      apply Hother; [done..|]. intros (_ & ? & _). done.
    + intros lx Hlx Hne. apply hoare_forM_frame. intros lz Hlz.
      apply Hother; [done..|]. intros (_ & ? & _). done.
    + apply hoare_forM_one with (x0 := lz0) (Q := cell k0 i0 (written v) D');
        [apply range_NoDup | by apply range_elem | | |].
      * intros lz Hlz Hne. apply Hother; [by apply range_elem | done |].
        intros (_ & _ & ?). done.
      * intros lz Hlz Hne. apply Hother; [by apply range_elem | done |].
        intros (_ & _ & ?). done.
      * pose proof (column_cell D' (Y0 / 32) lx0 lz0 v) as H. cbv zeta in H.
        rewrite bool_decide_true in H by done. by apply H.
  - apply hoare_forM_frame. intros lx Hlx. apply hoare_forM_frame. intros lz Hlz.
    apply Hother; [done..|]. intros (? & _). done.
Qed.

Lemma terrain_cell D v :
  hoare (cell k0 i0 v D)
    (WorldGenerator.generateTerrain g chunkX chunkZ heights maxHeight)
    (λ _, cell k0 i0 (written v) D).
Proof.
  unfold WorldGenerator.generateTerrain.
  pose proof (Z.div_mod Y0 32) as Hdm. pose proof (Z.mod_pos_bound Y0 32) as Hm.
  apply hoare_forM_one with (x0 := Y0 / 32) (Q := cell k0 i0 (written v) D).
  - apply range_NoDup.
  - apply range_elem. unfold WorldGenerator.numCY. lia.
  - intros cy Hcy%range_elem Hne. unfold WorldGenerator.numCY in Hcy.
    pose proof (layer_cell D cy v) as H. rewrite bool_decide_false in H by done.
    by apply H.
  - intros cy Hcy%range_elem Hne. unfold WorldGenerator.numCY in Hcy.
    pose proof (layer_cell D cy (written v)) as H.
    rewrite bool_decide_false in H by done. by apply H.
  - pose proof (layer_cell D (Y0 / 32) v) as H.
    rewrite bool_decide_true in H by done. apply H. lia.
Qed.
End terrain_cell.

(** *** Bounds of the surface height *)

Lemma js_round_lower (m : Z) (q : Q) : (inject_Z m <= q)%Q → m ≤ js_round q.
Proof.
  intros Hq. unfold js_round.
  pose proof (Qlt_floor (q + (1 # 2))) as H.
  rewrite inject_Z_plus in H. change (inject_Z 1) with 1%Q in H.
  assert (inject_Z m < inject_Z (Qfloor (q + (1 # 2)) + 1))%Q as Hlt.
  { rewrite inject_Z_plus. change (inject_Z 1) with 1%Q. lra. }
  rewrite <- Zlt_Qlt in Hlt. lia.
Qed.

Lemma js_round_Z (m : Z) (q : Q) : (q == inject_Z m)%Q → js_round q = m.
Proof.
  intros Hq. unfold js_round.
  pose proof (Qlt_floor (q + (1 # 2))) as H1.
  pose proof (Qfloor_le (q + (1 # 2))) as H2.
  rewrite inject_Z_plus in H1. change (inject_Z 1) with 1%Q in H1.
  assert (inject_Z m < inject_Z (Qfloor (q + (1 # 2)) + 1))%Q as Hlt.
  { rewrite inject_Z_plus. change (inject_Z 1) with 1%Q. lra. }
  assert (inject_Z (Qfloor (q + (1 # 2))) < inject_Z (m + 1))%Q as Hlt'.
  { rewrite inject_Z_plus. change (inject_Z 1) with 1%Q. lra. }
  rewrite <- Zlt_Qlt in Hlt, Hlt'. lia.
Qed.

Lemma getSurfaceY_constructed (g : WorldGenerator.t) (wx wz : Z) :
  constructed g →
  ∃ n, ValueNoise.octave (WorldGenerator.noise g) (inject_Z wx) (inject_Z wz)
         6 0.5 0.004 = Some n
       ∧ (0 <= n <= 1)%Q
       ∧ WorldGenerator.getSurfaceY g wx wz = Some (WorldGenerator.surfaceOf g n).
Proof.
  intros Hg. unfold WorldGenerator.getSurfaceY. rewrite Hg.
  destruct (octave_new (WorldGenerator.seed g) (inject_Z wx) (inject_Z wz) 6 0.5 0.004)
    as (n & -> & Hn); [lia | lra |].
  exists n. done.
Qed.

Lemma getSurfaceY_lower (g : WorldGenerator.t) (wx wz h : Z) :
  constructed g → WorldGenerator.getSurfaceY g wx wz = Some h →
  Z.min (WorldGenerator.minHeight g) (WorldGenerator.maxHeight g) ≤ h.
Proof.
  intros Hg Hh. destruct (getSurfaceY_constructed g wx wz Hg) as (n & _ & [Hn0 Hn1] & E).
  rewrite E in Hh. injection Hh as <-. unfold WorldGenerator.surfaceOf.
  apply js_round_lower.
  set (a := WorldGenerator.minHeight g). set (b := WorldGenerator.maxHeight g).
  destruct (Z.le_ge_cases a b) as [Hab|Hab].
  - rewrite Z.min_l by done. rewrite Zle_Qle in Hab.
    assert (0 <= n * (inject_Z b - inject_Z a))%Q by (apply Qmult_le_0_compat; lra).
    lra.
  - rewrite Z.min_r by lia. rewrite Zle_Qle in Hab.
    assert (0 <= (1 - n) * (inject_Z a - inject_Z b))%Q by (apply Qmult_le_0_compat; lra).
    assert (inject_Z a + n * (inject_Z b - inject_Z a)
            == inject_Z b + (1 - n) * (inject_Z a - inject_Z b))%Q as -> by ring.
    lra.
Qed.

Lemma getSurfaceY_flat (g : WorldGenerator.t) (wx wz : Z) :
  constructed g → WorldGenerator.maxHeight g = WorldGenerator.minHeight g →
  WorldGenerator.getSurfaceY g wx wz = Some (WorldGenerator.minHeight g).
Proof.
  intros Hg Hflat. destruct (getSurfaceY_constructed g wx wz Hg) as (n & _ & _ & ->).
  f_equal. unfold WorldGenerator.surfaceOf. apply js_round_Z. rewrite Hflat. ring.
Qed.

(** *** The store after the terrain loop *)

Lemma column_coords (c l : Z) :
  0 ≤ l < 32 → (c * 32 + l) / 32 = c ∧ (c * 32 + l) mod 32 = l.
Proof.
  intros Hl. split.
  - symmetry. apply (Z.div_unique _ _ c l); lia.
  - symmetry. apply (Z.mod_unique _ _ c l); lia.
Qed.

Lemma to_int32_small (h : Z) : - 2 ^ 31 ≤ h < 2 ^ 31 → to_int32 h = h.
Proof. intros Hh. unfold to_int32. rewrite Z.mod_small; lia. Qed.

(** The store after the terrain loop, in terms of the surface height of the
    position: the loop reads the height from the [Int32Array], where it is
    wrapped to 32 bits. *)
Lemma terrain_get_surface (g : WorldGenerator.t) (w : World)
    (chunkX chunkZ lx lz Y surface : Z) :
  wf w → 0 ≤ lx < 32 → 0 ≤ lz < 32 → 0 ≤ Y < 256 →
  WorldGenerator.getSurfaceY g (chunkX * 32 + lx) (chunkZ * 32 + lz)
  = Some surface →
  - 2 ^ 31 ≤ surface →
  columnSurface g chunkX chunkZ lx lz = to_int32 surface
  ∧ eval (HousingWorld.get (chunkX * 32 + lx) Y (chunkZ * 32 + lz))
      (afterTerrain g chunkX chunkZ w)
    = if bool_decide (Y ≤ to_int32 surface)
      then WorldGenerator.terrainBlock g (to_int32 surface) Y
      else eval (HousingWorld.get (chunkX * 32 + lx) Y (chunkZ * 32 + lz)) w.
Proof.
  intros Hw Hlx Hlz HY Hs Hlow.
  destruct (heightmap_at g (chunkX * WorldGenerator.cs) (chunkZ * WorldGenerator.cs)
              lx lz Hlx Hlz) as (Hat & H0 & Hle).
  change (chunkX * WorldGenerator.cs) with (chunkX * 32) in *.
  change (chunkZ * WorldGenerator.cs) with (chunkZ * 32) in *.
  rewrite Hs in Hat, Hle. cbn [WorldGenerator.int32_store] in Hat.
  specialize (Hle surface eq_refl).
  assert (columnSurface g chunkX chunkZ lx lz = to_int32 surface) as Hcol
    by exact Hat.
  split; [exact Hcol|]. rewrite <- Hcol.
  unfold eval, afterTerrain, exec. unfold columnSurface in *.
  rewrite !get_blockAt by done.
  destruct (column_coords chunkX lx Hlx) as [-> ->].
  destruct (column_coords chunkZ lz Hlz) as [-> ->].
  change (chunkX * WorldGenerator.cs) with (chunkX * 32) in *.
  change (chunkZ * WorldGenerator.cs) with (chunkZ * 32) in *.
  remember (WorldGenerator.heightmap g (chunkX * 32) (chunkZ * 32)) as hm eqn:Ehm.
  clear Ehm.
  assert (WorldGenerator.heightAt hm.1 lx lz ≤ hm.2) as Hmax.
  { rewrite Hcol. pose proof (to_int32_le surface Hlow). lia. }
  refine (proj2 (terrain_cell g chunkX chunkZ hm.1 hm.2 lx lz Y Hlx Hlz HY Hmax ∅
                   (blockAt w (chunkX, Y / 32, chunkZ) (Chunk.index lx (Y mod 32) lz))
                   w _)).
  split; [|reflexivity]. split; [exact Hw | set_solver].
Qed.

(** *** Blocks written through [set] *)

(** A [set] at a position that resolves to another cell than [(k0, i0)]
    keeps that cell; a [set] at the position of the cell writes it. *)
Lemma set_cell_other (k0 : Z * Z * Z) (i0 v : Z) D (x y z b : Z) :
  (x / 32, y / 32, z / 32) ≠ k0
  ∨ Chunk.index (x mod 32) (y mod 32) (z mod 32) ≠ i0 →
  hoare (cell k0 i0 v D) (HousingWorld.set x y z b) (λ _, cell k0 i0 v D).
Proof.
  intros Hne. unfold HousingWorld.set.
  destruct ((y <? 0) || (y >=? HousingWorld.HEIGHT)); [by apply hoare_ret|].
  rewrite !floor_div_chunk. unfold Chunk.SIZE, Chunk.setBlock.
  rewrite <- !(Z.mul_comm 32), <- !Z.mod_eq by lia.
  eapply hoare_bind; [apply cell_create|]. intros k. cbv beta.
  apply hoare_conseq with
    (P' := λ w, k = (x / 32, y / 32, z / 32) ∧ cell k0 i0 v ({[k]} ∪ D) w)
    (Q' := λ _, cell k0 i0 v ({[k]} ∪ D)); [|done|].
  2:{ intros _ w. apply cell_mono. set_solver. }
  intros w [-> Hw]. revert w Hw.
  change (hoare (cell k0 i0 v ({[(x / 32, y / 32, z / 32)]} ∪ D))
    (HousingWorld.onChunk (x / 32, y / 32, z / 32)
       (Chunk.write (Chunk.index (x mod 32) (y mod 32) (z mod 32)) b);;
     HousingWorld.markDirty (x / 32, y / 32, z / 32))
    (λ _, cell k0 i0 v ({[(x / 32, y / 32, z / 32)]} ∪ D))).
  eapply hoare_bind; [by apply cell_write_other|].
  intros ?. apply cell_markDirty. set_solver.
Qed.

Lemma set_cell_same (v : Z) D (x y z b : Z) :
  0 ≤ y < 256 →
  hoare (cell (x / 32, y / 32, z / 32)
           (Chunk.index (x mod 32) (y mod 32) (z mod 32)) v D)
    (HousingWorld.set x y z b)
    (λ _, cell (x / 32, y / 32, z / 32)
            (Chunk.index (x mod 32) (y mod 32) (z mod 32)) b D).
Proof.
  intros Hy. unfold HousingWorld.set, HousingWorld.HEIGHT.
  destruct (Z.ltb_spec y 0); [lia|]. destruct (Z.geb_spec y 256); [lia|].
  cbn [orb]. rewrite !floor_div_chunk. unfold Chunk.SIZE, Chunk.setBlock.
  rewrite <- !(Z.mul_comm 32), <- !Z.mod_eq by lia.
  set (k0 := (x / 32, y / 32, z / 32)).
  set (i0 := Chunk.index (x mod 32) (y mod 32) (z mod 32)).
  eapply hoare_bind; [apply cell_create|]. intros k. cbv beta.
  apply hoare_conseq with
    (P' := λ w, k = k0 ∧ cell k0 i0 v ({[k]} ∪ D) w)
    (Q' := λ _, cell k0 i0 b ({[k]} ∪ D)); [|done|].
  2:{ intros _ w. apply cell_mono. set_solver. }
  intros w [-> Hw]. revert w Hw.
  change (hoare (cell k0 i0 v ({[k0]} ∪ D))
    (HousingWorld.onChunk k0 (Chunk.write i0 b);; HousingWorld.markDirty k0)
    (λ _, cell k0 i0 b ({[k0]} ∪ D))).
  eapply hoare_bind.
  - apply cell_write_same; [set_solver|..];
      unfold i0, Chunk.index, Chunk.VOLUME, Chunk.SIZE;
      pose proof (Z.mod_pos_bound x 32); pose proof (Z.mod_pos_bound y 32);
      pose proof (Z.mod_pos_bound z 32); lia.
  - intros ?. apply cell_markDirty. set_solver.
Qed.

(** Two world positions that resolve to the same cell are equal. *)
Lemma resolve_inj (x y z a b c : Z) :
  (x / 32, y / 32, z / 32) = (a / 32, b / 32, c / 32) →
  Chunk.index (x mod 32) (y mod 32) (z mod 32)
  = Chunk.index (a mod 32) (b mod 32) (c mod 32) →
  (x, y, z) = (a, b, c).
Proof.
  intros Hk Hi. injection Hk as Hx Hy Hz. unfold Chunk.index, Chunk.SIZE in Hi.
  pose proof (Z.mod_pos_bound x 32). pose proof (Z.mod_pos_bound y 32).
  pose proof (Z.mod_pos_bound z 32). pose proof (Z.mod_pos_bound a 32).
  pose proof (Z.mod_pos_bound b 32). pose proof (Z.mod_pos_bound c 32).
  pose proof (Z.div_mod x 32). pose proof (Z.div_mod y 32).
  pose proof (Z.div_mod z 32). pose proof (Z.div_mod a 32).
  pose proof (Z.div_mod b 32). pose proof (Z.div_mod c 32).
  f_equal; [f_equal|]; lia.
Qed.

(** *** Running structures *)

Lemma hoare_run_bind {A B} (P : World → Prop) (m : StructM A) (k : A → StructM B)
    (R : A * Z → World → Prop) (Q : B * Z → World → Prop) (seed : Z) :
  hoare P (run m seed) R →
  (∀ a s, hoare (R (a, s)) (run (k a) s) Q) →
  hoare P (run (m ≫= k) seed) Q.
Proof.
  revert P seed. induction m as [a|x y z k' IH|x y z b k' IH|k' IH];
    intros P seed Hm Hk; unfold mbind, StructM_mbind; cbn [StructM_bind run].
  - intros w Hw. apply Hk. exact (Hm w Hw).
  - intros w Hw. unfold mbind, M_bind.
    pose proof (Hm w Hw) as H. cbn [run] in H. unfold mbind, M_bind in H.
    destruct (HousingWorld.get x y z w) as [r w'].
    apply (IH r (λ w0, w0 = w') seed); [by intros ? -> | done | done].
  - intros w Hw. unfold mbind, M_bind.
    pose proof (Hm w Hw) as H. cbn [run] in H. unfold mbind, M_bind in H.
    destruct (HousingWorld.set x y z b w) as [[] w'].
    apply (IH (λ w0, w0 = w') seed); [by intros ? -> | done | done].
  - cbn [run] in Hm. destruct (mulberry32 seed) as [r s]. by apply IH.
Qed.

Lemma hoare_run_forM {X} (P : World → Prop) (xs : list X) (body : X → StructM unit) :
  (∀ x seed, x ∈ xs → hoare P (run (body x) seed) (λ _, P)) →
  ∀ seed, hoare P (run (forM xs body) seed) (λ _, P).
Proof.
  induction xs as [|x xs IH]; intros H seed; cbn [forM].
  - by apply hoare_ret.
  - eapply hoare_run_bind; [apply H; left|]. intros a s. apply IH.
    intros y s' Hy. apply H. by right.
Qed.

(** The guarded writes of the leaf layers keep every cell that is not
    empty. *)
Lemma leafLayers_keeps (a b c v : Z) D (x z leafBase seed : Z) :
  0 ≤ b < 256 → v ≠ OakTree.AIR →
  hoare (cell (a / 32, b / 32, c / 32)
           (Chunk.index (a mod 32) (b mod 32) (c mod 32)) v D)
    (run (OakTree.leafLayers x z leafBase) seed)
    (λ _, cell (a / 32, b / 32, c / 32)
            (Chunk.index (a mod 32) (b mod 32) (c mod 32)) v D).
Proof.
  intros Hb Hv. revert seed. unfold OakTree.leafLayers.
  apply hoare_run_forM. intros dy s1 _.
  apply hoare_run_forM. intros dx s2 _.
  apply hoare_run_forM. intros dz s3 _.
  destruct (_ && _); [by apply hoare_ret|]. cbv zeta.
  set (lx := x + dx). set (ly := leafBase + dy). set (lz := z + dz).
  unfold mbind, StructM_mbind, world_get, world_set. cbn [StructM_bind run].
  intros w Hw. unfold mbind, M_bind.
  pose proof (get_state lx ly lz w) as Hst.
  destruct (HousingWorld.get lx ly lz w) as [r w'] eqn:Hget. cbn [snd] in Hst. subst w'.
  destruct (Z.eqb_spec r OakTree.AIR) as [Hr|Hr]; [|exact Hw].
  cbn [StructM_bind run]. unfold mbind, M_bind.
  assert (hoare (cell (a / 32, b / 32, c / 32)
            (Chunk.index (a mod 32) (b mod 32) (c mod 32)) v D)
            (HousingWorld.set lx ly lz OakTree.OAK_LEAVES)
            (λ _, cell (a / 32, b / 32, c / 32)
               (Chunk.index (a mod 32) (b mod 32) (c mod 32)) v D)) as Hset.
  { destruct (decide (0 ≤ ly < 256)) as [Hly|Hly].
    - apply set_cell_other.
      destruct (decide ((lx / 32, ly / 32, lz / 32) = (a / 32, b / 32, c / 32)))
        as [Hk|Hk]; [right | by left].
      intros Hi. pose proof (resolve_inj _ _ _ _ _ _ Hk Hi) as Heq.
      injection Heq as -> -> ->.
      pose proof (get_blockAt a b c w Hb) as Hg. rewrite Hget in Hg. cbn [fst] in Hg.
      destruct Hw as [_ Hw]. congruence.
    - unfold HousingWorld.set, HousingWorld.HEIGHT.
      destruct (Z.ltb_spec ly 0); [by apply hoare_ret|].
      destruct (Z.geb_spec ly 256); [by apply hoare_ret | lia]. }
  specialize (Hset w Hw).
  destruct (HousingWorld.set lx ly lz OakTree.OAK_LEAVES w) as [[] w'']. exact Hset.
Qed.

(** *** The ring loop of [update] *)

Lemma first_some_Some {X Y} (f : X → option Y) (xs : list X) (y : Y) :
  first_some f xs = Some y → ∃ x, x ∈ xs ∧ f x = Some y.
Proof.
  induction xs as [|x xs IH]; cbn [first_some]; [done|].
  destruct (f x) as [y'|] eqn:E.
  - intros [= <-]. exists x. split; [left | done].
  - intros (x' & Hx' & Hy)%IH. exists x'. split; [by right | done].
Qed.

Lemma first_some_None {X Y} (f : X → option Y) (xs : list X) :
  first_some f xs = None → ∀ x, x ∈ xs → f x = None.
Proof.
  induction xs as [|x xs IH]; cbn [first_some]; intros H x' Hx'.
  - by apply elem_of_nil in Hx'.
  - destruct (f x) as [y|] eqn:E; [done|].
    apply elem_of_cons in Hx' as [->|Hx']; [done | by apply IH].
Qed.

Lemma first_some_seqZ {Y} (f : Z → option Y) (m n : Z) (y : Y) :
  first_some f (seqZ m n) = Some y →
  ∃ x, m ≤ x < m + n ∧ f x = Some y ∧ ∀ x', m ≤ x' < x → f x' = None.
Proof.
  destruct (Z.le_gt_cases n 0) as [Hn|Hn].
  { unfold seqZ. replace (Z.to_nat n) with 0%nat by lia. done. }
  rewrite <- (Z2Nat.id n) by lia. generalize (Z.to_nat n) as k. clear Hn.
  intros k. revert m. induction k as [|k IH]; intros m; [done|].
  rewrite seqZ_cons by lia. cbn [first_some].
  destruct (f m) as [y'|] eqn:E.
  - intros [= <-]. exists m. split; [lia|]. split; [done|]. lia.
  - replace (Z.pred (Z.of_nat (S k))) with (Z.of_nat k) by lia.
    intros (x & Hx & Hy & Hlt)%IH. exists x. split; [lia|]. split; [done|].
    intros x' Hx'. destruct (decide (x' = m)) as [->|Hne]; [done|].
    apply Hlt. lia.
Qed.

(** A loop that breaks at the first element for which its body does
    something. *)
Lemma forBreak_first {X Y A} (xs : list X) (body : X → A → M (bool * A))
    (a : A) (w : World) (sel : X → option Y) (hit : Y → A * World) :
  (∀ x, x ∈ xs →
     body x a w = match sel x with
                  | None => ((false, a), w)
                  | Some y => ((true, (hit y).1), (hit y).2)
                  end) →
  forBreak xs body a w
  = match first_some sel xs with
    | None => ((false, a), w)
    | Some y => ((true, (hit y).1), (hit y).2)
    end.
Proof.
  induction xs as [|x xs IH]; intros H; cbn [forBreak first_some]; [done|].
  unfold mbind, M_bind. rewrite (H x) by left.
  destruct (sel x) as [y|]; [done|].
  apply IH. intros x' Hx'. apply H. by right.
Qed.

Section ring_loop.
Variables (generateChunk : Z → Z → M unit) (p : Z * Z) (renderDistance : Z).


(** A ring-edge cell lies at the radius of its ring. *)
Lemma ringCell_Some (w : World) (r dx dz : Z) (c : Z * Z) :
  (- r) ≤ dx ≤ r → (- r) ≤ dz ≤ r → ringCell w p r dx dz = Some c →
  (c ∉ generatedColumns w) ∧ chebyshev p c = r.
Proof.
  intros Hdx Hdz. unfold ringCell.
  destruct (Z.eqb_spec (Z.abs dx) r) as [Hax|Hax];
    destruct (Z.eqb_spec (Z.abs dz) r) as [Haz|Haz]; cbn [negb andb];
    try done; case_bool_decide as Hg; try done; intros [= <-];
    (split; [done|]); unfold chebyshev; cbn [fst snd]; lia.
Qed.

(** A ring without a missing cell is generated all around. *)
Lemma ring_None (w : World) (c : Z * Z) :
  first_some (λ dx,
    first_some (ringCell w p (chebyshev p c) dx)
      (range_incl (- chebyshev p c) (chebyshev p c)))
    (range_incl (- chebyshev p c) (chebyshev p c)) = None →
  c ∈ generatedColumns w.
Proof.
  intros H.
  pose proof (first_some_None _ _ H (c.1 - p.1)) as H1.
  rewrite range_incl_elem in H1.
  assert ((- chebyshev p c) ≤ c.1 - p.1 ≤ chebyshev p c) as Hx
    by (unfold chebyshev; lia).
  specialize (H1 Hx).
  pose proof (first_some_None _ _ H1 (c.2 - p.2)) as H2.
  rewrite range_incl_elem in H2.
  assert ((- chebyshev p c) ≤ c.2 - p.2 ≤ chebyshev p c) as Hz
    by (unfold chebyshev; lia).
  specialize (H2 Hz). unfold ringCell in H2.
  replace (p.1 + (c.1 - p.1), p.2 + (c.2 - p.2)) with c in H2
    by (destruct c; cbn [fst snd]; f_equal; lia).
  destruct (Z.eqb_spec (Z.abs (c.1 - p.1)) (chebyshev p c));
    destruct (Z.eqb_spec (Z.abs (c.2 - p.2)) (chebyshev p c));
    cbn [negb andb] in H2; try (unfold chebyshev in *; lia);
    case_bool_decide; done.
Qed.

(** What [firstMissing] finds. *)
Lemma firstMissing_Some (w : World) (c : Z * Z) :
  firstMissing w p renderDistance = Some c →
  (c ∉ generatedColumns w) ∧ chebyshev p c ≤ renderDistance
  ∧ ∀ c', c' ∉ generatedColumns w → chebyshev p c ≤ chebyshev p c'.
Proof.
  unfold firstMissing. unfold range_incl at 1.
  intros (r & Hr & Hc & Hmin)%first_some_seqZ.
  apply first_some_Some in Hc as (dx & Hdx%range_incl_elem & Hc).
  apply first_some_Some in Hc as (dz & Hdz%range_incl_elem & Hc).
  destruct (ringCell_Some w r dx dz c Hdx Hdz Hc) as [Hg Hcheb].
  split; [done|]. split; [lia|]. intros c' Hc'.
  destruct (Z.le_gt_cases (chebyshev p c) (chebyshev p c')) as [|Hlt]; [done|].
  exfalso. apply Hc', ring_None, Hmin. unfold chebyshev in *. lia.
Qed.

Lemma firstMissing_None (w : World) (c : Z * Z) :
  firstMissing w p renderDistance = None →
  chebyshev p c ≤ renderDistance → c ∈ generatedColumns w.
Proof.
  unfold firstMissing. intros Hnone Hc. apply ring_None.
  apply (first_some_None _ _ Hnone (chebyshev p c)).
  apply range_incl_elem. unfold chebyshev in *. lia.
Qed.
End ring_loop.

(** *** Unloading and meshing *)

Lemma update_split (playerX playerZ : Q) (generateChunk : Z → Z → M unit)
    (renderDistance maxGenPerFrame maxBuildPerFrame : Z) :
  HousingWorld.update playerX playerZ generateChunk renderDistance
    maxGenPerFrame maxBuildPerFrame
  = (ringLoop generateChunk (playerColumn playerX playerZ) renderDistance
       maxGenPerFrame;;
     unloadAndBuild (playerColumn playerX playerZ) renderDistance
       maxBuildPerFrame).
Proof. reflexivity. Qed.

Lemma tooFar_key (p : Z * Z) (limit : Z) (key : Z * Z * Z) (c : Chunk.t) :
  chunk_ok key c →
  tooFar p limit c = true ↔ limit < chebyshev p (columnOf key).
Proof.
  intros [<- _]. unfold tooFar, chebyshev, columnOf. cbn [fst snd].
  rewrite orb_true_iff, !Z.gtb_lt. lia.
Qed.

Lemma dom_alter_chunks (f : Chunk.t → Chunk.t) (k : Z * Z * Z)
    (m : gmap (Z * Z * Z) Chunk.t) :
  dom (alter f k m) = dom m.
Proof.
  apply set_eq. intros j. by rewrite !elem_of_dom, lookup_alter_is_Some.
Qed.

Lemma unload_far_state (key : Z * Z * Z) (w : World) :
  (HousingWorld.dirtyDelete key;; HousingWorld.chunksDelete key) w
  = (tt, {| chunks := delete key (chunks w);
            dirtyChunks := filter (λ k, k ≠ key) (dirtyChunks w);
            generatedColumns := generatedColumns w |}).
Proof. reflexivity. Qed.

Section unload_step.
Variables (p : Z * Z) (limit : Z) (key : Z * Z * Z) (chunk : Chunk.t).

Let step : M unit :=
  if tooFar p limit chunk
  then HousingWorld.dirtyDelete key;; HousingWorld.chunksDelete key
  else mret tt.

Lemma unload_step_generated G :
  hoare (λ w, generatedColumns w = G) step (λ _ w, generatedColumns w = G).
Proof. intros w Hw. unfold step. by destruct (tooFar p limit chunk). Qed.

Lemma unload_step_shrinking D :
  hoare (shrinking D) step (λ _, shrinking D).
Proof.
  intros w [HD Hd]. unfold step. destruct (tooFar p limit chunk); [|done].
  rewrite unload_far_state. split; cbn [fst snd chunks dirtyChunks].
  - rewrite dom_delete_L. set_solver.
  - intros k [Hne Hk]%list_elem_of_filter. rewrite dom_delete_L.
    apply elem_of_difference. split; [by apply Hd | set_solver].
Qed.

Lemma unload_step_removes D :
  tooFar p limit chunk = true →
  hoare (shrinking D) step (λ _, shrinking (D ∖ {[key]})).
Proof.
  intros Hfar w [HD Hd]. unfold step. rewrite Hfar.
  rewrite unload_far_state. split; cbn [fst snd chunks dirtyChunks].
  - rewrite dom_delete_L. set_solver.
  - intros k [Hne Hk]%list_elem_of_filter. rewrite dom_delete_L.
    apply elem_of_difference. split; [by apply Hd | set_solver].
Qed.

Lemma unload_step_keeps k :
  key ≠ k ∨ tooFar p limit chunk = false →
  hoare (λ w, k ∈ dom (chunks w)) step (λ _ w, k ∈ dom (chunks w)).
Proof.
  intros Hk w Hw. unfold step. destruct (tooFar p limit chunk); [|done].
  destruct Hk as [Hk|Hk]; [|done].
  rewrite unload_far_state. cbn [fst snd chunks].
  rewrite dom_delete_L. set_solver.
Qed.
End unload_step.

Lemma buildChunks_inv (I : World → Prop) (maxChunks : option Z) :
  (∀ k, hoare I (HousingWorld.onChunk k (Chunk.setDirty false)) (λ _, I)) →
  (∀ k, hoare I (HousingWorld.dirtyDelete k) (λ _, I)) →
  hoare I (HousingWorld.buildChunks maxChunks) (λ _, I).
Proof.
  intros HonChunk Hdelete. unfold HousingWorld.buildChunks.
  eapply hoare_bind with (R := λ _, I); [intros w Hw; exact Hw|]. intros dirty.
  eapply hoare_bind with (R := λ _, I); [|intros ?; by apply hoare_ret].
  apply hoare_forBreak_frame. intros k built _.
  eapply hoare_bind; [apply HonChunk|]. intros ?.
  eapply hoare_bind; [apply Hdelete|]. intros ?. by apply hoare_ret.
Qed.

Lemma buildChunks_generated G maxChunks :
  hoare (λ w, generatedColumns w = G) (HousingWorld.buildChunks maxChunks)
    (λ _ w, generatedColumns w = G).
Proof. apply buildChunks_inv; intros k w Hw; exact Hw. Qed.

Lemma buildChunks_shrinking D maxChunks :
  hoare (shrinking D) (HousingWorld.buildChunks maxChunks) (λ _, shrinking D).
Proof.
  apply buildChunks_inv; intros k w [HD Hd]; split;
    cbn [fst snd chunks dirtyChunks HousingWorld.onChunk HousingWorld.dirtyDelete];
    rewrite ?dom_alter_chunks; try done.
  intros j [_ Hj]%list_elem_of_filter. by apply Hd.
Qed.

Lemma buildChunks_keeps k maxChunks :
  hoare (λ w, k ∈ dom (chunks w)) (HousingWorld.buildChunks maxChunks)
    (λ _ w, k ∈ dom (chunks w)).
Proof.
  apply buildChunks_inv; intros j w Hw;
    cbn [fst snd chunks HousingWorld.onChunk HousingWorld.dirtyDelete];
    rewrite ?dom_alter_chunks; done.
Qed.

Lemma unloadAndBuild_generated G p renderDistance maxBuildPerFrame :
  hoare (λ w, generatedColumns w = G)
    (unloadAndBuild p renderDistance maxBuildPerFrame)
    (λ _ w, generatedColumns w = G).
Proof.
  unfold unloadAndBuild.
  eapply hoare_bind with (R := λ _ w, generatedColumns w = G); [by intros w Hw|].
  intros loaded. eapply hoare_bind; [|intros ?; apply buildChunks_generated].
  apply hoare_forM_frame. intros [key chunk] _. apply unload_step_generated.
Qed.

Lemma unloadAndBuild_exec (p : Z * Z) (renderDistance maxBuildPerFrame : Z)
    (w : World) :
  exec (unloadAndBuild p renderDistance maxBuildPerFrame) w
  = exec (HousingWorld.buildChunks (Some maxBuildPerFrame))
      (exec (unloadLoop p (renderDistance + 3) (map_to_list (chunks w))) w).
Proof.
  unfold exec, unloadAndBuild. unfold mbind at 1 2, M_bind at 1 2.
  by destruct (unloadLoop _ _ _ w) as [[] w1].
Qed.

(** The store after unloading and meshing, for a well-formed store. *)
Lemma unloadAndBuild_spec (p : Z * Z) (renderDistance maxBuildPerFrame : Z)
    (w : World) :
  wf w →
  let w' := exec (unloadAndBuild p renderDistance maxBuildPerFrame) w in
  (∀ k, k ∈ dom (chunks w) → chebyshev p (columnOf k) ≤ renderDistance + 3 →
        k ∈ dom (chunks w'))
  ∧ (∀ k, renderDistance + 3 < chebyshev p (columnOf k) →
          (k ∉ dom (chunks w')) ∧ (k ∉ dirtyChunks w')).
Proof.
  intros (Hc & Hd & _) w'. subst w'. rewrite unloadAndBuild_exec.
  generalize (renderDistance + 3). intros limit.
  assert (shrinking (dom (chunks w)) w) as Hshr by done.
  split.
  - intros k Hk Hnear. apply buildChunks_keeps.
    refine (hoare_forM_frame (λ w0, k ∈ dom (chunks w0)) _ _ _ w Hk).
    intros [key chunk] Hin%elem_of_map_to_list. apply unload_step_keeps.
    destruct (decide (key = k)) as [->|Hne]; [right | by left].
    apply not_true_is_false. rewrite (tooFar_key p limit k chunk) by by apply Hc.
    lia.
  - intros k Hfar.
    assert (shrinking (dom (chunks w) ∖ {[k]})
              (exec (unloadLoop p limit (map_to_list (chunks w))) w)) as Hgone.
    { destruct (chunks w !! k) as [c|] eqn:Ek.
      - refine (hoare_forM_one (shrinking (dom (chunks w)))
                  (shrinking (dom (chunks w) ∖ {[k]})) _ (k, c) _ _ _ _ _ _ w Hshr).
        + apply NoDup_map_to_list.
        + by apply elem_of_map_to_list.
        + intros [key chunk] _ _. apply unload_step_shrinking.
        + intros [key chunk] _ _. apply unload_step_shrinking.
        + apply unload_step_removes.
          apply (proj2 (tooFar_key p limit k c (Hc _ _ Ek))). exact Hfar.
      - refine (hoare_forM_frame (shrinking (dom (chunks w) ∖ {[k]})) _ _ _ w _).
        + intros [key chunk] _. apply unload_step_shrinking.
        + split; [|done]. apply not_elem_of_dom in Ek. set_solver. }
    apply (buildChunks_shrinking _ (Some maxBuildPerFrame)) in Hgone as [HD' Hd'].
    assert (k ∉ dom (chunks (exec (HousingWorld.buildChunks (Some maxBuildPerFrame))
              (exec (unloadLoop p limit (map_to_list (chunks w))) w)))) as Hk
      by (intros Hk%HD'; set_solver).
    split; [exact Hk|]. intros Hk'%Hd'. done.
Qed.

Lemma ringLoop_inv (I : World → Prop) (generateChunk : Z → Z → M unit)
    (p : Z * Z) (renderDistance maxGenPerFrame : Z) :
  (∀ cx cz, hoare I (generateChunk cx cz) (λ _, I)) →
  hoare I (ringLoop generateChunk p renderDistance maxGenPerFrame) (λ _, I).
Proof.
  intros Hgen. unfold ringLoop.
  apply hoare_forBreak_frame. intros r n1 _.
  apply hoare_forBreak_frame. intros dx n2 _.
  apply hoare_forBreak_frame. intros dz n3 _.
  destruct (_ && _); [by apply hoare_ret|]. cbv zeta.
  eapply hoare_bind with (R := λ _, I); [intros w Hw; exact Hw|].
  intros [|]; cbn [negb]; [by apply hoare_ret|].
  eapply hoare_bind; [apply Hgen|]. intros ?. by apply hoare_ret.
Qed.

Lemma update_exec (playerX playerZ : Q) (generateChunk : Z → Z → M unit)
    (renderDistance maxGenPerFrame maxBuildPerFrame : Z) (w : World) :
  exec (HousingWorld.update playerX playerZ generateChunk renderDistance
          maxGenPerFrame maxBuildPerFrame) w
  = exec (unloadAndBuild (playerColumn playerX playerZ) renderDistance
            maxBuildPerFrame)
      (exec (ringLoop generateChunk (playerColumn playerX playerZ)
               renderDistance maxGenPerFrame) w).
Proof.
  rewrite update_split. unfold exec. unfold mbind at 1, M_bind at 1.
  by destruct (ringLoop _ _ _ _ w) as [r w1].
Qed.

(** *** Reading back what [set] wrote *)

Lemma get_set_same (w : World) (x y z b : Z) :
  wf w → 0 ≤ y < 256 →
  eval (HousingWorld.get x y z) (exec (HousingWorld.set x y z b) w) = b.
Proof.
  intros Hw Hy. unfold eval, exec. rewrite get_blockAt by done.
  refine (proj2 (set_cell_same
                   (blockAt w (x / 32, y / 32, z / 32)
                      (Chunk.index (x mod 32) (y mod 32) (z mod 32)))
                   ∅ x y z b Hy w _)).
  split; [|reflexivity]. split; [exact Hw | set_solver].
Qed.

Lemma get_set_other (w : World) (x y z b x' y' z' : Z) :
  wf w → (x', y', z') ≠ (x, y, z) →
  eval (HousingWorld.get x' y' z') (exec (HousingWorld.set x y z b) w)
  = eval (HousingWorld.get x' y' z') w.
Proof.
  intros Hw Hne. unfold eval, exec.
  destruct (decide (0 ≤ y' < 256)) as [Hy'|Hy'].
  - rewrite !get_blockAt by done.
    refine (proj2 (set_cell_other (x' / 32, y' / 32, z' / 32)
                     (Chunk.index (x' mod 32) (y' mod 32) (z' mod 32))
                     (blockAt w (x' / 32, y' / 32, z' / 32)
                        (Chunk.index (x' mod 32) (y' mod 32) (z' mod 32)))
                     ∅ x y z b _ w _)).
    + destruct (decide ((x / 32, y / 32, z / 32) = (x' / 32, y' / 32, z' / 32)))
        as [Hk|Hk]; [right | by left].
      intros Hi. apply Hne. symmetry. by apply resolve_inj.
    + split; [|reflexivity]. split; [exact Hw | set_solver].
  - unfold HousingWorld.get, HousingWorld.HEIGHT.
    destruct (Z.ltb_spec y' 0); [done|]. destruct (Z.geb_spec y' 256); [done | lia].
Qed.

(** * The properties of the specification *)

(** ** C1 *)

(** C1. Column generation is idempotent: calling [generateChunk] twice in
    succession on the same column leaves exactly the store (chunk buffers,
    dirty set, generated columns) that one call leaves, because the first
    call sets the generated flag of the column. *)
Theorem generateChunk_idempotent (g : WorldGenerator.t) (w : World)
    (chunkX chunkZ : Z) :
  let once := exec (WorldGenerator.generateChunk g chunkX chunkZ) w in
  eval (HousingWorld.isColumnGenerated chunkX chunkZ) once = true
  ∧ exec (WorldGenerator.generateChunk g chunkX chunkZ) once = once.
Proof.
  intros once.
  pose proof (generateChunk_generated (generatedColumns w) g chunkX chunkZ w eq_refl)
    as H.
  fold (exec (WorldGenerator.generateChunk g chunkX chunkZ) w) in H. fold once in H.
  assert (eval (HousingWorld.isColumnGenerated chunkX chunkZ) once = true) as Hflag.
  { unfold eval, HousingWorld.isColumnGenerated, HousingWorld.columnKey. cbn [fst].
    apply bool_decide_eq_true. rewrite H. set_solver. }
  split; [exact Hflag|].
  unfold exec at 1, WorldGenerator.generateChunk.
  unfold mbind at 1, M_bind at 1.
  unfold eval in Hflag.
  destruct (HousingWorld.isColumnGenerated chunkX chunkZ once) as [b w'] eqn:E.
  cbn [fst] in Hflag. subst b.
  unfold HousingWorld.isColumnGenerated in E. by injection E as _ <-.
Qed.

(** ** C2 *)

(** [Math.round] returns an integer nearest to its argument. *)
Lemma js_round_nearest (q : Q) :
  (inject_Z (js_round q) - (1 # 2) <= q)%Q
  ∧ (q < inject_Z (js_round q) + (1 # 2))%Q.
Proof.
  unfold js_round.
  pose proof (Qfloor_le (q + (1 # 2))) as H1.
  pose proof (Qlt_floor (q + (1 # 2))) as H2.
  rewrite inject_Z_plus in H2. change (inject_Z 1) with 1%Q in H2.
  split; lra.
Qed.

(** C2. On doubles, as the code computes it: the surface height is
    [Math.round] of [minHeight + octave(wx, wz, 6, 0.5, 0.004) × (maxHeight −
    minHeight)], that is, when this double [v] is a finite number, the
    integer [h] nearest to it, [h − 1/2 ≤ v < h + 1/2], and no number
    otherwise; generators constructed with the same seed and height range
    give the same height at every position, whatever their other options
    are; and with the range 48..96 a noise value of one half gives 72. *)
Theorem getSurfaceY_deterministic (g : WorldGenerator.t) (wx wz : float) :
  let n := Binary64.octave (WorldGenerator.noise g) wx wz 6 0.5 Binary64.scale in
  let v := (Binary64.of_Z (WorldGenerator.minHeight g)
            + n * (Binary64.of_Z (WorldGenerator.maxHeight g)
                   - Binary64.of_Z (WorldGenerator.minHeight g)))%float in
  (∀ q, Binary64.exact v = Some q →
     ∃ h, Binary64.getSurfaceY g wx wz = Some h
          ∧ (inject_Z h - (1 # 2) <= q)%Q ∧ (q < inject_Z h + (1 # 2))%Q)
  ∧ (Binary64.exact v = None → Binary64.getSurfaceY g wx wz = None)
  ∧ (∀ o1 o2,
       default 12345 (opt_seed o1) = default 12345 (opt_seed o2) →
       default 48 (opt_minHeight o1) = default 48 (opt_minHeight o2) →
       default 96 (opt_maxHeight o1) = default 96 (opt_maxHeight o2) →
       Binary64.getSurfaceY (WorldGenerator.new o1) wx wz
       = Binary64.getSurfaceY (WorldGenerator.new o2) wx wz)
  ∧ (WorldGenerator.minHeight g = 48 → WorldGenerator.maxHeight g = 96 →
     n = 0.5%float → Binary64.getSurfaceY g wx wz = Some 72).
Proof.
  intros n v. split; [|split; [|split]].
  - intros q Hq. exists (js_round q). split; [|apply js_round_nearest].
    unfold Binary64.getSurfaceY, Binary64.round. fold n v. by rewrite Hq.
  - intros Hv. unfold Binary64.getSurfaceY, Binary64.round. fold n v.
    by rewrite Hv.
  - intros o1 o2 Hs Hmin Hmax.
    unfold Binary64.getSurfaceY, WorldGenerator.new.
    cbn [WorldGenerator.noise WorldGenerator.minHeight WorldGenerator.maxHeight].
    by rewrite Hs, Hmin, Hmax.
  - intros Hmin Hmax Hn. unfold Binary64.getSurfaceY. fold n.
    rewrite Hn, Hmin, Hmax. vm_compute. reflexivity.
Qed.

(** At an ordinary position the height on doubles is the height in exact
    arithmetic. *)
Example getSurfaceY_readings_agree :
  let g := WorldGenerator.new defaultOptions in
  Binary64.getSurfaceY g 100 (-50) = Some 70
  ∧ WorldGenerator.getSurfaceY g 100 (-50) = Some 70.
Proof. split; vm_compute; reflexivity. Qed.

(** ** C3 *)

(** The layering examples of the specification, at sea level 62: a beach
    column of surface 60 and an inland column of surface 80. *)
Example terrainBlock_examples :
  let g := WorldGenerator.new defaultOptions in
  WorldGenerator.terrainBlock g 60 <$> [0; 60; 59; 40]
  = [BLK.BEDROCK; BLK.SAND; BLK.SAND; BLK.STONE]
  ∧ WorldGenerator.terrainBlock g 80 <$> [80; 77; 50]
    = [BLK.GRASS; BLK.DIRT; BLK.STONE].
Proof. split; vm_compute; reflexivity. Qed.

(** The terrain of [flat3] is flat at height 3. *)
Lemma flat3_surface (chunkX chunkZ lx lz : Z) :
  0 ≤ lx < 32 → 0 ≤ lz < 32 → columnSurface flat3 chunkX chunkZ lx lz = 3.
Proof.
  intros Hlx Hlz. unfold columnSurface.
  destruct (heightmap_at flat3 (chunkX * WorldGenerator.cs)
              (chunkZ * WorldGenerator.cs) lx lz Hlx Hlz) as (-> & _).
  by rewrite (getSurfaceY_flat flat3 _ _ eq_refl eq_refl).
Qed.

(** C3, as worded, fails on the code in two places.  In a column of surface
    height 3 the cell at height 0 lies within four of the surface, where the
    third clause asks for sand on a beach, and the code wrote bedrock.  In
    a column of surface height 2^31 + 5 the [Int32Array] holds a negative
    height: the code wrote nothing, and the cell at height 0 is empty where
    the first clause asks for bedrock. *)
Lemma layering_counterexample :
  (WorldGenerator.getSurfaceY flat3 0 0 = Some 3
   ∧ (3 <=? WorldGenerator.seaLevel flat3 + 2) = true
   ∧ eval (HousingWorld.get 0 0 0) (afterTerrain flat3 0 0 HousingWorld.empty)
     = BLK.BEDROCK)
  ∧ (WorldGenerator.getSurfaceY towering 0 0 = Some (2 ^ 31 + 5)
     ∧ eval (HousingWorld.get 0 0 0)
         (afterTerrain towering 0 0 HousingWorld.empty)
       = BLK.AIR)
  ∧ ¬ layering_literal.
Proof.
  assert (0 ≤ 0 < 32) as H0 by lia. assert (0 ≤ 0 < 256) as HY by lia.
  assert (WorldGenerator.getSurfaceY flat3 (0 * 32 + 0) (0 * 32 + 0) = Some 3)
    as Hs by exact (getSurfaceY_flat flat3 _ _ eq_refl eq_refl).
  assert (eval (HousingWorld.get (0 * 32 + 0) 0 (0 * 32 + 0))
            (afterTerrain flat3 0 0 HousingWorld.empty)
          = BLK.BEDROCK) as Hcode.
  { destruct (terrain_get_surface flat3 HousingWorld.empty 0 0 0 0 0 3 wf_empty
                H0 H0 HY Hs ltac:(lia)) as [_ H].
    rewrite H. reflexivity. }
  assert (WorldGenerator.getSurfaceY towering (0 * 32 + 0) (0 * 32 + 0)
          = Some (2 ^ 31 + 5)) as Hs'
    by exact (getSurfaceY_flat towering _ _ eq_refl eq_refl).
  assert (eval (HousingWorld.get (0 * 32 + 0) 0 (0 * 32 + 0))
            (afterTerrain towering 0 0 HousingWorld.empty) = BLK.AIR) as Hcode'.
  { destruct (terrain_get_surface towering HousingWorld.empty 0 0 0 0 0 (2 ^ 31 + 5)
                wf_empty H0 H0 HY Hs' ltac:(lia)) as [_ H].
    rewrite H. reflexivity. }
  split; [exact (conj Hs (conj eq_refl Hcode))|].
  split; [exact (conj Hs' Hcode')|].
  intros Hlit.
  destruct (Hlit flat3 HousingWorld.empty 0 0 0 0 0 3 wf_empty H0 H0 HY Hs)
    as [H _].
  destruct (H ltac:(lia)) as (_ & _ & Hsand & _).
  specialize (Hsand ltac:(lia)). rewrite Hcode in Hsand. discriminate Hsand.
Qed.

(** C3, amended. After the terrain loop of a column, at a position whose
    surface height [surface] is a 32-bit integer (so that the [Int32Array]
    of heights holds it unchanged), the cell at height [Y] holds, when
    [Y ≤ surface]: bedrock if [Y = 0]; stone if [0 < Y < surface − 4]; for
    [Y > 0] with [surface − 4 ≤ Y < surface], sand on a beach and dirt
    otherwise; for [Y = surface > 0], sand on a beach and grass otherwise.
    Above the surface the cell is as it was before. *)
Theorem terrain_layering (g : WorldGenerator.t) (w : World)
    (chunkX chunkZ lx lz Y surface : Z) :
  wf w → 0 ≤ lx < 32 → 0 ≤ lz < 32 → 0 ≤ Y < 256 →
  WorldGenerator.getSurfaceY g (chunkX * 32 + lx) (chunkZ * 32 + lz)
  = Some surface →
  - 2 ^ 31 ≤ surface < 2 ^ 31 →
  let x := chunkX * 32 + lx in
  let z := chunkZ * 32 + lz in
  let isBeach := surface <=? WorldGenerator.seaLevel g + 2 in
  let after := eval (HousingWorld.get x Y z) (afterTerrain g chunkX chunkZ w) in
  (Y ≤ surface →
     (Y = 0 → after = BLK.BEDROCK)
     ∧ (0 < Y < surface - 4 → after = BLK.STONE)
     ∧ (0 < Y → surface - 4 ≤ Y < surface →
          after = if isBeach then BLK.SAND else BLK.DIRT)
     ∧ (0 < Y → Y = surface →
          after = if isBeach then BLK.SAND else BLK.GRASS))
  ∧ (surface < Y → after = eval (HousingWorld.get x Y z) w).
Proof.
  intros Hw Hlx Hlz HY Hs Hr x z isBeach after.
  destruct (terrain_get_surface g w chunkX chunkZ lx lz Y surface Hw Hlx Hlz HY Hs)
    as [_ H]; [lia|].
  rewrite to_int32_small in H by done. fold x z after in H.
  split.
  - intros Hle. rewrite bool_decide_true in H by done.
    unfold WorldGenerator.terrainBlock in H. fold isBeach in H.
    repeat split.
    + intros ->. exact H.
    + intros [H0 H4]. destruct (Z.eqb_spec Y 0); [lia|].
      destruct (Z.ltb_spec Y (surface - 4)); [exact H | lia].
    + intros H0 [H4 Hs']. destruct (Z.eqb_spec Y 0); [lia|].
      destruct (Z.ltb_spec Y (surface - 4)); [lia|].
      destruct (Z.ltb_spec Y surface); [exact H | lia].
    + intros H0 Hs'. destruct (Z.eqb_spec Y 0); [lia|].
      destruct (Z.ltb_spec Y (surface - 4)); [lia|].
      destruct (Z.ltb_spec Y surface); [lia | exact H].
  - intros Hgt. rewrite bool_decide_false in H by lia. exact H.
Qed.

(** The theorem on a flat column of surface height 70, away from the beach,
    generated into an empty store: bedrock, stone, dirt and grass from the
    bottom up, and nothing above the grass. *)
Lemma terrain_layering_witness :
  let after := afterTerrain plateau 0 0 HousingWorld.empty in
  wf HousingWorld.empty
  ∧ WorldGenerator.getSurfaceY plateau 5 7 = Some 70
  ∧ eval (HousingWorld.get 5 0 7) after = BLK.BEDROCK
  ∧ eval (HousingWorld.get 5 10 7) after = BLK.STONE
  ∧ eval (HousingWorld.get 5 68 7) after = BLK.DIRT
  ∧ eval (HousingWorld.get 5 70 7) after = BLK.GRASS
  ∧ eval (HousingWorld.get 5 71 7) after
    = eval (HousingWorld.get 5 71 7) HousingWorld.empty.
Proof.
  intros after.
  assert (WorldGenerator.getSurfaceY plateau (0 * 32 + 5) (0 * 32 + 7) = Some 70)
    as Hs by exact (getSurfaceY_flat plateau _ _ eq_refl eq_refl).
  assert (- 2 ^ 31 ≤ 70 < 2 ^ 31) as Hr by lia.
  assert (0 ≤ 5 < 32) as H5 by lia. assert (0 ≤ 7 < 32) as H7 by lia.
  pose proof (λ Y HY, terrain_layering plateau HousingWorld.empty 0 0 5 7 Y 70
                        wf_empty H5 H7 HY Hs Hr) as T.
  cbv zeta in T. fold after in T.
  change (70 <=? WorldGenerator.seaLevel plateau + 2) with false in T.
  change (0 * 32 + 5) with 5 in *. change (0 * 32 + 7) with 7 in *.
  split; [exact wf_empty|]. split; [exact Hs|].
  split; [|split; [|split; [|split]]].
  - destruct (T 0 ltac:(lia)) as [H _]. destruct (H ltac:(lia)) as (H0 & _).
    exact (H0 eq_refl).
  - destruct (T 10 ltac:(lia)) as [H _]. destruct (H ltac:(lia)) as (_ & H0 & _).
    exact (H0 ltac:(lia)).
  - destruct (T 68 ltac:(lia)) as [H _]. destruct (H ltac:(lia)) as (_ & _ & H0 & _).
    exact (H0 ltac:(lia) ltac:(lia)).
  - destruct (T 70 ltac:(lia)) as [H _]. destruct (H ltac:(lia)) as (_ & _ & _ & H0).
    exact (H0 ltac:(lia) eq_refl).
  - destruct (T 71 ltac:(lia)) as [_ H]. exact (H ltac:(lia)).
Defined.

(** ** C4 *)

(** C4. World coordinates resolve to chunk and local coordinates by floor
    division by [Chunk.SIZE = 32]: the two recompose to the world coordinate,
    the local one lies in [0, 32), also for negative coordinates; and
    through this resolution [get] reads back what [set] wrote at a position
    and nothing that was written at another. *)
Theorem coordinate_resolution (c : Z) :
  let chunkCoord := floor_div c Chunk.SIZE in
  let localCoord := c - chunkCoord * Chunk.SIZE in
  Chunk.SIZE = 32
  ∧ chunkCoord * Chunk.SIZE + localCoord = c
  ∧ 0 ≤ localCoord < Chunk.SIZE
  ∧ (∀ (w : World) (x y z b : Z),
       wf w → 0 ≤ y < HousingWorld.HEIGHT →
       eval (HousingWorld.get x y z) (exec (HousingWorld.set x y z b) w) = b
       ∧ ∀ x' y' z', (x', y', z') ≠ (x, y, z) →
           eval (HousingWorld.get x' y' z') (exec (HousingWorld.set x y z b) w)
           = eval (HousingWorld.get x' y' z') w).
Proof.
  intros chunkCoord localCoord. subst chunkCoord localCoord.
  rewrite floor_div_chunk. unfold Chunk.SIZE.
  pose proof (Z.mod_pos_bound c 32). pose proof (Z.div_mod c 32).
  split; [reflexivity|]. split; [lia|]. split; [lia|].
  intros w x y z b Hw Hy. split.
  - by apply get_set_same.
  - intros x' y' z' Hne. by apply get_set_other.
Qed.

(** The theorem at a negative coordinate. *)
Lemma coordinate_resolution_witness :
  floor_div (-33) Chunk.SIZE = -2
  ∧ wf HousingWorld.empty ∧ 0 ≤ 5 < HousingWorld.HEIGHT
  ∧ eval (HousingWorld.get (-33) 5 (-1))
      (exec (HousingWorld.set (-33) 5 (-1) BLK.STONE) HousingWorld.empty)
    = BLK.STONE.
Proof.
  split; [reflexivity|]. split; [exact wf_empty|].
  split; [unfold HousingWorld.HEIGHT; lia|].
  destruct (coordinate_resolution (-33)) as (_ & _ & _ & H).
  apply (H HousingWorld.empty (-33) 5 (-1) BLK.STONE wf_empty).
  unfold HousingWorld.HEIGHT. lia.
Defined.

(** ** C5 *)

(** C5. Outside the vertical bounds, [y < 0] or [y ≥ HEIGHT = 256], [get]
    returns the empty block 0 and [set] leaves the whole store as it is;
    neither changes the store. *)
Theorem out_of_bounds_access (w : World) (x y z b : Z) :
  y < 0 ∨ HousingWorld.HEIGHT ≤ y →
  HousingWorld.HEIGHT = 256
  ∧ HousingWorld.get x y z w = (0, w)
  ∧ HousingWorld.set x y z b w = (tt, w).
Proof.
  intros Hy. split; [reflexivity|].
  unfold HousingWorld.get, HousingWorld.set.
  assert ((y <? 0) || (y >=? HousingWorld.HEIGHT) = true) as ->; [|done].
  apply orb_true_iff. rewrite Z.ltb_lt, Z.geb_le. lia.
Qed.

(** The theorem at [y = −1] and at [y = HEIGHT]. *)
Lemma out_of_bounds_access_witness :
  (-1 < 0 ∨ HousingWorld.HEIGHT ≤ -1)
  ∧ HousingWorld.get 7 (-1) 7 stoneAtCap = (0, stoneAtCap)
  ∧ HousingWorld.set 7 (-1) 7 BLK.STONE stoneAtCap = (tt, stoneAtCap)
  ∧ HousingWorld.get 7 256 7 stoneAtCap = (0, stoneAtCap)
  ∧ HousingWorld.set 7 256 7 BLK.STONE stoneAtCap = (tt, stoneAtCap).
Proof.
  split; [left; lia|].
  destruct (out_of_bounds_access stoneAtCap 7 (-1) 7 BLK.STONE) as (_ & H1 & H2);
    [left; lia|].
  destruct (out_of_bounds_access stoneAtCap 7 256 7 BLK.STONE) as (_ & H3 & H4);
    [right; unfold HousingWorld.HEIGHT; lia|].
  repeat split; assumption.
Defined.

(** ** C6 *)

(** In exact arithmetic the bound holds for the noise field of any seed:
    [sample] reads the permutation table within its bounds and returns a
    value in [0, 1] for all rational [x], [z]; and [octave] returns a value
    in [0, 1] for every scale, every octave count of at least one and every
    persistence that is not negative.  What exceeds the bound on doubles is
    rounding. *)
Lemma noise_bounded_exact (seed : Z) (x z : Q) :
  (∃ v, ValueNoise.sample (ValueNoise.new seed) x z = Some v ∧ (0 <= v <= 1)%Q)
  ∧ ∀ (octaves : Z) (persistence scale : Q),
      1 ≤ octaves → (0 <= persistence)%Q →
      ∃ v, ValueNoise.octave (ValueNoise.new seed) x z octaves persistence scale
           = Some v
           ∧ (0 <= v <= 1)%Q.
Proof.
  split; [apply sample_new|]. intros octaves persistence scale Ho Hp.
  by apply octave_new.
Qed.

(** On doubles too, every read of [sample] is inside the permutation
    table, for every seed and all arguments: the indices come from [& 255]
    and from table entries, which are bytes. *)
Lemma sample_reads_in_bounds (seed : Z) (x z : float) :
  let n := ValueNoise.new seed in
  let xi := Binary64.band (Binary64.floor x) 255 in
  let zi := Binary64.band (Binary64.floor z) 255 in
  ∃ pa pb,
    ValueNoise.at_ n xi = Some pa ∧ ValueNoise.at_ n (xi + 1) = Some pb
    ∧ is_Some (ValueNoise.at_ n (pa + zi))
    ∧ is_Some (ValueNoise.at_ n (pb + zi))
    ∧ is_Some (ValueNoise.at_ n (pa + zi + 1))
    ∧ is_Some (ValueNoise.at_ n (pb + zi + 1)).
Proof.
  intros n xi zi. subst n.
  pose proof (land255_bounds (Binary64.toInt32 (Binary64.floor x))) as Hx.
  pose proof (land255_bounds (Binary64.toInt32 (Binary64.floor z))) as Hz.
  change (Z.land (Binary64.toInt32 (Binary64.floor x)) 255) with xi in Hx.
  change (Z.land (Binary64.toInt32 (Binary64.floor z)) 255) with zi in Hz.
  destruct (at_new seed xi) as (pa & Hpa & ?); [lia|].
  destruct (at_new seed (xi + 1)) as (pb & Hpb & ?); [lia|].
  exists pa, pb. split; [exact Hpa|]. split; [exact Hpb|].
  destruct (at_new seed (pa + zi)) as (? & -> & _); [lia|].
  destruct (at_new seed (pb + zi)) as (? & -> & _); [lia|].
  destruct (at_new seed (pa + zi + 1)) as (? & -> & _); [lia|].
  destruct (at_new seed (pb + zi + 1)) as (? & -> & _); [lia|].
  by repeat split.
Qed.

(** C6 does not hold of the code, whose own documentation states the
    bound: [sample] is documented as smooth value noise in [0, 1], and
    [octave] as fractal octave noise in [0, 1].  On doubles [fade] exceeds
    1 just below 1, and [sample] leaves the unit interval on both sides;
    [octave] passes the value on, divides zero by zero when there is no
    octave, and exceeds 1 when the persistence is negative.  The first
    octave of [getSurfaceY(249.99999999999997, 43000)] calls [sample] with
    the first input, [(0.9999999999999999, 172)]. *)
Theorem sample_leaves_unit_interval :
  let n := ValueNoise.new 12345 in
  let x := 0x1.fffffffffffffp-1%float in
  (0x1.f3fffffffffffp+7 * Binary64.scale)%float = x
  ∧ (43000 * Binary64.scale)%float = 172%float
  ∧ Binary64.fade x = 0x1.0000000000006p+0%float
  ∧ Binary64.sample n x 172 = 0x1.0000000000005p+0%float
  ∧ (1 <? Binary64.sample n x 172)%float = true
  ∧ (Binary64.sample n x 192 <? 0)%float = true
  ∧ (1 <? Binary64.octave n x 172 1 0.5 1)%float = true
  ∧ is_nan (Binary64.octave n x 172 0 0.5 1) = true
  ∧ (1 <? Binary64.octave n 175 147 2 (-0.5) 1)%float = true.
Proof. repeat split; vm_compute; reflexivity. Qed.

(** ** C7 *)

(** The leaf layers are guarded: a cell that is not empty keeps its block
    through them. *)
Lemma leafLayers_guarded (w : World) (a b c x z leafBase seed : Z) :
  wf w → 0 ≤ b < 256 → eval (HousingWorld.get a b c) w ≠ OakTree.AIR →
  eval (HousingWorld.get a b c) (exec (run (OakTree.leafLayers x z leafBase) seed) w)
  = eval (HousingWorld.get a b c) w.
Proof.
  intros Hw Hb Hv. unfold eval, exec in *. rewrite !get_blockAt in * by done.
  refine (proj2 (leafLayers_keeps a b c _ ∅ x z leafBase seed Hb Hv w _)).
  split; [|reflexivity]. split; [exact Hw | set_solver].
Qed.

(** C7 does not hold of the code: the cap leaf is written without the test
    for an empty cell that guards the leaf layers.  A stone block in the cap
    cell of a tree is replaced by leaves. *)
Theorem oak_cap_overwrites :
  eval (HousingWorld.get 0 12 0) stoneAtCap = BLK.STONE
  ∧ eval (HousingWorld.get 0 12 0)
      (exec (run (OakTree.generate 0 4 0) 12345) stoneAtCap)
    = OakTree.OAK_LEAVES.
Proof. split; vm_compute; reflexivity. Qed.

(** ** C8 *)



(** ** C9 *)

(** [set] within the vertical bounds loads the chunk of its position and
    keeps the store well formed. *)
Lemma set_dom (w : World) (x y z b : Z) :
  0 ≤ y < 256 →
  dom (chunks (exec (HousingWorld.set x y z b) w))
  = {[(x / 32, y / 32, z / 32)]} ∪ dom (chunks w).
Proof.
  intros Hy. unfold exec, HousingWorld.set, HousingWorld.HEIGHT.
  destruct (Z.ltb_spec y 0); [lia|]. destruct (Z.geb_spec y 256); [lia|].
  cbn [orb]. rewrite !floor_div_chunk.
  unfold mbind, M_bind, HousingWorld.getOrCreateChunk, HousingWorld.markDirty,
    HousingWorld.onChunk, HousingWorld.dirtyAdd, HousingWorld.chunkKey, mbind, M_bind.
  destruct (chunks w !! (x / 32, y / 32, z / 32)) as [c|] eqn:E;
    cbn [fst snd chunks]; rewrite !dom_alter_chunks.
  - apply elem_of_dom_2 in E. set_solver.
  - apply dom_insert_L.
Qed.

Lemma set_loads (w : World) (x y z b : Z) :
  wf w → 0 ≤ y < 256 →
  let w' := exec (HousingWorld.set x y z b) w in
  wf w' ∧ dom (chunks w) ⊆ dom (chunks w')
  ∧ (x / 32, y / 32, z / 32) ∈ dom (chunks w').
Proof.
  intros Hw Hy w'. subst w'.
  destruct (set_loaded_inv ∅ x y z b w) as [Hw' _]; [split; [done | set_solver]|].
  split; [exact Hw'|]. rewrite set_dom by done. set_solver.
Qed.

Lemma wf_twoChunks :
  wf twoChunks ∧ (2, 0, 0) ∈ dom (chunks twoChunks)
  ∧ (6, 0, 0) ∈ dom (chunks twoChunks).
Proof.
  unfold twoChunks.
  destruct (set_loads HousingWorld.empty 64 0 0 BLK.STONE wf_empty) as (H1 & _ & H2);
    [lia|].
  destruct (set_loads _ 200 0 0 BLK.STONE H1) as (H3 & H4 & H5); [lia|].
  split; [exact H3|]. split; [apply H4, H2 | exact H5].
Qed.

(** C9. With the unload margin 3 of the source: a chunk loaded before an
    [update] whose column is within Chebyshev distance [renderDistance + 3]
    of the player's column is still loaded after it, in particular a chunk
    at distance [renderDistance + 1]; and after the call no chunk at a
    greater distance is in the chunk map or in the dirty set. *)
Theorem unload_hysteresis (g : WorldGenerator.t) (w : World)
    (playerX playerZ : Q) (renderDistance maxGenPerFrame maxBuildPerFrame : Z) :
  wf w →
  let p := playerColumn playerX playerZ in
  let w' := exec (HousingWorld.update playerX playerZ
                    (WorldGenerator.generateChunk g) renderDistance
                    maxGenPerFrame maxBuildPerFrame) w in
  (∀ k, k ∈ dom (chunks w) →
        chebyshev p (columnOf k) ≤ renderDistance + 3 → k ∈ dom (chunks w'))
  ∧ (∀ k, k ∈ dom (chunks w) →
          chebyshev p (columnOf k) = renderDistance + 1 → k ∈ dom (chunks w'))
  ∧ (∀ k, renderDistance + 3 < chebyshev p (columnOf k) →
          (k ∉ dom (chunks w')) ∧ (k ∉ dirtyChunks w')).
Proof.
  intros Hw p w'. subst w'. rewrite update_exec. fold p.
  destruct (ringLoop_inv (loaded_inv (dom (chunks w)))
              (WorldGenerator.generateChunk g) p renderDistance maxGenPerFrame
              (generateChunk_loaded_inv (dom (chunks w)) g) w) as [Hw1 HD];
    [by split|].
  fold (exec (ringLoop (WorldGenerator.generateChunk g) p renderDistance
                maxGenPerFrame) w) in Hw1, HD.
  destruct (unloadAndBuild_spec p renderDistance maxBuildPerFrame _ Hw1)
    as [Hkeep Hgone].
  assert (∀ k, k ∈ dom (chunks w) →
            chebyshev p (columnOf k) ≤ renderDistance + 3 →
            k ∈ dom (chunks (exec (unloadAndBuild p renderDistance maxBuildPerFrame)
                               (exec (ringLoop (WorldGenerator.generateChunk g) p
                                        renderDistance maxGenPerFrame) w)))) as H.
  { intros k Hk Hnear. apply Hkeep; [by apply HD | done]. }
  split; [exact H|]. split; [|exact Hgone].
  intros k Hk Hd. apply H; [done | lia].
Qed.

(** The theorem around the origin with render distance 1: the chunk of
    column (2, 0) stays, the chunk of column (6, 0) goes. *)
Lemma unload_hysteresis_witness :
  wf twoChunks
  ∧ (2, 0, 0) ∈ dom (chunks (exec (HousingWorld.update 0 0
                                     (WorldGenerator.generateChunk flat3) 1 1 2)
                               twoChunks))
  ∧ (6, 0, 0) ∉ dom (chunks (exec (HousingWorld.update 0 0
                                     (WorldGenerator.generateChunk flat3) 1 1 2)
                               twoChunks)).
Proof.
  destruct wf_twoChunks as (Hw & H2 & H6). split; [exact Hw|].
  destruct (unload_hysteresis flat3 twoChunks 0 0 1 1 2 Hw) as (_ & Hkeep & Hgone).
  assert (chebyshev (playerColumn 0 0) (columnOf (2, 0, 0)) = 1 + 1) as Hnear
    by (vm_compute; reflexivity).
  assert (1 + 3 < chebyshev (playerColumn 0 0) (columnOf (6, 0, 0))) as Hfar
    by (vm_compute; reflexivity).
  split; [exact (Hkeep _ H2 Hnear) | exact (proj1 (Hgone _ Hfar))].
Defined.

(** ** C10 *)

(** C10. [get] is read-only: it leaves the store as it is, in particular it
    creates no chunk where there is none and returns 0 there; a second call
    returns what the first returned. *)
Theorem get_read_only (w : World) (x y z : Z) :
  exec (HousingWorld.get x y z) w = w
  ∧ eval (HousingWorld.get x y z) (exec (HousingWorld.get x y z) w)
    = eval (HousingWorld.get x y z) w
  ∧ (chunks w !! (floor_div x Chunk.SIZE, floor_div y Chunk.SIZE,
                  floor_div z Chunk.SIZE) = None →
     HousingWorld.get x y z w = (0, w)).
Proof.
  assert (exec (HousingWorld.get x y z) w = w) as H by apply get_state.
  split; [exact H|]. split; [by rewrite H|].
  intros Hnone. unfold HousingWorld.get.
  destruct ((y <? 0) || (y >=? HousingWorld.HEIGHT)); [done|].
  unfold mbind, M_bind, HousingWorld.getChunk, HousingWorld.chunkKey.
  by rewrite Hnone.
Qed.

(** The theorem on a store that holds one chunk, read outside that chunk. *)
Lemma get_read_only_witness :
  chunks stoneAtCap !! (floor_div 100 Chunk.SIZE, floor_div 12 Chunk.SIZE,
                        floor_div 0 Chunk.SIZE) = None
  ∧ HousingWorld.get 100 12 0 stoneAtCap = (0, stoneAtCap).
Proof.
  assert (chunks stoneAtCap !! (floor_div 100 Chunk.SIZE, floor_div 12 Chunk.SIZE,
                                floor_div 0 Chunk.SIZE) = None) as H
    by (vm_compute; reflexivity).
  split; [exact H|].
  apply (proj2 (proj2 (get_read_only stoneAtCap 100 12 0))). exact H.
Defined.

(** * Further properties of the code *)

(** ** Accesses outside the vertical bounds *)

Lemma out_of_bounds_frame (w : World) (x y z b : Z) :
  ¬ (0 ≤ y < 256) →
  HousingWorld.get x y z w = (0, w)
  ∧ HousingWorld.set x y z b w = (tt, w)
  ∧ exec (HousingWorld.set x y z b) w = w.
Proof.
  intros Hy. unfold exec, HousingWorld.get, HousingWorld.set, HousingWorld.HEIGHT.
  assert ((y <? 0) || (y >=? 256) = true) as ->; [|done].
  apply orb_true_iff. rewrite Z.ltb_lt, Z.geb_le. lia.
Qed.

(** ** The PRNG *)

Lemma to_uint32_range (n : Z) : 0 ≤ to_uint32 n < 2 ^ 32.
Proof. unfold to_uint32. apply Z.mod_pos_bound. lia. Qed.

Lemma to_int32_range (n : Z) : - 2 ^ 31 ≤ to_int32 n < 2 ^ 31.
Proof.
  unfold to_int32. pose proof (Z.mod_pos_bound (n + 2 ^ 31) (2 ^ 32)). lia.
Qed.

(** A draw is a 32-bit numerator over 2³². *)
Lemma rand_unit (seed : Z) :
  (0 <= (mulberry32 seed).1)%Q ∧ ((mulberry32 seed).1 < 1)%Q.
Proof.
  unfold mulberry32. cbn [fst].
  match goal with |- context [inject_Z (to_uint32 ?t)] =>
    pose proof (to_uint32_range t) as [H0 H1]; generalize dependent (to_uint32 t)
  end.
  intros k H0 H1. split.
  - apply Qle_shift_div_l; [reflexivity|]. rewrite Qmult_0_l.
    change 0%Q with (inject_Z 0). by rewrite <- Zle_Qle.
  - apply Qlt_shift_div_r; [reflexivity|]. rewrite Qmult_1_l.
    change 4294967296%Q with (inject_Z 4294967296). rewrite <- Zlt_Qlt. lia.
Qed.

(** [Math.floor(r * n)] for [r] in [0, 1). *)
Lemma floor_scale_range (r : Q) (n : Z) :
  (0 <= r)%Q → (r < 1)%Q → 0 < n → 0 ≤ Qfloor (r * inject_Z n) < n.
Proof.
  intros H0 H1 Hn.
  assert (0 < inject_Z n)%Q as Hn' by (change 0%Q with (inject_Z 0); by rewrite <- Zlt_Qlt).
  assert (0 <= r * inject_Z n)%Q as Hlo by (apply Qmult_le_0_compat; lra).
  assert (r * inject_Z n < inject_Z n)%Q as Hhi.
  { rewrite <- (Qmult_1_l (inject_Z n)) at 2. apply Qmult_lt_compat_r; done. }
  pose proof (Qfloor_le (r * inject_Z n)) as Hf1.
  pose proof (Qlt_floor (r * inject_Z n)) as Hf2.
  rewrite inject_Z_plus in Hf2. change (inject_Z 1) with 1%Q in Hf2.
  split.
  - assert (inject_Z (-1) < inject_Z (Qfloor (r * inject_Z n)))%Q as H
      by (change (inject_Z (-1)) with (-1)%Q; lra).
    rewrite <- Zlt_Qlt in H. lia.
  - rewrite Zlt_Qlt. lra.
Qed.

Lemma rand_index (seed n : Z) :
  0 < n → 0 ≤ Qfloor ((mulberry32 seed).1 * inject_Z n) < n.
Proof. intros Hn. destruct (rand_unit seed). by apply floor_scale_range. Qed.

(** X1. A draw of [mulberry32] lies in [0, 1), the seed it leaves in the
    closure is a 32-bit integer, and [Math.floor(rand() * n)] is an index
    below [n]. *)
Theorem mulberry32_range (seed n : Z) :
  0 < n →
  (0 <= (mulberry32 seed).1 < 1)%Q
  ∧ - 2 ^ 31 ≤ (mulberry32 seed).2 < 2 ^ 31
  ∧ 0 ≤ Qfloor ((mulberry32 seed).1 * inject_Z n) < n.
Proof.
  intros Hn. split; [apply rand_unit|]. split; [|by apply rand_index].
  unfold mulberry32. cbn [snd]. apply to_int32_range.
Qed.

Lemma mulberry32_range_witness :
  0 < 3 ∧ 0 ≤ Qfloor ((mulberry32 12345).1 * inject_Z 3) < 3.
Proof. split; [lia|]. apply (mulberry32_range 12345 3). lia. Defined.

(** ** The permutation table *)

Lemma shuffle_step_perm (st : list Z * Z) (i : nat) :
  (i < length st.1)%nat →
  (ValueNoise.shuffle_step st i).1 ≡ₚ st.1.
Proof.
  destruct st as [p s]. unfold ValueNoise.shuffle_step. cbn [fst].
  pose proof (rand_index s (Z.of_nat i + 1)) as Hj.
  destruct (mulberry32 s) as [r s']. cbn [fst] in *. intros Hi.
  specialize (Hj ltac:(lia)).
  set (j := Z.to_nat (Qfloor (r * inject_Z (Z.of_nat i + 1)))) in *.
  assert (j < length p)%nat as Hjl by lia.
  apply Permutation_insert_swap; by apply list_lookup_lookup_total_lt.
Qed.

Lemma shuffle_perm (seed : Z) : ValueNoise.shuffle seed ≡ₚ seqZ 0 256.
Proof.
  unfold ValueNoise.shuffle.
  assert (∀ l st, Forall (λ i, i < length st.1)%nat l →
            (foldl ValueNoise.shuffle_step st l).1 ≡ₚ st.1) as H.
  { induction l as [|i l IH]; intros st Hl; cbn [foldl]; [done|].
    apply Forall_cons in Hl as [Hi Hl].
    pose proof (shuffle_step_perm st i Hi) as Hp.
    rewrite IH; [done|]. rewrite (Permutation_length Hp). done. }
  apply (H _ (seqZ 0 256, seed)). cbn [fst]. rewrite length_seqZ.
  apply Forall_forall. intros i Hi%elem_of_reverse%elem_of_seq. lia.
Qed.

(** X2. The Fisher-Yates loop of the constructor yields a permutation of
    0..255 for every seed: each byte occurs once in the table [p]. *)
Theorem shuffle_is_permutation (seed : Z) :
  ValueNoise.shuffle seed ≡ₚ seqZ 0 256
  ∧ NoDup (ValueNoise.shuffle seed)
  ∧ ∀ v, 0 ≤ v < 256 → v ∈ ValueNoise.shuffle seed.
Proof.
  pose proof (shuffle_perm seed) as H. split; [exact H|]. split.
  - rewrite H. apply NoDup_seqZ.
  - intros v Hv. rewrite H. apply elem_of_seqZ. lia.
Qed.

Lemma shuffle_is_permutation_witness :
  0 ≤ 255 < 256 ∧ 255 ∈ ValueNoise.shuffle 12345.
Proof. split; [lia|]. apply (shuffle_is_permutation 12345). lia. Defined.

(** X3. The table [perm] of a noise field has 512 entries and repeats the
    shuffled table twice: [perm[i] = perm[i + 256] = p[i]] for [i] below
    256. *)
Theorem perm_doubled (seed i : Z) :
  0 ≤ i < 256 →
  length (ValueNoise.perm (ValueNoise.new seed)) = 512%nat
  ∧ ValueNoise.at_ (ValueNoise.new seed) i
    = Some (ValueNoise.shuffle seed !!! Z.to_nat i)
  ∧ ValueNoise.at_ (ValueNoise.new seed) (i + 256)
    = ValueNoise.at_ (ValueNoise.new seed) i.
Proof.
  intros Hi. split; [apply perm_new|].
  assert (∀ k, 0 ≤ k < 512 →
            ValueNoise.at_ (ValueNoise.new seed) k
            = Some (ValueNoise.shuffle seed !!! Z.to_nat (Z.land k 255))) as H.
  { intros k Hk. unfold ValueNoise.at_, ValueNoise.new. cbn [ValueNoise.perm].
    destruct (Z.leb_spec 0 k); [|lia].
    rewrite list_lookup_fmap, lookup_seqZ_lt by lia. cbn [fmap option_fmap option_map].
    replace (0 + Z.of_nat (Z.to_nat k)) with k by lia. reflexivity. }
  assert (∀ k, Z.land k 255 = k mod 256) as Hland.
  { intros k. change 255 with (Z.ones 8). by rewrite Z.land_ones by lia. }
  rewrite !H by lia. rewrite !Hland.
  replace ((i + 256) mod 256) with i; [|apply (Z.mod_unique _ _ 1); lia].
  rewrite Z.mod_small by lia. done.
Qed.

Lemma perm_doubled_witness :
  0 ≤ 7 < 256
  ∧ ValueNoise.at_ (ValueNoise.new 12345) (7 + 256)
    = ValueNoise.at_ (ValueNoise.new 12345) 7.
Proof. split; [lia|]. apply (perm_doubled 12345 7). lia. Defined.

(** ** The noise field and the surface height *)

Lemma land255_mod (k : Z) : Z.land k 255 = k mod 256.
Proof. change 255 with (Z.ones 8). by rewrite Z.land_ones by lia. Qed.

(** X4. At integer coordinates the noise is the table value of the lattice
    point: [sample(a, b) = perm[perm[a & 255] + (b & 255)] / 255], with no
    contribution of the three other corners. *)
Theorem sample_lattice (seed a b : Z) :
  ∃ pa v s,
    ValueNoise.at_ (ValueNoise.new seed) (Z.land a 255) = Some pa
    ∧ ValueNoise.at_ (ValueNoise.new seed) (pa + Z.land b 255) = Some v
    ∧ ValueNoise.sample (ValueNoise.new seed) (inject_Z a) (inject_Z b) = Some s
    ∧ (s == inject_Z v / 255)%Q.
Proof.
  unfold ValueNoise.sample. rewrite !Qfloor_Z.
  pose proof (land255_bounds a) as Ha. pose proof (land255_bounds b) as Hb.
  destruct (at_new seed (Z.land a 255)) as (pa & Epa & Hpa); [lia|].
  destruct (at_new seed (Z.land a 255 + 1)) as (pb & Epb & Hpb); [lia|].
  destruct (at_new seed (pa + Z.land b 255)) as (aa & Eaa & Haa); [lia|].
  destruct (at_new seed (pb + Z.land b 255)) as (ba & Eba & Hba); [lia|].
  destruct (at_new seed (pa + Z.land b 255 + 1)) as (ab & Eab & Hab); [lia|].
  destruct (at_new seed (pb + Z.land b 255 + 1)) as (bb & Ebb & Hbb); [lia|].
  exists pa, aa. rewrite Epa, Epb. cbn [mbind option_bind].
  rewrite Eaa, Eba, Eab, Ebb. cbn [mbind option_bind].
  eexists. split; [reflexivity|]. split; [reflexivity|]. split; [reflexivity|].
  unfold lerp, fade.
  generalize (inject_Z aa / 255)%Q (inject_Z ba / 255)%Q (inject_Z ab / 255)%Q
    (inject_Z bb / 255)%Q (inject_Z a) (inject_Z b).
  intros. ring.
Qed.

Lemma js_round_upper (m : Z) (q : Q) : (q <= inject_Z m)%Q → js_round q ≤ m.
Proof.
  intros Hq. unfold js_round.
  pose proof (Qfloor_le (q + (1 # 2))) as H.
  assert (inject_Z (Qfloor (q + (1 # 2))) < inject_Z (m + 1))%Q as Hlt.
  { rewrite inject_Z_plus. change (inject_Z 1) with 1%Q. lra. }
  rewrite <- Zlt_Qlt in Hlt. lia.
Qed.

Lemma getSurfaceY_upper (g : WorldGenerator.t) (wx wz h : Z) :
  constructed g → WorldGenerator.getSurfaceY g wx wz = Some h →
  h ≤ Z.max (WorldGenerator.minHeight g) (WorldGenerator.maxHeight g).
Proof.
  intros Hg Hh. destruct (getSurfaceY_constructed g wx wz Hg) as (n & _ & [Hn0 Hn1] & E).
  rewrite E in Hh. injection Hh as <-. unfold WorldGenerator.surfaceOf.
  apply js_round_upper.
  set (a := WorldGenerator.minHeight g). set (b := WorldGenerator.maxHeight g).
  destruct (Z.le_ge_cases a b) as [Hab|Hab].
  - rewrite Z.max_r by done. rewrite Zle_Qle in Hab.
    assert (0 <= (1 - n) * (inject_Z b - inject_Z a))%Q by (apply Qmult_le_0_compat; lra).
    assert (inject_Z a + n * (inject_Z b - inject_Z a)
            == inject_Z b - (1 - n) * (inject_Z b - inject_Z a))%Q as -> by ring.
    lra.
  - rewrite Z.max_l by lia. rewrite Zle_Qle in Hab.
    assert (0 <= n * (inject_Z a - inject_Z b))%Q by (apply Qmult_le_0_compat; lra).
    assert (inject_Z a + n * (inject_Z b - inject_Z a)
            == inject_Z a - n * (inject_Z a - inject_Z b))%Q as -> by ring.
    lra.
Qed.

Lemma getSurfaceY_range (g : WorldGenerator.t) (wx wz : Z) :
  constructed g → WorldGenerator.minHeight g ≤ WorldGenerator.maxHeight g →
  ∃ h, WorldGenerator.getSurfaceY g wx wz = Some h
       ∧ WorldGenerator.minHeight g ≤ h ≤ WorldGenerator.maxHeight g.
Proof.
  intros Hg Hle. destruct (getSurfaceY_constructed g wx wz Hg) as (n & _ & _ & E).
  eexists. split; [exact E|].
  pose proof (getSurfaceY_lower g wx wz _ Hg E).
  pose proof (getSurfaceY_upper g wx wz _ Hg E). lia.
Qed.

(** X5. For a generator made by the constructor with
    [minHeight ≤ maxHeight], the surface height at every integer world
    position is a number between [minHeight] and [maxHeight] (in exact
    arithmetic). *)
Theorem getSurfaceY_within (g : WorldGenerator.t) (wx wz : Z) :
  constructed g → WorldGenerator.minHeight g ≤ WorldGenerator.maxHeight g →
  ∃ h, WorldGenerator.getSurfaceY g wx wz = Some h
       ∧ WorldGenerator.minHeight g ≤ h ≤ WorldGenerator.maxHeight g.
Proof. apply getSurfaceY_range. Qed.

Lemma getSurfaceY_within_witness :
  constructed (WorldGenerator.new defaultOptions)
  ∧ ∃ h, WorldGenerator.getSurfaceY (WorldGenerator.new defaultOptions) 100 (-50)
         = Some h
         ∧ 48 ≤ h ≤ 96.
Proof.
  split; [reflexivity|].
  apply (getSurfaceY_within (WorldGenerator.new defaultOptions) 100 (-50) eq_refl).
  vm_compute. discriminate.
Defined.

(** X6. The heightmap of a chunk column holds, for every local position,
    the surface height of that world position, and the running maximum is
    not below any of them nor below 0 (for a constructed generator whose
    height range fits 32 bits). *)
Theorem heightmap_entries (g : WorldGenerator.t) (chunkX chunkZ lx lz : Z) :
  constructed g →
  - 2 ^ 31 ≤ WorldGenerator.minHeight g →
  WorldGenerator.minHeight g ≤ WorldGenerator.maxHeight g →
  WorldGenerator.maxHeight g < 2 ^ 31 →
  0 ≤ lx < 32 → 0 ≤ lz < 32 →
  let hm := WorldGenerator.heightmap g (chunkX * WorldGenerator.cs)
              (chunkZ * WorldGenerator.cs) in
  WorldGenerator.getSurfaceY g (chunkX * WorldGenerator.cs + lx)
    (chunkZ * WorldGenerator.cs + lz)
  = Some (WorldGenerator.heightAt hm.1 lx lz)
  ∧ WorldGenerator.heightAt hm.1 lx lz ≤ hm.2
  ∧ 0 ≤ hm.2.
Proof.
  intros Hg Hmin Hle Hmax Hlx Hlz hm. subst hm.
  destruct (heightmap_at g (chunkX * WorldGenerator.cs) (chunkZ * WorldGenerator.cs)
              lx lz Hlx Hlz) as (Hat & H0 & Hm).
  destruct (getSurfaceY_range g (chunkX * WorldGenerator.cs + lx)
              (chunkZ * WorldGenerator.cs + lz) Hg Hle) as (h & Eh & Hh).
  rewrite Eh in Hat, Hm. cbn [WorldGenerator.int32_store] in Hat.
  rewrite to_int32_small in Hat by lia. rewrite Eh, Hat.
  split; [reflexivity|]. split; [by apply Hm | exact H0].
Qed.

Lemma heightmap_entries_witness :
  constructed flat3
  ∧ WorldGenerator.getSurfaceY flat3 (2 * WorldGenerator.cs + 5)
      (-1 * WorldGenerator.cs + 31)
    = Some (columnSurface flat3 2 (-1) 5 31).
Proof.
  split; [reflexivity|].
  apply (heightmap_entries flat3 2 (-1) 5 31 eq_refl);
    [vm_compute; discriminate | vm_compute; discriminate | vm_compute; reflexivity
    | lia | lia].
Defined.

(** ** The chunk store *)

Lemma get_oob (x y z : Z) (w : World) :
  ¬ (0 ≤ y < 256) → (HousingWorld.get x y z w).1 = 0.
Proof.
  intros Hy. unfold HousingWorld.get, HousingWorld.HEIGHT.
  destruct (Z.ltb_spec y 0); [done|]. destruct (Z.geb_spec y 256); [done | lia].
Qed.

(** [get] only looks at the blocks of the chunk that owns the position. *)
Lemma get_ext (x y z : Z) (w w' : World) :
  (Chunk.blocks <$> chunks w' !! (x / 32, y / 32, z / 32))
  = (Chunk.blocks <$> chunks w !! (x / 32, y / 32, z / 32)) →
  eval (HousingWorld.get x y z) w' = eval (HousingWorld.get x y z) w.
Proof.
  intros H. unfold eval. destruct (decide (0 ≤ y < 256)) as [Hy|Hy].
  - rewrite !get_blockAt by done. unfold blockAt, Chunk.read.
    destruct (chunks w' !! _) as [c'|], (chunks w !! _) as [c|];
      cbn [fmap option_fmap option_map] in H; try done.
    by injection H as ->.
  - by rewrite !get_oob.
Qed.

(** X7. Creating a chunk is idempotent and invisible to readers:
    [getOrCreateChunk] called again on its result returns the same chunk and
    changes nothing, and after it every [get] returns what it returned
    before (a new chunk reads as empty). *)
Theorem getOrCreateChunk_lazy (w : World) (cx cy cz x y z : Z) :
  let r := HousingWorld.getOrCreateChunk cx cy cz w in
  r.1 = (cx, cy, cz)
  ∧ r.1 ∈ dom (chunks r.2)
  ∧ HousingWorld.getOrCreateChunk cx cy cz r.2 = r
  ∧ eval (HousingWorld.get x y z) r.2 = eval (HousingWorld.get x y z) w.
Proof.
  intros r. subst r. unfold HousingWorld.getOrCreateChunk, HousingWorld.chunkKey.
  destruct (chunks w !! (cx, cy, cz)) as [c|] eqn:E; cbn [fst snd].
  - split; [done|]. split; [by apply elem_of_dom_2 in E|]. rewrite E. done.
  - cbn [chunks]. rewrite lookup_insert_eq. split; [done|].
    split; [rewrite dom_insert_L; set_solver|]. split; [done|].
    unfold eval. destruct (decide (0 ≤ y < 256)) as [Hy|Hy].
    + rewrite !get_blockAt by done. unfold blockAt. cbn [chunks].
      destruct (decide ((cx, cy, cz) = (x / 32, y / 32, z / 32))) as [<-|Hne].
      * rewrite lookup_insert_eq, E. apply read_new.
      * by rewrite lookup_insert_ne.
    + by rewrite !get_oob.
Qed.

Lemma set_state (x y z b : Z) (w : World) :
  0 ≤ y < 256 →
  let key := (x / 32, y / 32, z / 32) in
  let c0 := default (Chunk.new (x / 32) (y / 32) (z / 32)) (chunks w !! key) in
  exec (HousingWorld.set x y z b) w
  = {| chunks :=
         <[key := Chunk.setDirty true
                    (Chunk.setBlock (x mod 32) (y mod 32) (z mod 32) b c0)]>
           (chunks w);
       dirtyChunks := if bool_decide (key ∈ dirtyChunks w) then dirtyChunks w
                      else dirtyChunks w ++ [key];
       generatedColumns := generatedColumns w |}.
Proof.
  intros Hy key c0. subst key c0. unfold exec, HousingWorld.set, HousingWorld.HEIGHT.
  destruct (Z.ltb_spec y 0); [lia|]. destruct (Z.geb_spec y 256); [lia|].
  cbn [orb]. rewrite !floor_div_chunk. unfold Chunk.SIZE.
  rewrite <- !(Z.mul_comm 32), <- !Z.mod_eq by lia.
  unfold mbind, M_bind, HousingWorld.getOrCreateChunk, HousingWorld.markDirty,
    HousingWorld.onChunk, HousingWorld.dirtyAdd, HousingWorld.chunkKey, mbind, M_bind.
  destruct (chunks w !! (x / 32, y / 32, z / 32)) as [c|] eqn:E;
    cbn [fst snd chunks dirtyChunks generatedColumns default]; f_equal.
  - apply map_eq. intros j. rewrite !lookup_alter, lookup_insert.
    repeat case_decide; subst; try done. by rewrite E.
  - apply map_eq. intros j. rewrite !lookup_alter, !lookup_insert.
    repeat case_decide; subst; done.
Qed.

(** X8. A [set] within the vertical bounds marks the owning chunk dirty:
    its flag is set, and its key is appended to the dirty set unless it is
    already there, in which case the set and its order stay as they are. *)
Theorem set_marks_dirty (w : World) (x y z b : Z) :
  0 ≤ y < HousingWorld.HEIGHT →
  let key := (floor_div x Chunk.SIZE, floor_div y Chunk.SIZE,
              floor_div z Chunk.SIZE) in
  let w' := exec (HousingWorld.set x y z b) w in
  (∃ c, chunks w' !! key = Some c ∧ Chunk.isDirty c = true)
  ∧ key ∈ dirtyChunks w'
  ∧ dirtyChunks w'
    = if bool_decide (key ∈ dirtyChunks w) then dirtyChunks w
      else dirtyChunks w ++ [key].
Proof.
  intros Hy key w'. subst key w'. rewrite !floor_div_chunk.
  rewrite set_state by done. cbn [chunks dirtyChunks]. split; [|split; [|done]].
  - eexists. by rewrite lookup_insert_eq.
  - case_bool_decide; [done|]. apply elem_of_app. right. by left.
Qed.

Lemma set_marks_dirty_witness :
  0 ≤ 12 < HousingWorld.HEIGHT ∧ (0, 0, 0) ∈ dirtyChunks stoneAtCap.
Proof.
  split; [unfold HousingWorld.HEIGHT; lia|].
  apply (set_marks_dirty HousingWorld.empty 0 12 0 BLK.STONE).
  unfold HousingWorld.HEIGHT. lia.
Defined.

(** X9. [set], at any height, keeps a well-formed store well formed,
    leaves the generated columns alone, unloads nothing, and loads no chunk
    but the one that owns the position. *)
Theorem set_frame (w : World) (x y z b : Z) :
  wf w →
  let w' := exec (HousingWorld.set x y z b) w in
  wf w'
  ∧ generatedColumns w' = generatedColumns w
  ∧ dom (chunks w) ⊆ dom (chunks w')
  ∧ dom (chunks w') ⊆ {[(x / 32, y / 32, z / 32)]} ∪ dom (chunks w).
Proof.
  intros Hw w'. subst w'.
  destruct (set_loaded_inv (dom (chunks w)) x y z b w) as [Hw' HD]; [by split|].
  split; [exact Hw'|]. split; [|split; [exact HD|]].
  - destruct (decide (0 ≤ y < 256)) as [Hy|Hy]; [by rewrite set_state|].
    by rewrite (proj2 (proj2 (out_of_bounds_frame w x y z b Hy))).
  - destruct (decide (0 ≤ y < 256)) as [Hy|Hy]; [by rewrite set_dom|].
    rewrite (proj2 (proj2 (out_of_bounds_frame w x y z b Hy))). set_solver.
Qed.

Lemma set_frame_witness :
  wf HousingWorld.empty
  ∧ wf stoneAtCap
  ∧ dom (chunks stoneAtCap)
    ⊆ {[(0 / 32, 12 / 32, 0 / 32)]} ∪ dom (chunks HousingWorld.empty).
Proof.
  split; [exact wf_empty|].
  destruct (set_frame HousingWorld.empty 0 12 0 BLK.STONE wf_empty) as (H1 & _ & _ & H2).
  split; [exact H1 | exact H2].
Defined.

(** What [get] returns after a [set], at the same or another position. *)
Lemma get_after_set (w : World) (x y z b x' y' z' : Z) :
  wf w →
  eval (HousingWorld.get x' y' z') (exec (HousingWorld.set x y z b) w)
  = if bool_decide ((x', y', z') = (x, y, z) ∧ 0 ≤ y < 256) then b
    else eval (HousingWorld.get x' y' z') w.
Proof.
  intros Hw. case_bool_decide as H.
  - destruct H as [[= -> -> ->] Hy]. by apply get_set_same.
  - destruct (decide ((x', y', z') = (x, y, z))) as [[= -> -> ->]|Hne].
    + assert (¬ (0 ≤ y < 256)) as Hy by tauto.
      by rewrite (proj2 (proj2 (out_of_bounds_frame w x y z b Hy))).
    + by apply get_set_other.
Qed.

(** X10. Writes compose as writes to a grid of independent cells: [set] at
    two different positions gives the same readings in either order, and of
    two writes to one position the second is the one that is read. *)
Theorem set_set (w : World) (x1 y1 z1 b1 x2 y2 z2 b2 : Z) :
  wf w →
  (∀ x y z,
     (x1, y1, z1) ≠ (x2, y2, z2) →
     eval (HousingWorld.get x y z)
       (exec (HousingWorld.set x2 y2 z2 b2) (exec (HousingWorld.set x1 y1 z1 b1) w))
     = eval (HousingWorld.get x y z)
         (exec (HousingWorld.set x1 y1 z1 b1)
            (exec (HousingWorld.set x2 y2 z2 b2) w)))
  ∧ (0 ≤ y1 < HousingWorld.HEIGHT →
     eval (HousingWorld.get x1 y1 z1)
       (exec (HousingWorld.set x1 y1 z1 b2) (exec (HousingWorld.set x1 y1 z1 b1) w))
     = b2).
Proof.
  intros Hw.
  assert (∀ x y z b, wf (exec (HousingWorld.set x y z b) w)) as Hw'.
  { intros x y z b. by destruct (set_loaded_inv ∅ x y z b w) as [? _];
      [split; [done | set_solver]|]. }
  split.
  - intros x y z Hne. rewrite !get_after_set by done.
    repeat case_bool_decide; try done. destruct_and!. congruence.
  - intros Hy. by apply get_set_same.
Qed.

Lemma set_set_witness :
  wf HousingWorld.empty ∧ 0 ≤ 3 < HousingWorld.HEIGHT
  ∧ eval (HousingWorld.get (-1) 3 40)
      (exec (HousingWorld.set (-1) 3 40 BLK.SAND)
         (exec (HousingWorld.set (-1) 3 40 BLK.STONE) HousingWorld.empty))
    = BLK.SAND.
Proof.
  split; [exact wf_empty|]. split; [unfold HousingWorld.HEIGHT; lia|].
  apply (proj2 (set_set HousingWorld.empty (-1) 3 40 BLK.STONE 0 0 0 BLK.SAND
                  wf_empty)).
  unfold HousingWorld.HEIGHT. lia.
Defined.

(** ** Meshing *)

Lemma NoDup_filter_head (k : Z * Z * Z) (l : list (Z * Z * Z)) :
  NoDup (k :: l) → filter (λ j, j ≠ k) (k :: l) = l.
Proof.
  intros [Hk Hl]%NoDup_cons. rewrite filter_cons_False by (intros H; by apply H).
  induction l as [|j l IH]; [done|].
  apply not_elem_of_cons in Hk as [Hne Hk]. apply NoDup_cons in Hl as [_ Hl].
  rewrite filter_cons_True by done. f_equal. by apply IH.
Qed.

(** The number of chunks that [buildChunks] builds from [n] dirty ones. *)
Lemma buildChunks_loop (maxChunks : option Z) (l : list (Z * Z * Z)) (built : Z)
    (w : World) :
  dirtyChunks w = l → NoDup l →
  dirtyChunks
    (exec (forBreak l (λ chunk built,
             HousingWorld.onChunk chunk (Chunk.setDirty false);;
             HousingWorld.dirtyDelete chunk;;
             let built := built + 1 in
             mret (match maxChunks with
                   | Some m => built >=? m
                   | None => false
                   end, built)) built) w)
  = drop (match maxChunks with
          | Some m => Z.to_nat (Z.max 1 (m - built))
          | None => length l
          end) l.
Proof.
  revert built w. induction l as [|k l IH]; intros built w Hd Hnd.
  - cbn [forBreak]. unfold exec. cbn [snd mret M_ret]. rewrite Hd. by rewrite drop_nil.
  - cbn [forBreak]. unfold exec, mbind at 1, M_bind at 1.
    unfold mbind at 1 2, M_bind at 1 2, HousingWorld.onChunk, HousingWorld.dirtyDelete.
    cbn [dirtyChunks mret M_ret]. rewrite Hd, NoDup_filter_head by done.
    apply NoDup_cons in Hnd as [_ Hnd].
    destruct maxChunks as [m|].
    + destruct (Z.geb_spec (built + 1) m) as [Hge|Hlt].
      * cbn [snd dirtyChunks]. replace (Z.to_nat (Z.max 1 (m - built))) with 1%nat by lia.
        done.
      * specialize (IH (built + 1)). unfold exec in IH. rewrite IH by done.
        replace (Z.to_nat (Z.max 1 (m - built)))
          with (S (Z.to_nat (Z.max 1 (m - (built + 1))))) by lia.
        done.
    + specialize (IH (built + 1)). unfold exec in IH. rewrite IH by done.
      cbn [length]. done.
Qed.

(** X11. [buildChunks] is bounded: of the dirty chunks, in the order in
    which they became dirty, it builds the first [maxChunks] and leaves the
    others dirty; with no argument it builds them all; and with a budget of
    zero or less it still builds one. *)
Theorem buildChunks_budget (w : World) (maxChunks : option Z) :
  NoDup (dirtyChunks w) →
  dirtyChunks (exec (HousingWorld.buildChunks maxChunks) w)
  = drop (match maxChunks with
          | Some m => Z.to_nat (Z.max 1 m)
          | None => length (dirtyChunks w)
          end) (dirtyChunks w).
Proof.
  intros Hnd. unfold HousingWorld.buildChunks, exec.
  unfold mbind at 1, M_bind at 1. unfold mbind at 1, M_bind at 1.
  pose proof (buildChunks_loop maxChunks (dirtyChunks w) 0 w eq_refl Hnd) as H.
  unfold exec in H.
  assert (∀ m : Z, m - 0 = m) as Hsub by (intros; lia).
  destruct maxChunks as [m|]; rewrite ?Hsub in H;
    destruct (forBreak _ _ 0 w) as [r w']; exact H.
Qed.

Lemma buildChunks_budget_witness :
  NoDup (dirtyChunks twoChunks)
  ∧ dirtyChunks (exec (HousingWorld.buildChunks (Some 0)) twoChunks) = [(6, 0, 0)].
Proof.
  assert (NoDup (dirtyChunks twoChunks)) as H by apply wf_twoChunks.
  split; [exact H|]. rewrite (buildChunks_budget twoChunks (Some 0) H).
  vm_compute. reflexivity.
Defined.

(** X12. [buildChunks] changes dirty marks only: every [get], the loaded
    chunk keys and the generated columns are as before. *)
Theorem buildChunks_frame (w : World) (maxChunks : option Z) (x y z : Z) :
  let w' := exec (HousingWorld.buildChunks maxChunks) w in
  eval (HousingWorld.get x y z) w' = eval (HousingWorld.get x y z) w
  ∧ dom (chunks w') = dom (chunks w)
  ∧ generatedColumns w' = generatedColumns w.
Proof.
  intros w'. subst w'. split; [|split].
  - refine (buildChunks_inv
              (λ w0, eval (HousingWorld.get x y z) w0 = eval (HousingWorld.get x y z) w)
              maxChunks _ _ w eq_refl).
    + intros k w0 <-. apply get_ext. unfold HousingWorld.onChunk. cbn [snd chunks].
      rewrite lookup_alter. case_decide; [|done]. subst.
      by destruct (chunks w0 !! _).
    + intros k w0 <-. by apply get_ext.
  - refine (buildChunks_inv (λ w0, dom (chunks w0) = dom (chunks w)) maxChunks _ _ w eq_refl).
    + intros k w0 <-. apply dom_alter_chunks.
    + by intros k w0 <-.
  - by apply buildChunks_generated.
Qed.

(** ** Streaming *)

Lemma dirtyDelete_wf (k : Z * Z * Z) :
  hoare wf (HousingWorld.dirtyDelete k) (λ _, wf).
Proof.
  intros w (Hc & Hd & Hn). unfold HousingWorld.dirtyDelete, wf. cbn [snd chunks dirtyChunks].
  split; [done|]. split.
  - intros j [_ Hj]%list_elem_of_filter. by apply Hd.
  - by apply NoDup_filter.
Qed.

Lemma unloadLoop_wf (p : Z * Z) (limit : Z) (loaded : list (Z * Z * Z * Chunk.t)) :
  hoare wf (unloadLoop p limit loaded) (λ _, wf).
Proof.
  apply hoare_forM_frame. intros [key chunk] _ w (Hc & Hd & Hn).
  destruct (tooFar p limit chunk); [|done].
  rewrite unload_far_state. unfold wf. cbn [snd chunks dirtyChunks].
  split; [by apply map_Forall_delete|]. split.
  - intros j [Hne Hj]%list_elem_of_filter. rewrite dom_delete_L.
    apply elem_of_difference. split; [by apply Hd | set_solver].
  - by apply NoDup_filter.
Qed.

Lemma buildChunks_wf (maxChunks : option Z) :
  hoare wf (HousingWorld.buildChunks maxChunks) (λ _, wf).
Proof.
  apply buildChunks_inv.
  - intros k w Hw.
    destruct (loaded_inv_onChunk ∅ k (Chunk.setDirty false)
                (chunk_fn_ok_setDirty false) w) as [Hw' _];
      [split; [done | set_solver] | done].
  - apply dirtyDelete_wf.
Qed.

Lemma unloadAndBuild_wf (p : Z * Z) (renderDistance maxBuildPerFrame : Z) :
  hoare wf (unloadAndBuild p renderDistance maxBuildPerFrame) (λ _, wf).
Proof.
  unfold unloadAndBuild.
  eapply hoare_bind with (R := λ _, wf); [intros w Hw; exact Hw|]. intros loaded.
  eapply hoare_bind; [apply unloadLoop_wf|]. intros ?. apply buildChunks_wf.
Qed.

(** X13. [update] keeps a well-formed store well formed: after it every
    chunk is held under the key of its coordinates with a full buffer, and
    the dirty set holds loaded chunks only, each once. *)
Theorem update_wf (g : WorldGenerator.t) (w : World) (playerX playerZ : Q)
    (renderDistance maxGenPerFrame maxBuildPerFrame : Z) :
  wf w →
  wf (exec (HousingWorld.update playerX playerZ (WorldGenerator.generateChunk g)
              renderDistance maxGenPerFrame maxBuildPerFrame) w).
Proof.
  intros Hw. rewrite update_exec. apply unloadAndBuild_wf.
  refine (proj1 (ringLoop_inv (loaded_inv ∅) _ _ _ _
                   (generateChunk_loaded_inv ∅ g) w _)).
  split; [exact Hw | set_solver].
Qed.

Lemma update_wf_witness :
  wf twoChunks
  ∧ wf (exec (HousingWorld.update 0 0 (WorldGenerator.generateChunk flat3) 1 1 2)
          twoChunks).
Proof.
  assert (wf twoChunks) as H by apply wf_twoChunks.
  split; [exact H | exact (update_wf flat3 twoChunks 0 0 1 1 2 H)].
Defined.

Lemma ring_cell_radius (p : Z * Z) (r dx dz renderDistance : Z) :
  r ∈ range_incl 0 renderDistance → dx ∈ range_incl (- r) r →
  dz ∈ range_incl (- r) r →
  chebyshev p (p.1 + dx, p.2 + dz) ≤ renderDistance.
Proof.
  intros Hr%range_incl_elem Hdx%range_incl_elem Hdz%range_incl_elem.
  unfold chebyshev. cbn [fst snd]. lia.
Qed.

(** The ring loop does nothing when every column in range is generated. *)
Lemma ringLoop_idle (generateChunk : Z → Z → M unit) (p : Z * Z)
    (renderDistance maxGenPerFrame : Z) (w : World) :
  (∀ c, chebyshev p c ≤ renderDistance → c ∈ generatedColumns w) →
  exec (ringLoop generateChunk p renderDistance maxGenPerFrame) w = w.
Proof.
  intros Hall.
  refine (hoare_forBreak_frame (λ w0, w0 = w) _ _ _ _ w eq_refl).
  intros r n1 Hr. apply hoare_forBreak_frame. intros dx n2 Hdx.
  apply hoare_forBreak_frame. intros dz n3 Hdz.
  destruct (_ && _); [by apply hoare_ret|]. cbv zeta.
  intros w0 ->. unfold mbind, M_bind, HousingWorld.isColumnGenerated,
    HousingWorld.columnKey.
  rewrite bool_decide_true; [done|]. apply Hall. by eapply ring_cell_radius.
Qed.

(** X14. When every column within [renderDistance] of the player's column
    is generated, [update] generates nothing and creates no chunk, whatever
    its budgets. *)
Theorem update_idle (g : WorldGenerator.t) (w : World) (playerX playerZ : Q)
    (renderDistance maxGenPerFrame maxBuildPerFrame : Z) :
  wf w →
  (∀ c, chebyshev (playerColumn playerX playerZ) c ≤ renderDistance →
        c ∈ generatedColumns w) →
  let w' := exec (HousingWorld.update playerX playerZ
                    (WorldGenerator.generateChunk g) renderDistance
                    maxGenPerFrame maxBuildPerFrame) w in
  generatedColumns w' = generatedColumns w
  ∧ dom (chunks w') ⊆ dom (chunks w).
Proof.
  intros (Hc & Hd & Hn) Hall w'. subst w'. rewrite update_exec.
  rewrite ringLoop_idle by done. split.
  - by apply unloadAndBuild_generated.
  - rewrite unloadAndBuild_exec.
    refine (proj1 (buildChunks_shrinking (dom (chunks w)) _ _ _)).
    refine (hoare_forM_frame (shrinking (dom (chunks w))) _ _ _ w _).
    + intros [key chunk] _. apply unload_step_shrinking.
    + by split.
Qed.

Lemma update_idle_witness :
  let w := exec (WorldGenerator.generateChunk flat3 0 0) HousingWorld.empty in
  wf w
  ∧ (∀ c, chebyshev (playerColumn 0 0) c ≤ 0 → c ∈ generatedColumns w)
  ∧ generatedColumns
      (exec (HousingWorld.update 0 0 (WorldGenerator.generateChunk flat3) 0 1 2) w)
    = generatedColumns w.
Proof.
  intros w.
  assert (wf w) as H.
  { refine (proj1 (generateChunk_loaded_inv ∅ flat3 0 0 HousingWorld.empty _)).
    split; [apply wf_empty | set_solver]. }
  assert (∀ c, chebyshev (playerColumn 0 0) c ≤ 0 → c ∈ generatedColumns w) as Hall.
  { intros [cx cz] Hc. unfold w, exec.
    rewrite (generateChunk_generated ∅ flat3 0 0 HousingWorld.empty eq_refl).
    unfold chebyshev, playerColumn in Hc. cbn [fst snd] in Hc.
    replace (Qfloor (0 / inject_Z Chunk.SIZE)) with 0 in Hc by reflexivity.
    assert (cx = 0 ∧ cz = 0) as [-> ->] by lia. set_solver. }
  split; [exact H|]. split; [exact Hall|].
  apply (update_idle flat3 w 0 0 0 1 2 H Hall).
Defined.

Lemma ringLoop_low (generateChunk : Z → Z → M unit) (p : Z * Z)
    (renderDistance maxGenPerFrame : Z) (w : World) :
  maxGenPerFrame ≤ 1 →
  ringLoop generateChunk p renderDistance maxGenPerFrame w
  = match firstMissing w p renderDistance with
    | None => ((false, 0), w)
    | Some c => ((true, 1), exec (generateChunk c.1 c.2) w)
    end.
Proof.
  intros Hm. unfold ringLoop, firstMissing.
  apply (forBreak_first _ _ _ _ _ (λ c, (1, exec (generateChunk c.1 c.2) w))).
  intros r _.
  apply (forBreak_first _ _ _ _ _ (λ c, (1, exec (generateChunk c.1 c.2) w))).
  intros dx _.
  apply (forBreak_first _ _ _ _ _ (λ c, (1, exec (generateChunk c.1 c.2) w))).
  intros dz _. unfold ringCell.
  destruct (negb (Z.abs dx =? r) && negb (Z.abs dz =? r)); [done|].
  cbv zeta. unfold mbind, M_bind, HousingWorld.isColumnGenerated,
    HousingWorld.columnKey, exec.
  case_bool_decide; cbn [negb]; [done|]. cbn [fst snd].
  destruct (generateChunk (p.1 + dx) (p.2 + dz) w) as [[] w'].
  cbn [mret M_ret fst snd]. destruct (Z.geb_spec (0 + 1) maxGenPerFrame); [done | lia].
Qed.

(** X15. A generation budget of zero or less is treated as a budget of one:
    the counter is compared after the column is generated. *)
Theorem update_budget_floor (generateChunk : Z → Z → M unit) (w : World)
    (playerX playerZ : Q) (renderDistance maxGenPerFrame maxBuildPerFrame : Z) :
  maxGenPerFrame ≤ 1 →
  HousingWorld.update playerX playerZ generateChunk renderDistance
    maxGenPerFrame maxBuildPerFrame w
  = HousingWorld.update playerX playerZ generateChunk renderDistance 1
      maxBuildPerFrame w.
Proof.
  intros Hm. rewrite !update_split. unfold mbind, M_bind.
  by rewrite !ringLoop_low by lia.
Qed.

Lemma update_budget_floor_witness :
  0 ≤ 1
  ∧ HousingWorld.update 0 0 (WorldGenerator.generateChunk flat3) 2 0 2
      HousingWorld.empty
    = HousingWorld.update 0 0 (WorldGenerator.generateChunk flat3) 2 1 2
        HousingWorld.empty.
Proof.
  split; [lia|].
  apply (update_budget_floor (WorldGenerator.generateChunk flat3)). lia.
Defined.

Lemma hoare_forBreak_acc {X A} (I F : A → World → Prop) (xs : list X)
    (body : X → A → M (bool * A)) (a : A) :
  (∀ x a, x ∈ xs →
     hoare (I a) (body x a) (λ r w, if r.1 then F r.2 w else I r.2 w)) →
  hoare (I a) (forBreak xs body a) (λ r w, if r.1 then F r.2 w else I r.2 w).
Proof.
  revert a. induction xs as [|x xs IH]; intros a H; simpl.
  - by apply hoare_ret.
  - eapply hoare_bind; [apply H; left|]. intros [[] a'].
    + by apply hoare_ret.
    + apply IH. intros y b Hy. apply H. by right.
Qed.

Lemma ringLoop_budget (g : WorldGenerator.t) (p : Z * Z)
    (renderDistance maxGenPerFrame : Z) (w : World) :
  let r := ringLoop (WorldGenerator.generateChunk g) p renderDistance
             maxGenPerFrame w in
  generatedColumns w ⊆ generatedColumns r.2
  ∧ (∀ c, c ∈ generatedColumns r.2 →
          c ∈ generatedColumns w ∨ chebyshev p c ≤ renderDistance)
  ∧ Z.of_nat (size (generatedColumns r.2 ∖ generatedColumns w)) = r.1.2
  ∧ 0 ≤ r.1.2 ≤ Z.max 1 maxGenPerFrame.
Proof.
  pose (J := λ (n : Z) (w' : World),
    generatedColumns w ⊆ generatedColumns w'
    ∧ (∀ c, c ∈ generatedColumns w' →
            c ∈ generatedColumns w ∨ chebyshev p c ≤ renderDistance)
    ∧ Z.of_nat (size (generatedColumns w' ∖ generatedColumns w)) = n).
  pose (I := λ (n : Z) (w' : World), J n w' ∧ (n = 0 ∨ 0 ≤ n < maxGenPerFrame)).
  pose (F := λ (n : Z) (w' : World), J n w' ∧ 0 ≤ n ≤ Z.max 1 maxGenPerFrame).
  assert (hoare (I 0) (ringLoop (WorldGenerator.generateChunk g) p renderDistance
                         maxGenPerFrame)
            (λ r w', if r.1 then F r.2 w' else I r.2 w')) as H.
  { unfold ringLoop.
    apply hoare_forBreak_acc. intros r n1 Hr.
    apply hoare_forBreak_acc. intros dx n2 Hdx.
    apply hoare_forBreak_acc. intros dz n Hdz.
    destruct (_ && _); [by apply hoare_ret|]. cbv zeta.
    intros w0 [(Hsub & Hnew & Hsize) Hn].
    unfold mbind, M_bind, HousingWorld.isColumnGenerated, HousingWorld.columnKey.
    case_bool_decide as Hin; cbn [negb]; [done|].
    pose proof (generateChunk_generated (generatedColumns w0) g (p.1 + dx)
                  (p.2 + dz) w0 eq_refl) as Hg.
    destruct (WorldGenerator.generateChunk g (p.1 + dx) (p.2 + dz) w0) as [[] w1].
    cbn [snd] in Hg. cbn [mret M_ret fst snd].
    assert (J (n + 1) w1) as HJ.
    { unfold J. rewrite Hg. split; [set_solver|]. split.
      - intros c [->%elem_of_singleton | Hc]%elem_of_union.
        + right. by eapply ring_cell_radius.
        + by apply Hnew.
      - replace (({[(p.1 + dx, p.2 + dz)]} ∪ generatedColumns w0)
                   ∖ generatedColumns w)
          with ({[(p.1 + dx, p.2 + dz)]}
                  ∪ (generatedColumns w0 ∖ generatedColumns w) : gset (Z * Z))
          by set_solver.
        rewrite size_union by set_solver. rewrite size_singleton. lia. }
    destruct (Z.geb_spec (n + 1) maxGenPerFrame); (split; [exact HJ | lia]). }
  intros r. subst r.
  assert (I 0 w) as H0.
  { split; [|by left]. unfold J. split; [done|]. split; [by left|].
    replace (generatedColumns w ∖ generatedColumns w) with (∅ : gset (Z * Z))
      by set_solver. by rewrite size_empty. }
  specialize (H w H0).
  destruct (ringLoop _ _ _ _ w) as [[brk n] w']. cbn [fst snd] in *.
  destruct brk; destruct H as [(? & ? & ?) ?]; repeat split; try done; lia.
Qed.

(** X16. One [update] that generates with [generateChunk] marks at most
    [max 1 maxGenPerFrame] new columns as generated, each of them within
    [renderDistance] of the player's column, and forgets none that was
    generated before. *)
Theorem update_budget (g : WorldGenerator.t) (w : World) (playerX playerZ : Q)
    (renderDistance maxGenPerFrame maxBuildPerFrame : Z) :
  let w' := exec (HousingWorld.update playerX playerZ
                    (WorldGenerator.generateChunk g) renderDistance
                    maxGenPerFrame maxBuildPerFrame) w in
  generatedColumns w ⊆ generatedColumns w'
  ∧ (∀ c, c ∈ generatedColumns w' →
          c ∈ generatedColumns w
          ∨ chebyshev (playerColumn playerX playerZ) c ≤ renderDistance)
  ∧ Z.of_nat (size (generatedColumns w' ∖ generatedColumns w))
    ≤ Z.max 1 maxGenPerFrame.
Proof.
  intros w'. subst w'. rewrite update_exec. unfold exec.
  rewrite (unloadAndBuild_generated _ _ _ _ _ eq_refl).
  pose proof (ringLoop_budget g (playerColumn playerX playerZ) renderDistance
                maxGenPerFrame w) as (H1 & H2 & H3 & H4).
  split; [exact H1|]. split; [exact H2|].
  etransitivity; [apply Z.eq_le_incl, H3 | apply H4].
Qed.

(** ** Oak trees *)

Lemma cellAt_get (x y z v : Z) (w : World) :
  0 ≤ y < 256 →
  cellAt x y z v w ↔ wf w ∧ eval (HousingWorld.get x y z) w = v.
Proof.
  intros Hy. unfold cellAt, cell, loaded_inv, eval. rewrite get_blockAt by done.
  split; [intros [[Hw _] Hv]; by split|].
  intros [Hw Hv]. split; [split; [done | set_solver] | done].
Qed.

Lemma set_keeps (a b c v x y z blk : Z) :
  (a, b, c) ≠ (x, y, z) →
  hoare (cellAt a b c v) (HousingWorld.set x y z blk) (λ _, cellAt a b c v).
Proof.
  intros Hne. destruct (decide (0 ≤ y < 256)) as [Hy|Hy].
  - apply set_cell_other.
    destruct (decide ((x / 32, y / 32, z / 32) = (a / 32, b / 32, c / 32)))
      as [Hk|Hk]; [right | by left].
    intros Hi. apply Hne. symmetry. by apply resolve_inj.
  - intros w Hw. by rewrite (proj1 (proj2 (out_of_bounds_frame w x y z blk Hy))).
Qed.

Lemma run_set_keeps (a b c v x y z blk seed : Z) :
  (a, b, c) ≠ (x, y, z) →
  hoare (cellAt a b c v) (run (world_set x y z blk) seed) (λ _, cellAt a b c v).
Proof.
  intros Hne. unfold world_set. cbn [run].
  eapply hoare_bind; [by apply set_keeps|]. intros ?. by apply hoare_ret.
Qed.

Lemma trunkHeight_range (seed : Z) : 4 ≤ trunkHeight seed ≤ 6.
Proof.
  unfold trunkHeight. destruct (rand_unit seed) as [H0 H1].
  pose proof (floor_scale_range _ 3 H0 H1). change (inject_Z 3) with 3%Q in *. lia.
Qed.

(** The leaf layers keep a cell that is not empty or lies outside their
    footprint. *)
Lemma leafLayers_cell (a b c v x z leafBase seed : Z) :
  0 ≤ b < 256 →
  v ≠ OakTree.AIR
  ∨ (2 < Z.abs (a - x) ∨ 2 < Z.abs (c - z) ∨ 1 < Z.abs (b - leafBase)) →
  hoare (cellAt a b c v) (run (OakTree.leafLayers x z leafBase) seed)
    (λ _, cellAt a b c v).
Proof.
  intros Hb [Hv|Hfar]; [by apply leafLayers_keeps|].
  revert seed. unfold OakTree.leafLayers.
  apply hoare_run_forM. intros dy s1 Hdy%range_incl_elem.
  apply hoare_run_forM. intros dx s2 Hdx%range_incl_elem.
  apply hoare_run_forM. intros dz s3 Hdz%range_incl_elem.
  destruct (_ && _); [by apply hoare_ret|]. cbv zeta.
  assert ((if dy =? 1 then 1 else 2) ≤ 2) as Hr by (destruct (dy =? 1); lia).
  unfold mbind, StructM_mbind, world_get. cbn [StructM_bind run].
  eapply hoare_bind; [apply hoare_get|]. intros r.
  destruct (r =? OakTree.AIR); [|by apply hoare_ret].
  apply run_set_keeps. intros [= -> -> ->]. lia.
Qed.

Lemma run_generate (x y z seed : Z) :
  run (OakTree.generate x y z) seed
  = run (forM (range 0 (trunkHeight seed))
           (λ i, world_set x (y + i) z OakTree.OAK_LOG);;
         OakTree.leafLayers x z (y + trunkHeight seed);;
         world_set x (y + trunkHeight seed + 2) z OakTree.OAK_LEAVES)
      (mulberry32 seed).2.
Proof.
  unfold OakTree.generate, trunkHeight, rand.
  unfold mbind at 1, StructM_mbind at 1. cbn [StructM_bind run].
  by destruct (mulberry32 seed) as [r s].
Qed.

(** A tree keeps a cell that none of its unguarded writes hits and that is
    not empty or lies outside the footprint of the leaves. *)
Lemma oak_cell (a b c v x y z seed : Z) :
  0 ≤ b < 256 →
  (a, c) ≠ (x, z) ∨ b < y ∨ y + trunkHeight seed + 2 < b →
  v ≠ OakTree.AIR
  ∨ (2 < Z.abs (a - x) ∨ 2 < Z.abs (c - z)
     ∨ 1 < Z.abs (b - (y + trunkHeight seed))) →
  hoare (cellAt a b c v) (run (OakTree.generate x y z) seed)
    (λ _, cellAt a b c v).
Proof.
  intros Hb Hcol Hleaf. rewrite run_generate.
  pose proof (trunkHeight_range seed) as Hh.
  eapply hoare_run_bind.
  { apply hoare_run_forM. intros i s Hi%range_elem.
    apply run_set_keeps. intros [= -> -> ->]. destruct Hcol as [?|?]; [done | lia]. }
  intros ? s1. cbv beta. eapply hoare_run_bind.
  { by apply leafLayers_cell. }
  intros ? s2. cbv beta. apply run_set_keeps.
  intros [= -> -> ->]. destruct Hcol as [?|?]; [done | lia].
Qed.

(** X17. An oak tree replaces no block outside its own column from its
    origin upwards: a cell that is not empty and lies in another column, or
    below the origin, holds after [generate] what it held before. *)
Theorem oak_keeps_blocks (w : World) (x y z seed a b c : Z) :
  wf w →
  eval (HousingWorld.get a b c) w ≠ OakTree.AIR →
  (a, c) ≠ (x, z) ∨ b < y →
  eval (HousingWorld.get a b c) (exec (run (OakTree.generate x y z) seed) w)
  = eval (HousingWorld.get a b c) w.
Proof.
  intros Hw Hv Hcol.
  destruct (decide (0 ≤ b < 256)) as [Hb|Hb].
  - refine (proj2 (proj1 (cellAt_get a b c _ _ Hb) _)).
    apply oak_cell; [done | tauto | by left |]. by apply cellAt_get.
  - unfold eval in Hv. by rewrite get_oob in Hv.
Qed.

Lemma oak_keeps_blocks_witness :
  wf stoneAtCap
  ∧ eval (HousingWorld.get 0 12 0) stoneAtCap ≠ OakTree.AIR
  ∧ eval (HousingWorld.get 0 12 0)
      (exec (run (OakTree.generate 1 4 0) 12345) stoneAtCap)
    = eval (HousingWorld.get 0 12 0) stoneAtCap.
Proof.
  assert (wf stoneAtCap) as Hw.
  { refine (proj1 (set_loaded_inv ∅ 0 12 0 BLK.STONE HousingWorld.empty _)).
    split; [apply wf_empty | set_solver]. }
  assert (eval (HousingWorld.get 0 12 0) stoneAtCap ≠ OakTree.AIR) as Hv
    by (vm_compute; discriminate).
  split; [exact Hw|]. split; [exact Hv|].
  apply (oak_keeps_blocks stoneAtCap 1 4 0 12345 0 12 0 Hw Hv).
  left. discriminate.
Defined.

(** X18. An oak tree changes no cell more than two blocks away from its
    column, below its origin, or more than eight blocks above it. *)
Theorem oak_footprint (w : World) (x y z seed a b c : Z) :
  wf w →
  2 < Z.abs (a - x) ∨ 2 < Z.abs (c - z) ∨ b < y ∨ y + 8 < b →
  eval (HousingWorld.get a b c) (exec (run (OakTree.generate x y z) seed) w)
  = eval (HousingWorld.get a b c) w.
Proof.
  intros Hw Hfar.
  destruct (decide (0 ≤ b < 256)) as [Hb|Hb].
  - pose proof (trunkHeight_range seed) as Hh.
    refine (proj2 (proj1 (cellAt_get a b c _ _ Hb) _)).
    apply oak_cell; [done | | | by apply cellAt_get].
    + destruct (decide ((a, c) = (x, z))) as [[= -> ->]|Hne]; [right; lia | by left].
    + right. lia.
  - unfold eval. by rewrite !get_oob.
Qed.

Lemma oak_footprint_witness :
  wf stoneAtCap
  ∧ eval (HousingWorld.get 3 12 0)
      (exec (run (OakTree.generate 0 4 0) 12345) stoneAtCap)
    = eval (HousingWorld.get 3 12 0) stoneAtCap.
Proof.
  assert (wf stoneAtCap) as Hw.
  { refine (proj1 (set_loaded_inv ∅ 0 12 0 BLK.STONE HousingWorld.empty _)).
    split; [apply wf_empty | set_solver]. }
  split; [exact Hw|].
  apply (oak_footprint stoneAtCap 0 4 0 12345 3 12 0 Hw). left. lia.
Defined.

Lemma hoare_run_forM_one {X} (P Q : World → Prop) (xs : list X) (x0 : X)
    (body : X → StructM unit) :
  NoDup xs → x0 ∈ xs →
  (∀ x s, x ∈ xs → x ≠ x0 → hoare P (run (body x) s) (λ _, P)) →
  (∀ x s, x ∈ xs → x ≠ x0 → hoare Q (run (body x) s) (λ _, Q)) →
  (∀ s, hoare P (run (body x0) s) (λ _, Q)) →
  ∀ seed, hoare P (run (forM xs body) seed) (λ _, Q).
Proof.
  intros Hnd Hin HP HQ H0.
  induction xs as [|x xs IH]; [by apply elem_of_nil in Hin|].
  apply NoDup_cons in Hnd as [Hx Hnd]. intros seed. cbn [forM].
  destruct (elem_of_cons xs x0 x) as [[->|Hin'] _]; [done| |].
  - eapply hoare_run_bind; [apply H0|]. intros ? s. cbv beta.
    apply hoare_run_forM. intros y s' Hy. apply HQ; [by right|].
    intros ->. done.
  - eapply hoare_run_bind; [apply HP; [left|]|].
    + intros ->. done.
    + intros ? s. cbv beta. apply IH; auto.
      * intros y s' Hy. apply HP. by right.
      * intros y s' Hy. apply HQ. by right.
Qed.

Lemma hoare_run_forM_seed {X} (xs : list X) (body : X → StructM unit) :
  (∀ x s, x ∈ xs → hoare (λ _, True) (run (body x) s) (λ r _, r.2 = s)) →
  ∀ seed, hoare (λ _, True) (run (forM xs body) seed) (λ r _, r.2 = seed).
Proof.
  induction xs as [|x xs IH]; intros H seed; cbn [forM].
  - by apply hoare_ret.
  - eapply hoare_run_bind; [apply H; left|]. intros a s w Hs. cbn [snd] in Hs. subst s.
    apply IH; [|done].
    intros y s' Hy. apply H. by right.
Qed.

Lemma run_set_seed (x y z blk seed : Z) :
  hoare (λ _, True) (run (world_set x y z blk) seed) (λ r _, r.2 = seed).
Proof.
  unfold world_set. cbn [run]. intros w _. unfold mbind, M_bind.
  by destruct (HousingWorld.set x y z blk w) as [[] w'].
Qed.

Lemma leafLayers_seed (x z leafBase seed : Z) :
  hoare (λ _, True) (run (OakTree.leafLayers x z leafBase) seed)
    (λ r _, r.2 = seed).
Proof.
  revert seed. unfold OakTree.leafLayers.
  apply hoare_run_forM_seed. intros dy s2 _.
  apply hoare_run_forM_seed. intros dx s3 _.
  apply hoare_run_forM_seed. intros dz s4 _.
  destruct (_ && _); [by apply hoare_ret|]. cbv zeta.
  unfold mbind, StructM_mbind, world_get. cbn [StructM_bind run].
  eapply hoare_bind with (R := λ _ _, True); [done|]. intros r.
  destruct (r =? OakTree.AIR); [apply run_set_seed | by apply hoare_ret].
Qed.

(** [generate] draws one number, for the height of the trunk. *)
Lemma oak_seed (x y z seed : Z) (w : World) :
  (run (OakTree.generate x y z) seed w).1.2 = (mulberry32 seed).2.
Proof.
  rewrite run_generate. generalize (mulberry32 seed).2. intros s0.
  revert w. cut (hoare (λ _, True)
    (run (forM (range 0 (trunkHeight seed))
            (λ i, world_set x (y + i) z OakTree.OAK_LOG);;
          OakTree.leafLayers x z (y + trunkHeight seed);;
          world_set x (y + trunkHeight seed + 2) z OakTree.OAK_LEAVES) s0)
    (λ r _, r.2 = s0)); [intros H w; exact (H w I)|].
  eapply hoare_run_bind.
  { apply hoare_run_forM_seed. intros i s _. apply run_set_seed. }
  intros ? s1 w Hs. cbn [snd] in Hs. subst s1.
  refine ((_ : hoare (λ _, True)
    (run (OakTree.leafLayers x z (y + trunkHeight seed);;
          world_set x (y + trunkHeight seed + 2) z OakTree.OAK_LEAVES) s0)
    (λ r _, r.2 = s0)) w I).
  eapply hoare_run_bind; [apply leafLayers_seed|].
  intros ? s2 w' Hs. cbn [snd] in Hs. subst s2. by apply run_set_seed.
Qed.

(** X19. The shape of an oak tree: the trunk is four to six blocks high,
    every trunk cell within the world height holds a log once [generate]
    returns, also where a block was before, and the generator has drawn
    exactly one number. *)
Theorem oak_trunk (w : World) (x y z seed i : Z) :
  wf w → 0 ≤ i < trunkHeight seed → 0 ≤ y + i < 256 →
  let r := run (OakTree.generate x y z) seed w in
  4 ≤ trunkHeight seed ≤ 6
  ∧ eval (HousingWorld.get x (y + i) z) r.2 = OakTree.OAK_LOG
  ∧ r.1.2 = (mulberry32 seed).2.
Proof.
  intros Hw Hi Hy r. subst r. split; [apply trunkHeight_range|].
  split; [|apply oak_seed].
  refine (proj2 (proj1 (cellAt_get x (y + i) z _ _ Hy) _)).
  rewrite run_generate. generalize (mulberry32 seed).2. intros s0.
  assert (cellAt x (y + i) z (eval (HousingWorld.get x (y + i) z) w) w) as H0
    by (by apply cellAt_get).
  remember (eval (HousingWorld.get x (y + i) z) w) as v0 eqn:E. clear E Hw.
  refine ((_ : hoare (cellAt x (y + i) z v0) (run _ s0)
                 (λ _, cellAt x (y + i) z OakTree.OAK_LOG)) w H0).
  clear w H0. eapply hoare_run_bind with
    (R := λ _, cellAt x (y + i) z OakTree.OAK_LOG).
  { apply hoare_run_forM_one with (x0 := i).
    - apply range_NoDup.
    - apply range_elem. lia.
    - intros j s _ Hne. apply run_set_keeps. intros [=]. lia.
    - intros j s _ Hne. apply run_set_keeps. intros [=]. lia.
    - intros s. unfold world_set. cbn [run].
      eapply hoare_bind; [by apply set_cell_same|]. intros ?. by apply hoare_ret. }
  intros ? s1. cbv beta. eapply hoare_run_bind.
  { apply leafLayers_cell; [done|]. left. discriminate. }
  intros ? s2. cbv beta. apply run_set_keeps. intros [=]. lia.
Qed.

Lemma oak_trunk_witness :
  wf stoneAtCap ∧ 0 ≤ 3 < trunkHeight 12345
  ∧ eval (HousingWorld.get 0 (9 + 3) 0)
      (run (OakTree.generate 0 9 0) 12345 stoneAtCap).2
    = OakTree.OAK_LOG.
Proof.
  assert (wf stoneAtCap) as Hw.
  { refine (proj1 (set_loaded_inv ∅ 0 12 0 BLK.STONE HousingWorld.empty _)).
    split; [apply wf_empty | set_solver]. }
  assert (0 ≤ 3 < trunkHeight 12345) as Hi
    by (split; [lia | vm_compute; reflexivity]).
  split; [exact Hw|]. split; [exact Hi|].
  apply (oak_trunk stoneAtCap 0 9 0 12345 3 Hw Hi). lia.
Defined.

(** ** Generating a column *)

(** X20. [generateChunk] keeps the store well formed, unloads no chunk,
    and adds its own column, and no other, to the generated set. *)
Theorem generateChunk_frame (g : WorldGenerator.t) (w : World) (chunkX chunkZ : Z) :
  wf w →
  let w' := exec (WorldGenerator.generateChunk g chunkX chunkZ) w in
  wf w'
  ∧ dom (chunks w) ⊆ dom (chunks w')
  ∧ generatedColumns w' = {[(chunkX, chunkZ)]} ∪ generatedColumns w.
Proof.
  intros Hw w'. subst w'.
  destruct (generateChunk_loaded_inv (dom (chunks w)) g chunkX chunkZ w)
    as [H1 H2]; [by split|].
  split; [exact H1|]. split; [exact H2|].
  exact (generateChunk_generated _ g chunkX chunkZ w eq_refl).
Qed.

Lemma generateChunk_frame_witness :
  wf twoChunks
  ∧ generatedColumns (exec (WorldGenerator.generateChunk flat3 2 0) twoChunks)
    = {[(2, 0)]} ∪ generatedColumns twoChunks.
Proof.
  assert (wf twoChunks) as H by apply wf_twoChunks.
  split; [exact H|]. apply (generateChunk_frame flat3 twoChunks 2 0 H).
Defined.

Lemma generateChunk_exec (g : WorldGenerator.t) (w : World) (chunkX chunkZ : Z) :
  (chunkX, chunkZ) ∉ generatedColumns w →
  exec (WorldGenerator.generateChunk g chunkX chunkZ) w
  = exec (WorldGenerator.generateStructures g chunkX chunkZ
            (WorldGenerator.heightmap g (chunkX * WorldGenerator.cs)
               (chunkZ * WorldGenerator.cs)).1)
      (afterTerrain g chunkX chunkZ
         (exec (HousingWorld.markColumnGenerated chunkX chunkZ) w)).
Proof.
  intros Hnew. unfold WorldGenerator.generateChunk, afterTerrain, exec.
  unfold mbind at 1, M_bind at 1, HousingWorld.isColumnGenerated,
    HousingWorld.columnKey.
  rewrite bool_decide_false by done.
  unfold mbind at 1, M_bind at 1.
  destruct (HousingWorld.markColumnGenerated chunkX chunkZ w) as [[] w1].
  cbn [snd fst].
  destruct (WorldGenerator.heightmap g (chunkX * WorldGenerator.cs)
              (chunkZ * WorldGenerator.cs)) as [heights maxHeight].
  cbn [fst snd]. unfold mbind, M_bind.
  destruct (WorldGenerator.generateTerrain g chunkX chunkZ heights maxHeight w1)
    as [[] w2]. cbn [snd].
  by destruct (WorldGenerator.generateStructures g chunkX chunkZ heights w2)
    as [s w3].
Qed.

Lemma terrainBlock_solid (g : WorldGenerator.t) (surfaceY wy : Z) :
  WorldGenerator.terrainBlock g surfaceY wy ≠ BLK.AIR.
Proof.
  unfold WorldGenerator.terrainBlock.
  destruct (wy =? 0); [discriminate|]. destruct (wy <? surfaceY - 4); [discriminate|].
  destruct (wy <? surfaceY), (surfaceY <=? _); discriminate.
Qed.

(** The structure loop, for a catalog of oak trees, keeps the cells at or
    below the surface of the column that are not empty. *)
Lemma generateStructures_keeps (g : WorldGenerator.t) (chunkX chunkZ : Z)
    (heights : list Z) (lx lz Y v : Z) :
  Forall (λ e, structure e = OakTree.generate) (WorldGenerator.structures g) →
  0 ≤ Y < 256 → Y ≤ WorldGenerator.heightAt heights lx lz → v ≠ BLK.AIR →
  hoare (cellAt (chunkX * 32 + lx) Y (chunkZ * 32 + lz) v)
    (WorldGenerator.generateStructures g chunkX chunkZ heights)
    (λ _, cellAt (chunkX * 32 + lx) Y (chunkZ * 32 + lz) v).
Proof.
  intros Hoak HY Hs Hv. unfold WorldGenerator.generateStructures.
  rewrite Forall_forall in Hoak.
  apply hoare_foldM_frame. intros entry s Hentry.
  apply hoare_foldM_frame. intros attempt s' _.
  destruct (mulberry32 s') as [r1 s1]. destruct (mulberry32 s1) as [r2 s2].
  cbv zeta.
  destruct (negb _); [|by apply hoare_ret].
  eapply hoare_bind with
    (R := λ _, cellAt (chunkX * 32 + lx) Y (chunkZ * 32 + lz) v);
    [|intros [[] s3]; by apply hoare_ret].
  rewrite (Hoak entry Hentry). apply oak_cell; [done | | by left].
  generalize (Qfloor (r1 * inject_Z WorldGenerator.cs))
    (Qfloor (r2 * inject_Z WorldGenerator.cs)). intros kx kz.
  unfold WorldGenerator.cs.
  destruct (decide (lx = kx ∧ lz = kz)) as [[<- <-]|Hne]; [right; left; lia|].
  left. intros [=]. apply Hne. split; lia.
Qed.

(** X21. Oak trees do not disturb the terrain of the column they are
    generated with.  For a generator whose catalog holds oak trees only and
    a position whose surface height is a 32-bit integer (so that the
    [Int32Array] holds it unchanged): once [generateChunk] returns for a
    column that was not generated, on a well-formed store, every cell of
    the position at a height from 0 to the surface, below the world
    height, holds its terrain block. *)
Theorem generateChunk_terrain (g : WorldGenerator.t) (w : World)
    (chunkX chunkZ lx lz Y surface : Z) :
  wf w →
  (chunkX, chunkZ) ∉ generatedColumns w →
  Forall (λ e, structure e = OakTree.generate) (WorldGenerator.structures g) →
  0 ≤ lx < 32 → 0 ≤ lz < 32 → 0 ≤ Y < 256 →
  WorldGenerator.getSurfaceY g (chunkX * 32 + lx) (chunkZ * 32 + lz)
  = Some surface →
  - 2 ^ 31 ≤ surface < 2 ^ 31 →
  Y ≤ surface →
  eval (HousingWorld.get (chunkX * 32 + lx) Y (chunkZ * 32 + lz))
    (exec (WorldGenerator.generateChunk g chunkX chunkZ) w)
  = WorldGenerator.terrainBlock g surface Y.
Proof.
  intros Hw Hnew Hoak Hlx Hlz HY Hsurf Hr Hs.
  rewrite generateChunk_exec by done.
  set (w1 := exec (HousingWorld.markColumnGenerated chunkX chunkZ) w).
  assert (wf w1) as Hw1 by exact Hw.
  destruct (terrain_get_surface g w1 chunkX chunkZ lx lz Y surface Hw1 Hlx Hlz HY
              Hsurf ltac:(lia)) as [Hcol Hget].
  rewrite to_int32_small in Hcol, Hget by done.
  rewrite bool_decide_true in Hget by done.
  assert (wf (afterTerrain g chunkX chunkZ w1)) as Hw2.
  { refine (proj1 (frame_generateTerrain loaded_inv _ _ _ _ ∅ g chunkX chunkZ _ _
                     w1 _)); [loaded_inv_prims.. |].
    split; [exact Hw1 | set_solver]. }
  refine (proj2 (proj1 (cellAt_get _ Y _ _ _ HY) _)).
  apply generateStructures_keeps; [done | done | | apply terrainBlock_solid |].
  - unfold columnSurface in Hcol. rewrite Hcol. exact Hs.
  - apply cellAt_get; [done|]. by split.
Qed.

Lemma generateChunk_terrain_witness :
  wf HousingWorld.empty
  ∧ WorldGenerator.getSurfaceY plateau 5 7 = Some 70
  ∧ eval (HousingWorld.get 5 70 7)
      (exec (WorldGenerator.generateChunk plateau 0 0) HousingWorld.empty)
    = BLK.GRASS.
Proof.
  assert (WorldGenerator.getSurfaceY plateau (0 * 32 + 5) (0 * 32 + 7) = Some 70)
    as Hs by exact (getSurfaceY_flat plateau _ _ eq_refl eq_refl).
  assert ((0, 0) ∉ generatedColumns HousingWorld.empty) as Hnew
    by apply not_elem_of_empty.
  assert (Forall (λ e, structure e = OakTree.generate)
            (WorldGenerator.structures plateau)) as Hoak
    by (apply Forall_cons_2; [reflexivity | apply Forall_nil_2]).
  split; [exact wf_empty|]. split; [exact Hs|].
  exact (generateChunk_terrain plateau HousingWorld.empty 0 0 5 7 70 70
           wf_empty Hnew Hoak ltac:(lia) ltac:(lia) ltac:(lia) Hs ltac:(lia)
           ltac:(lia)).
Defined.

Lemma hoare_forM_prefix {X} (I : list X → World → Prop) (pre xs : list X)
    (body : X → M unit) :
  (∀ pre' x, x ∈ xs → hoare (I pre') (body x) (λ _, I (pre' ++ [x]))) →
  hoare (I pre) (forM xs body) (λ _, I (pre ++ xs)).
Proof.
  revert pre. induction xs as [|x xs IH]; intros pre H; cbn [forM].
  - apply hoare_ret. intros w Hw. by rewrite app_nil_r.
  - eapply hoare_bind; [apply H; left|]. intros ?.
    replace (pre ++ x :: xs) with ((pre ++ [x]) ++ xs) by (by rewrite <- app_assoc).
    apply IH. intros pre' y Hy. apply H. by right.
Qed.

Lemma markDirty_state (k : Z * Z * Z) (w : World) :
  let w' := exec (HousingWorld.markDirty k) w in
  dom (chunks w') = dom (chunks w)
  ∧ k ∈ dirtyChunks w'
  ∧ (∀ j, j ∈ dirtyChunks w → j ∈ dirtyChunks w').
Proof.
  unfold exec, HousingWorld.markDirty, HousingWorld.onChunk, HousingWorld.dirtyAdd,
    mbind, M_bind. cbn [fst snd chunks dirtyChunks].
  split; [apply dom_alter_chunks|].
  case_bool_decide as Hin; [done|]. split.
  - apply elem_of_app. right. by apply list_elem_of_singleton.
  - intros j Hj. apply elem_of_app. by left.
Qed.

(** X22. The terrain loop loads exactly the layers of the column that
    reach up to its highest surface, beside the chunks that were loaded
    before, and leaves each of them marked dirty: layers of air above the
    terrain are not allocated. *)
Theorem terrain_layers (g : WorldGenerator.t) (w : World) (chunkX chunkZ : Z)
    (heights : list Z) (maxHeight : Z) :
  let w' := exec (WorldGenerator.generateTerrain g chunkX chunkZ heights
                    maxHeight) w in
  (∀ k, k ∈ dom (chunks w') ↔
        k ∈ dom (chunks w)
        ∨ ∃ cy, 0 ≤ cy < 8 ∧ cy * 32 ≤ maxHeight ∧ k = (chunkX, cy, chunkZ))
  ∧ (∀ cy, 0 ≤ cy < 8 → cy * 32 ≤ maxHeight →
        (chunkX, cy, chunkZ) ∈ dirtyChunks w').
Proof.
  pose (I := λ (pre : list Z) (w' : World),
    (∀ k, k ∈ dom (chunks w') →
          k ∈ dom (chunks w)
          ∨ ∃ cy, 0 ≤ cy < 8 ∧ cy * 32 ≤ maxHeight ∧ k = (chunkX, cy, chunkZ))
    ∧ dom (chunks w) ⊆ dom (chunks w')
    ∧ (∀ cy, cy ∈ pre → cy * 32 ≤ maxHeight →
          (chunkX, cy, chunkZ) ∈ dom (chunks w')
          ∧ (chunkX, cy, chunkZ) ∈ dirtyChunks w')).
  assert (hoare (I []) (WorldGenerator.generateTerrain g chunkX chunkZ heights
                          maxHeight)
            (λ _, I (range 0 WorldGenerator.numCY))) as H.
  { unfold WorldGenerator.generateTerrain.
    apply (hoare_forM_prefix I []). intros pre cy Hcy%range_elem. cbv zeta.
    unfold WorldGenerator.numCY in Hcy. unfold WorldGenerator.cs.
    destruct (Z.gtb_spec (cy * 32) maxHeight) as [Hgt|Hle].
    - apply hoare_ret. intros w0 (HU & HL & HD). split; [done|]. split; [done|].
      intros c [Hc|Hc%list_elem_of_singleton]%elem_of_app ?; [by apply HD | lia].
    - intros w0 (HU & HL & HD). unfold mbind at 1, M_bind at 1.
      set (k := (chunkX, cy, chunkZ)).
      assert (∃ w1, HousingWorld.getOrCreateChunk chunkX cy chunkZ w0 = (k, w1)
                    ∧ dom (chunks w1) = {[k]} ∪ dom (chunks w0)
                    ∧ dirtyChunks w1 = dirtyChunks w0) as (w1 & -> & Hd1 & Hl1).
      { unfold HousingWorld.getOrCreateChunk, HousingWorld.chunkKey. fold k.
        destruct (chunks w0 !! k) as [c|] eqn:E.
        - exists w0. split; [done|]. split; [|done].
          apply elem_of_dom_2 in E. set_solver.
        - eexists. split; [done|]. cbn [chunks dirtyChunks].
          split; [apply dom_insert_L | done]. }
      unfold mbind at 1, M_bind at 1.
      match goal with |- context [forM ?xs ?body w1] =>
        pose proof (hoare_forM_frame
          (λ w2, dom (chunks w2) = dom (chunks w1)
                 ∧ dirtyChunks w2 = dirtyChunks w1) xs body) as Hloop
      end.
      match type of Hloop with ?A → _ => assert A as Hbody end.
      { intros lx _. apply hoare_forM_frame. intros lz _.
        destruct (_ <? _); [by apply hoare_ret|].
        apply hoare_forM_frame. intros wy _ w2 [Hd2 Hl2].
        unfold HousingWorld.onChunk. cbn [snd chunks dirtyChunks].
        by rewrite dom_alter_chunks. }
      specialize (Hloop Hbody w1 (conj eq_refl eq_refl)). clear Hbody.
      match goal with |- context [forM ?xs ?body w1] =>
        destruct (forM xs body w1) as [[] w2]
      end.
      cbn [snd] in Hloop. destruct Hloop as [Hd2 Hl2].
      pose proof (markDirty_state k w2) as Hmd. cbv zeta in Hmd. unfold exec in Hmd.
      destruct (HousingWorld.markDirty k w2) as [[] w3].
      cbn [fst snd] in *. destruct Hmd as (Hd3 & Hk3 & Hl3).
      assert (dom (chunks w3) = {[k]} ∪ dom (chunks w0)) as Hdom by congruence.
      split; [|split].
      + intros j. rewrite Hdom. intros [->%elem_of_singleton|Hj]%elem_of_union.
        * right. exists cy. done.
        * by apply HU.
      + rewrite Hdom. set_solver.
      + intros c [Hc | ->%list_elem_of_singleton]%elem_of_app Hcm.
        * destruct (HD c Hc Hcm) as [H1 H2]. split.
          -- rewrite Hdom. set_solver.
          -- apply Hl3. by rewrite Hl2, Hl1.
        * split; [rewrite Hdom; set_solver | exact Hk3]. }
  intros w'. subst w'.
  destruct (H w) as (HU & HL & HD).
  { split; [by left|]. split; [done|]. intros cy Hcy. by apply elem_of_nil in Hcy. }
  unfold exec. split.
  - intros k. split; [apply HU|]. intros [Hk|(cy & Hcy & Hm & ->)]; [by apply HL|].
    apply HD; [|done]. apply range_elem. unfold WorldGenerator.numCY. lia.
  - intros cy Hcy Hm. apply HD; [|done]. apply range_elem.
    unfold WorldGenerator.numCY. lia.
Qed.

(** X23. On a beach no structure is placed: when every column of the
    heightmap lies at most two blocks above the sea level, the structure
    loop leaves the store as it is, whatever the catalog holds. *)
Theorem beach_no_structures (g : WorldGenerator.t) (w : World)
    (chunkX chunkZ : Z) (heights : list Z) :
  (∀ lx lz, 0 ≤ lx < 32 → 0 ≤ lz < 32 →
     WorldGenerator.heightAt heights lx lz ≤ WorldGenerator.seaLevel g + 2) →
  exec (WorldGenerator.generateStructures g chunkX chunkZ heights) w = w.
Proof.
  intros Hbeach.
  refine (hoare_foldM_frame (λ w0, w0 = w) _ _ _ _ w eq_refl).
  intros entry s _. apply hoare_foldM_frame. intros attempt s' _.
  pose proof (rand_index s' 32 ltac:(lia)) as H1.
  destruct (mulberry32 s') as [r1 s1]. cbn [fst] in H1.
  pose proof (rand_index s1 32 ltac:(lia)) as H2.
  destruct (mulberry32 s1) as [r2 s2]. cbn [fst] in H2.
  cbv zeta. unfold WorldGenerator.cs.
  destruct (Z.leb_spec
              (WorldGenerator.heightAt heights (Qfloor (r1 * inject_Z 32))
                 (Qfloor (r2 * inject_Z 32)))
              (WorldGenerator.seaLevel g + 2)) as [Hle|Hgt]; cbn [negb].
  - by apply hoare_ret.
  - specialize (Hbeach _ _ H1 H2). lia.
Qed.

Lemma beach_no_structures_witness :
  (∀ lx lz, 0 ≤ lx < 32 → 0 ≤ lz < 32 →
     WorldGenerator.heightAt (WorldGenerator.heightmap flat3 0 0).1 lx lz
     ≤ WorldGenerator.seaLevel flat3 + 2)
  ∧ exec (WorldGenerator.generateStructures flat3 0 0
            (WorldGenerator.heightmap flat3 0 0).1) twoChunks
    = twoChunks.
Proof.
  assert (∀ lx lz, 0 ≤ lx < 32 → 0 ≤ lz < 32 →
            WorldGenerator.heightAt (WorldGenerator.heightmap flat3 0 0).1 lx lz
            ≤ WorldGenerator.seaLevel flat3 + 2) as H.
  { intros lx lz Hlx Hlz.
    pose proof (flat3_surface 0 0 lx lz Hlx Hlz) as Hs. unfold columnSurface in Hs.
    change (0 * WorldGenerator.cs) with 0 in Hs. rewrite Hs.
    change (WorldGenerator.seaLevel flat3) with 62. lia. }
  split; [exact H|].
  exact (beach_no_structures flat3 twoChunks 0 0 _ H).
Defined.

(** ** Streaming to completion *)

Lemma inRange_elem (p c : Z * Z) (renderDistance : Z) :
  c ∈ inRange p renderDistance ↔ chebyshev p c ≤ renderDistance.
Proof.
  unfold inRange. rewrite elem_of_list_to_set, list_elem_of_In.
  destruct c as [cx cz]. rewrite in_prod_iff, <- !list_elem_of_In, !range_incl_elem.
  unfold chebyshev. cbn [fst snd]. lia.
Qed.

Lemma size_list_to_set_le (l : list (Z * Z)) :
  (size (list_to_set l : gset (Z * Z)) ≤ length l)%nat.
Proof.
  induction l as [|x l IH]; cbn [list_to_set length].
  - by rewrite size_empty.
  - rewrite size_union_alt, size_singleton.
    pose proof (subseteq_size (list_to_set l ∖ {[x]}) (list_to_set l : gset (Z * Z))
                  ltac:(set_solver)). lia.
Qed.

Lemma inRange_size (p : Z * Z) (renderDistance : Z) :
  Z.of_nat (size (inRange p renderDistance)) ≤ (2 * renderDistance + 1) ^ 2.
Proof.
  unfold inRange.
  set (l := list_prod (range_incl (p.1 - renderDistance) (p.1 + renderDistance))
              (range_incl (p.2 - renderDistance) (p.2 + renderDistance))).
  pose proof (size_list_to_set_le l) as H.
  assert (length l = (Z.to_nat (2 * renderDistance + 1)
                      * Z.to_nat (2 * renderDistance + 1))%nat) as Hl.
  { unfold l, range_incl. rewrite length_prod, !length_seqZ. f_equal; f_equal; lia. }
  rewrite Hl in H. clearbody l. clear Hl.
  rewrite Z.pow_2_r. remember (2 * renderDistance + 1) as k eqn:Ek. clear Ek.
  destruct (Z.le_gt_cases k 0) as [Hk|Hk].
  - replace (Z.to_nat k) with 0%nat in H by lia. nia.
  - apply Nat2Z.inj_le in H. rewrite Nat2Z.inj_mul, Z2Nat.id in H by lia. exact H.
Qed.

(** The generated set after one [update] with a budget of at most one. *)
Lemma update_low_generated (g : WorldGenerator.t) (w : World)
    (playerX playerZ : Q) (renderDistance maxGenPerFrame maxBuildPerFrame : Z) :
  maxGenPerFrame ≤ 1 →
  generatedColumns
    (exec (HousingWorld.update playerX playerZ (WorldGenerator.generateChunk g)
             renderDistance maxGenPerFrame maxBuildPerFrame) w)
  = match firstMissing w (playerColumn playerX playerZ) renderDistance with
    | None => generatedColumns w
    | Some c => {[c]} ∪ generatedColumns w
    end.
Proof.
  intros Hm. rewrite update_exec. unfold exec.
  rewrite (unloadAndBuild_generated _ _ _ _ _ eq_refl).
  rewrite ringLoop_low by done.
  destruct (firstMissing _ _ _) as [[cx cz]|]; [|done]. unfold exec. cbn [fst snd].
  exact (generateChunk_generated _ g cx cz w eq_refl).
Qed.

Lemma update_low_missing (g : WorldGenerator.t) (w : World)
    (playerX playerZ : Q) (renderDistance maxGenPerFrame maxBuildPerFrame : Z) :
  maxGenPerFrame ≤ 1 →
  let p := playerColumn playerX playerZ in
  let w' := exec (HousingWorld.update playerX playerZ
                    (WorldGenerator.generateChunk g) renderDistance
                    maxGenPerFrame maxBuildPerFrame) w in
  (size (inRange p renderDistance ∖ generatedColumns w')
   ≤ size (inRange p renderDistance ∖ generatedColumns w) - 1)%nat.
Proof.
  intros Hm p w'. subst w'. rewrite update_low_generated by done. fold p.
  destruct (firstMissing w p renderDistance) as [c|] eqn:E.
  - destruct (firstMissing_Some p renderDistance w c E) as (Hc & Hr & _).
    replace (inRange p renderDistance ∖ ({[c]} ∪ generatedColumns w))
      with ((inRange p renderDistance ∖ generatedColumns w) ∖ {[c]})
      by set_solver.
    rewrite size_difference, size_singleton; [done|].
    apply singleton_subseteq_l, elem_of_difference. split; [|done].
    by apply inRange_elem.
  - replace (inRange p renderDistance ∖ generatedColumns w) with (∅ : gset (Z * Z));
      [by rewrite size_empty|].
    symmetry. apply set_eq. intros c. split; [|set_solver].
    intros [Hc%inRange_elem Hn]%elem_of_difference. exfalso. apply Hn.
    by apply (firstMissing_None p renderDistance).
Qed.

(** X24. Streaming completes: with the default generation budget of one
    column per call, (2·renderDistance + 1)² calls of [update] for a player
    who stays in one column generate every column within [renderDistance]
    of it. *)
Theorem streaming_converges (g : WorldGenerator.t) (w : World)
    (playerX playerZ : Q) (renderDistance maxGenPerFrame maxBuildPerFrame : Z)
    (n : nat) (c : Z * Z) :
  maxGenPerFrame ≤ 1 →
  (2 * renderDistance + 1) ^ 2 ≤ Z.of_nat n →
  chebyshev (playerColumn playerX playerZ) c ≤ renderDistance →
  c ∈ generatedColumns
        (Nat.iter n
           (exec (HousingWorld.update playerX playerZ
                    (WorldGenerator.generateChunk g) renderDistance
                    maxGenPerFrame maxBuildPerFrame)) w).
Proof.
  intros Hm Hn Hc.
  set (p := playerColumn playerX playerZ) in *.
  set (step := exec (HousingWorld.update playerX playerZ
                       (WorldGenerator.generateChunk g) renderDistance
                       maxGenPerFrame maxBuildPerFrame)).
  assert (∀ k, (size (inRange p renderDistance ∖ generatedColumns (Nat.iter k step w))
                ≤ size (inRange p renderDistance ∖ generatedColumns w) - k)%nat)
    as Hk.
  { induction k as [|k IH]; [change (Nat.iter 0 step w) with w; lia|].
    change (Nat.iter (S k) step w) with (step (Nat.iter k step w)).
    pose proof (update_low_missing g (Nat.iter k step w) playerX playerZ
                  renderDistance maxGenPerFrame maxBuildPerFrame Hm) as H.
    cbv zeta in H. fold p step in H. lia. }
  specialize (Hk n).
  pose proof (inRange_size p renderDistance) as Hs.
  pose proof (subseteq_size (inRange p renderDistance ∖ generatedColumns w)
                (inRange p renderDistance) ltac:(set_solver)) as Hle.
  assert (size (inRange p renderDistance ∖ generatedColumns (Nat.iter n step w)) = 0%nat)
    as H0 by lia.
  apply size_empty_inv in H0.
  apply inRange_elem in Hc.
  destruct (decide (c ∈ generatedColumns (Nat.iter n step w))) as [|Hn']; [done|].
  exfalso. apply (not_elem_of_empty (C := gset (Z * Z)) c), H0.
  by apply elem_of_difference.
Qed.

Lemma streaming_converges_witness :
  1 ≤ 1 ∧ (2 * 1 + 1) ^ 2 ≤ Z.of_nat 9
  ∧ (1, -1) ∈ generatedColumns
        (Nat.iter 9
           (exec (HousingWorld.update 0 0 (WorldGenerator.generateChunk flat3)
                    1 1 2)) HousingWorld.empty).
Proof.
  assert ((2 * 1 + 1) ^ 2 ≤ Z.of_nat 9) as Hn by (vm_compute; discriminate).
  assert (chebyshev (playerColumn 0 0) (1, -1) ≤ 1) as Hc
    by (vm_compute; discriminate).
  split; [lia|]. split; [exact Hn|].
  exact (streaming_converges flat3 HousingWorld.empty 0 0 1 1 2 9 (1, -1)
           ltac:(lia) Hn Hc).
Defined.
